(** * helm-parser: the format-preserving values patch engine and its companions

    A shallow embedding of the Go package [helm_parser]: the line model and
    path stack ([yaml_walker.go]), the values patch engine
    ([injectBlockIntoValuesPath] and its helpers), wrapper detection, the
    root-level deep merge, the in-place pod-spec injector, the image existence
    prober and the values backup.

    Conventions.
    - A Go [string] is a [string] of bytes; documents are taken to be ASCII, so
      [strings.TrimSpace] trims exactly tab, line feed, vertical tab, form
      feed, carriage return and space.
    - A Go [int] is a [Z].  Every integer below is bounded by the length of a
      line or of a document, so 64-bit wrap-around never occurs and is not
      written out.
    - A call either returns, panics (a run-time panic such as
      [strings.Repeat] with a negative count) or terminates the process
      ([Logger.Fatalf]); this is the [outcome] monad.
    - [gopkg.in/yaml.v2] is an external library.  The engine is written
      against the two entry points it uses, [yaml.Unmarshal] into a
      [map[string]interface{}] and [yaml.Marshal], taken as parameters of a
      section; a concrete decoder and encoder for the block dialect is given
      afterwards and is what the closed examples run on. *)

From Stdlib Require Import Ascii String.
From stdpp Require Import prelude strings pretty gmap.

Local Open Scope Z_scope.

(** ** Outcomes of a call *)

Inductive outcome (A : Type) : Type :=
| Ok (a : A)
| Panic
| Fatal.
Arguments Ok {A} a.
Arguments Panic {A}.
Arguments Fatal {A}.

Definition obind {A B : Type} (m : outcome A) (k : A -> outcome B) : outcome B :=
  match m with
  | Ok a => k a
  | Panic => Panic
  | Fatal => Fatal
  end.

Notation "'do' x <- m ; k" := (obind m (fun x => k))
  (at level 10, x pattern, m at level 100, k at level 200).

(** ** The [strings] package *)

Module Strings.

Definition nl : ascii := "010"%char.
Definition newline : string := String nl EmptyString.

(** [unicode.IsSpace] on ASCII. *)
Definition IsSpace (c : ascii) : bool := Ascii.is_space c.

Fixpoint TrimLeft (s : string) : string :=
  match s with
  | EmptyString => EmptyString
  | String c rest => if IsSpace c then TrimLeft rest else s
  end.

Definition TrimRight (s : string) : string :=
  String.rev (TrimLeft (String.rev s)).

(** [strings.TrimSpace]. *)
Definition TrimSpace (s : string) : string := TrimRight (TrimLeft s).

(** [strings.HasPrefix s p]. *)
Definition HasPrefix (s p : string) : bool := String.prefix p s.

(** [strings.Contains s (string c)] for a one-byte separator. *)
Fixpoint ContainsChar (s : string) (c : ascii) : bool :=
  match s with
  | EmptyString => false
  | String d rest => Ascii.eqb d c || ContainsChar rest c
  end.

(** [strings.Contains s sub]. *)
Fixpoint ContainsStr (s sub : string) : bool :=
  String.prefix sub s
  || match s with
     | EmptyString => false
     | String _ rest => ContainsStr rest sub
     end.

(** [strings.SplitN s (string c) 2]: the text before the first [c] and the
    text after it, or [None] when [c] does not occur (the Go call then returns
    a single part). *)
Fixpoint Cut (s : string) (c : ascii) : option (string * string) :=
  match s with
  | EmptyString => None
  | String d rest =>
      if Ascii.eqb d c then Some (EmptyString, rest)
      else match Cut rest c with
           | Some (a, b) => Some (String d a, b)
           | None => None
           end
  end.

(** [strings.Split s (string c)] for a one-byte separator: never empty. *)
Fixpoint Split (s : string) (c : ascii) : list string :=
  match s with
  | EmptyString => [EmptyString]
  | String d rest =>
      if Ascii.eqb d c then EmptyString :: Split rest c
      else match Split rest c with
           | l :: ls => String d l :: ls
           | [] => [String d EmptyString]
           end
  end.

(** [strings.Join l sep]. *)
Fixpoint Join (l : list string) (sep : string) : string :=
  match l with
  | [] => EmptyString
  | [x] => x
  | x :: rest => x +:+ sep +:+ Join rest sep
  end.

Fixpoint spaces (n : nat) : string :=
  match n with
  | O => EmptyString
  | S n => String " " (spaces n)
  end.

(** [strings.Repeat " " count]: panics on a negative count. *)
Definition RepeatSpace (count : Z) : outcome string :=
  if count <? 0 then Panic else Ok (spaces (Z.to_nat count)).

Definition Lines (content : string) : list string := Split content nl.
Definition Unlines (lines : list string) : string := Join lines newline.

End Strings.
Import Strings.

(** ** The line model ([yaml_walker.go]) *)

(** [GetIndentation]: the number of spaces at the start of a line. *)
Fixpoint GetIndentationNat (line : string) : nat :=
  match line with
  | EmptyString => O
  | String c rest => if Ascii.eqb c " " then S (GetIndentationNat rest) else O
  end.

Definition GetIndentation (line : string) : Z := Z.of_nat (GetIndentationNat line).

(** The package also carries a private copy with the same body. *)
Definition getIndentation (line : string) : Z := GetIndentation line.

Record YAMLLine : Type := mkYAMLLine {
  Raw : string;
  Trimmed : string;
  Indent : Z;
  IsEmpty : bool;
  IsComment : bool;
  Key : string;
  Value : string;
  HasColon : bool;
  ValueIndent : Z
}.

Definition String_eqb (a b : string) : bool := bool_decide (a = b).

Definition ParseLine (line : string) : YAMLLine :=
  let trimmed := TrimSpace line in
  let indent := GetIndentation line in
  let isEmpty := String_eqb trimmed EmptyString in
  let isComment := HasPrefix trimmed "#" in
  let hasColon := ContainsChar trimmed ":" in
  let kv :=
    if hasColon && negb isComment then
      match Cut trimmed ":" with
      | Some (k, v) =>
          (TrimSpace k, TrimSpace v,
           Z.of_nat (String.length v) - Z.of_nat (String.length (TrimLeft v)))
      | None => (EmptyString, EmptyString, 0)
      end
    else (EmptyString, EmptyString, 0) in
  {| Raw := line; Trimmed := trimmed; Indent := indent;
     IsEmpty := isEmpty; IsComment := isComment;
     Key := kv.1.1; Value := kv.1.2; HasColon := hasColon;
     ValueIndent := kv.2 |}.

(** [IsEmptyOrComment]. *)
Definition IsEmptyOrComment (line : string) : bool :=
  let trimmed := TrimSpace line in
  String_eqb trimmed EmptyString || HasPrefix trimmed "#".

(** ** The path stack *)

Record PathLevel : Type := mkPathLevel { LIndent : Z; LKey : string }.

(** The stack is kept with its top first; [CurrentPath] lists the keys from
    the bottom, as the Go slice does. *)
Definition PathStack : Type := list PathLevel.

Definition NewPathStack : PathStack := [].

Definition Push (ps : PathStack) (indent : Z) (key : string) : PathStack :=
  mkPathLevel indent key :: ps.

Fixpoint PopToIndent (ps : PathStack) (indent : Z) : PathStack :=
  match ps with
  | [] => []
  | top :: below => if indent <=? LIndent top then PopToIndent below indent else ps
  end.

Definition CurrentPath (ps : PathStack) : list string := rev (map LKey ps).

Fixpoint pathsMatch (current target : list string) : bool :=
  match current, target with
  | [], [] => true
  | c :: cs, t :: ts => String_eqb c t && pathsMatch cs ts
  | _, _ => false
  end.

(** ** Decoded YAML values

    What [yaml.Unmarshal] stores in an [interface{}]: [nil], [bool], [int],
    [string], [[]interface{}] and [map[interface{}]interface{}].  Floats are
    not modelled.  A mapping is an association list whose keys are distinct;
    ranging over a Go map visits the entries in an unspecified order, ranging
    over the list visits them in list order. *)

#[warnings="-register-all"]
Inductive ynode : Type :=
| YNull
| YBool (b : bool)
| YInt (z : Z)
| YStr (s : string)
| YSeq (items : list ynode)
| YMap (entries : list (ynode * ynode)).

(** A [map[string]interface{}]. *)
Definition ymap : Type := list (string * ynode).

Fixpoint mapIndex (m : ymap) (key : string) : option ynode :=
  match m with
  | [] => None
  | (k, v) :: rest => if String_eqb k key then Some v else mapIndex rest key
  end.

(** The loop [for k, v := range tolMap { if keyStr, ok := k.(string); ok {...} }]. *)
Fixpoint stringKeys (entries : list (ynode * ynode)) : ymap :=
  match entries with
  | [] => []
  | (YStr k, v) :: rest => (k, v) :: stringKeys rest
  | _ :: rest => stringKeys rest
  end.

(** [fmt.Sprintf("%v", v)].  Scalars print as Go prints them; a nested
    sequence or mapping prints its parts in list order. *)
Fixpoint Sprint (v : ynode) : string :=
  match v with
  | YNull => "<nil>"
  | YBool b => if b then "true" else "false"
  | YInt z => pretty z
  | YStr s => s
  | YSeq items => "[" +:+ Join (map Sprint items) " " +:+ "]"
  | YMap entries =>
      "map[" +:+ Join (map (fun kv => Sprint kv.1 +:+ ":" +:+ Sprint kv.2) entries) " " +:+ "]"
  end.

(** ** Package-level tables *)

Definition KnownWrapperKeys : list string := ["_internal_defaults_do_not_set"].

Definition podConfigKeys : list string :=
  ["annotations"; "tolerations"; "affinity"; "nodeSelector"; "priorityClassName"].

Definition containerConfigKeys : list string :=
  ["resources"; "env"; "envFrom"; "volumeMounts"].

Definition serviceConfigKeys : list string := ["type"].

(** [slices.Contains]. *)
Definition Contains (l : list string) (x : string) : bool :=
  existsb (String_eqb x) l.

Record ValueReference : Type := mkValueReference {
  Path : list string;
  RefKey : string
}.

(** ** The values patch engine *)

Section Engine.

(** [yaml.Unmarshal([]byte(s), &m)] with [m : map[string]interface{}]:
    [None] is a non-nil error. *)
Variable yaml_unmarshal : string -> option ymap.

(** [yaml.Marshal(m)] for a [map[string]interface{}]. *)
Variable yaml_marshal : ymap -> string.

Definition isComplexNestedBlock (key : string) (injectedBlocks : list string) : bool :=
  existsb (fun block =>
    match yaml_unmarshal block with
    | None => false
    | Some blockData =>
        match mapIndex blockData key with
        | Some (YMap _) => true
        | _ => false
        end
    end) injectedBlocks.

Definition isListBasedBlock (key : string) (injectedBlocks : list string) : bool :=
  if String_eqb key "tolerations" then true
  else existsb (fun block =>
    match yaml_unmarshal block with
    | None => false
    | Some blockData =>
        match mapIndex blockData key with
        | Some (YSeq _) => true
        | _ => false
        end
    end) injectedBlocks.

(** The inner loop of [injectBlockLines] over [blockLines[1:]]. *)
Fixpoint reindent (bodyLines : list string) (indent baseBlockIndent : Z)
  : outcome (list string) :=
  match bodyLines with
  | [] => Ok []
  | blockLine :: more =>
      let lineIndent := GetIndentation blockLine in
      let trimmedBlock := TrimSpace blockLine in
      let relativeIndent := lineIndent - baseBlockIndent in
      do pad <- RepeatSpace (indent + relativeIndent);
      do tail <- reindent more indent baseBlockIndent;
      Ok ((pad +:+ trimmedBlock) :: tail)
  end.

(** [injectBlockLines] as it stands next to [mergeTolerations]: a one-line
    block is written whole, a longer block loses its first line. *)
Fixpoint injectBlockLines (blocks : list string) (indent : Z) (key : string)
  : outcome (list string) :=
  match blocks with
  | [] => Ok []
  | block :: more =>
      let blockLines := Lines (TrimSpace block) in
      do here <-
        match blockLines with
        | [] => Ok []
        | [only] =>
            do pad <- RepeatSpace indent;
            Ok [pad +:+ TrimSpace only]
        | _ :: (firstContentLine :: _) as body =>
            reindent body indent (GetIndentation firstContentLine)
        end;
      do tail <- injectBlockLines more indent key;
      Ok (here ++ tail)
  end.

(** The older [injectBlockLines] of [values_helpers.go]: a block of fewer than
    two lines is skipped. *)
Fixpoint injectBlockLines_helpers (blocks : list string) (indent : Z) (key : string)
  : outcome (list string) :=
  match blocks with
  | [] => Ok []
  | block :: more =>
      let blockLines := Lines (TrimSpace block) in
      do here <-
        match blockLines with
        | _ :: (firstContentLine :: _) as body =>
            reindent body indent (GetIndentation firstContentLine)
        | _ => Ok []
        end;
      do tail <- injectBlockLines_helpers more indent key;
      Ok (here ++ tail)
  end.

Definition isSingleLineScalar (blocks : list string) (key : string) : bool :=
  match blocks with
  | [] => false
  | _ =>
      forallb (fun block =>
        match Lines (TrimSpace block) with
        | [only] => HasPrefix (TrimSpace only) (key +:+ ":")
        | _ => false
        end) blocks
  end.

(** *** Tolerations *)

Definition tolerationFields : list string :=
  ["key"; "operator"; "effect"; "value"; "tolerationSeconds"].

Definition fieldMatches (a b : ymap) (field : string) : bool :=
  match mapIndex a field, mapIndex b field with
  | Some aVal, Some bVal => String_eqb (Sprint aVal) (Sprint bVal)
  | None, None => true
  | _, _ => false
  end.

Definition tolerationsMatch (a b : ymap) : bool :=
  forallb (fieldMatches a b) tolerationFields.

(** The first loop of [mergeTolerations]: the lines it copies to the result,
    those it keeps as existing content, and how many lines it passed. *)
Fixpoint collectExisting (rest : list string) (actualIndent : Z)
  : list string * list string * nat :=
  match rest with
  | [] => ([], [], O)
  | nextLine :: more =>
      let nextIndent := getIndentation nextLine in
      let nextTrimmed := TrimSpace nextLine in
      if String_eqb nextTrimmed EmptyString || HasPrefix nextTrimmed "#" then
        let '(copied, existing, n) := collectExisting more actualIndent in
        (nextLine :: copied, existing, S n)
      else if nextIndent <=? actualIndent then ([], [], O)
      else
        let '(copied, existing, n) := collectExisting more actualIndent in
        (nextLine :: copied, nextLine :: existing, S n)
  end.

(** The items of [m["tolerations"]] that are mappings. *)
Definition tolerationMaps (m : ymap) : list (list (ynode * ynode)) :=
  match mapIndex m "tolerations" with
  | Some (YSeq tolList) =>
      omap (fun tol => match tol with YMap tolMap => Some tolMap | _ => None end) tolList
  | _ => []
  end.

Definition parseExisting (existingContent : list string) : list ymap :=
  let existingYaml := "tolerations:" +:+ newline +:+ Join existingContent newline in
  match yaml_unmarshal existingYaml with
  | Some existingTolerations => map stringKeys (tolerationMaps existingTolerations)
  | None => []
  end.

(** The second loop: the candidate items no existing item matches. *)
Definition newTolerations (existingParsed : list ymap) (blocks : list string)
  : list (list (ynode * ynode)) :=
  flat_map (fun block =>
    match yaml_unmarshal block with
    | None => []
    | Some blockData =>
        filter (fun tolMap =>
                  existsb (fun existing => tolerationsMatch existing (stringKeys tolMap))
                          existingParsed = false)
               (tolerationMaps blockData)
    end) blocks.

(** [mergeTolerations lines result i actualIndent blocks line], with
    [rest = lines[i+1:]].  The second component is [j - (i + 1)], the number of
    lines of [rest] the caller then jumps over. *)
Definition mergeTolerations (rest result : list string) (actualIndent : Z)
    (blocks : list string) (line : string)
  : outcome (list string * nat * bool * bool) :=
  let result := result ++ [line] in
  let '(copied, existingContent, passed) := collectExisting rest actualIndent in
  let result := result ++ copied in
  let existingParsed := parseExisting existingContent in
  let newTolerationsToAdd := newTolerations existingParsed blocks in
  match newTolerationsToAdd with
  | [] => Ok (result, passed, false, true)
  | _ =>
      let blockStr := yaml_marshal [("tolerations", YSeq (map YMap newTolerationsToAdd))] in
      do injected <- injectBlockLines [blockStr] (actualIndent + 2) "tolerations";
      Ok (result ++ injected, passed, true, true)
  end.

(** *** Nested maps *)

(** The loop of [handleComplexNestedBlock]: lines kept (all of them in check
    mode, none in replace mode), whether content was met, lines passed. *)
Fixpoint passNested (rest : list string) (actualIndent : Z) (replaceContent : bool)
  : list string * bool * nat :=
  match rest with
  | [] => ([], false, O)
  | nextLine :: more =>
      let nextIndent := getIndentation nextLine in
      let nextTrimmed := TrimSpace nextLine in
      if String_eqb nextTrimmed EmptyString || HasPrefix nextTrimmed "#" then
        let '(kept, has, n) := passNested more actualIndent replaceContent in
        ((if replaceContent then kept else nextLine :: kept), has, S n)
      else if nextIndent <=? actualIndent then ([], false, O)
      else
        let '(kept, has, n) := passNested more actualIndent replaceContent in
        ((if replaceContent then kept else nextLine :: kept), true, S n)
  end.

Definition handleComplexNestedBlock (rest result : list string) (actualIndent : Z)
    (blocks : list string) (yl : YAMLLine) (replaceContent : bool)
  : outcome (list string * nat * bool * bool) :=
  let '(kept, hasExistingContent, passed) := passNested rest actualIndent replaceContent in
  let result := result ++ kept in
  if replaceContent then
    do pad <- RepeatSpace actualIndent;
    do injected <- injectBlockLines blocks (actualIndent + 2) (Key yl);
    Ok ((result ++ [pad +:+ Key yl +:+ ":"]) ++ injected, passed, true, true)
  else if negb hasExistingContent then
    do injected <- injectBlockLines blocks (actualIndent + 2) (Key yl);
    Ok (result ++ injected, passed, true, true)
  else Ok (result, passed, false, false).

(** *** The scan of [injectBlockIntoValuesPath] *)

Record scanState : Type := mkScan {
  stack : PathStack;
  result : list string;
  modified : bool;
  actuallyInjected : bool
}.

Definition initialScan : scanState := mkScan NewPathStack [] false false.

(** The wrapper line itself: passed through and never matched. *)
Definition isWrapperLine (indentOffset : Z) (yl : YAMLLine) : bool :=
  (0 <? indentOffset) && (Indent yl =? 0) && HasColon yl
  && Contains KnownWrapperKeys (Key yl).

(** The indentation used for the path stack. *)
Definition virtualIndent (indentOffset : Z) (yl : YAMLLine) : Z :=
  if (0 <? indentOffset) && (indentOffset <=? Indent yl)
  then Indent yl - indentOffset else Indent yl.

(** The look-ahead of the empty-value branch for existing content. *)
Fixpoint hasExistingContent (rest : list string) (ylIndent : Z) : bool :=
  match rest with
  | [] => false
  | nextLine :: more =>
      let nextIndent := getIndentation nextLine in
      let nextTrimmed := TrimSpace nextLine in
      if String_eqb nextTrimmed EmptyString || HasPrefix nextTrimmed "#" then
        hasExistingContent more ylIndent
      else if (nextIndent =? ylIndent) && HasPrefix nextTrimmed "- " then true
      else if nextIndent <=? ylIndent then false
      else true
  end.

Definition isEmptyValue (v : string) : bool :=
  String_eqb v EmptyString || String_eqb v "[]" || String_eqb v "{}".

(** Folding a handler's answer into the scan state. *)
Definition absorb (st : scanState)
    (h : outcome (list string * nat * bool * bool)) : outcome (scanState * nat) :=
  do (res, passed, m, inj) <- h;
  Ok (mkScan (stack st) res (modified st || m) (actuallyInjected st || inj), passed).

(** The body of the loop once [pathsMatch currentPath ref.Path] holds.  [st]
    already carries the pushed stack; the answer pairs the new state with the
    number of following lines the loop jumps over ([i = j - 1]). *)
Definition onMatch (blocks : list string) (st : scanState) (line : string)
    (yl : YAMLLine) (rest : list string) : outcome (scanState * nat) :=
  if isEmptyValue (Value yl) then
    let isComplexNested := isComplexNestedBlock (Key yl) blocks in
    let handler :=
      if (Contains podConfigKeys (Key yl) || isComplexNested)
         && hasExistingContent rest (Indent yl) then
        if String_eqb (Key yl) "tolerations" then
          Some (mergeTolerations rest (result st) (Indent yl) blocks line)
        else if String_eqb (Key yl) "affinity" || isComplexNestedBlock (Key yl) blocks then
          Some (handleComplexNestedBlock rest (result st) (Indent yl) blocks yl true)
        else None
      else None in
    match handler with
    | Some h => absorb st h
    | None =>
        do pad <- RepeatSpace (Indent yl);
        let indentAdd := if String_eqb (Key yl) "tolerations" then 0 else 2 in
        do injected <- injectBlockLines blocks (indentAdd + Indent yl) (Key yl);
        Ok (mkScan (stack st) ((result st ++ [pad +:+ Key yl +:+ ":"]) ++ injected)
                   true true, O)
    end
  else if negb (isComplexNestedBlock (Key yl) blocks)
          && negb (isListBasedBlock (Key yl) blocks) then
    do injected <- injectBlockLines blocks (Indent yl) (Key yl);
    match injected with
    | [] => Ok (mkScan (stack st) (result st ++ [line])
                       (modified st) (actuallyInjected st), O)
    | _ => Ok (mkScan (stack st) (result st ++ injected) true true, O)
    end
  else
    let res := result st ++ [line] in
    if String_eqb (Key yl) "tolerations" then
      absorb st (mergeTolerations rest res (Indent yl) blocks line)
    else if String_eqb (Key yl) "affinity" || isComplexNestedBlock (Key yl) blocks then
      absorb st (handleComplexNestedBlock rest res (Indent yl) blocks yl false)
    else Ok (mkScan (stack st) res (modified st) (actuallyInjected st), O).

Definition copyLine (st : scanState) (line : string) : scanState :=
  mkScan (stack st) (result st ++ [line]) (modified st) (actuallyInjected st).

(** One iteration of the loop at [line = lines[i]], [rest = lines[i+1:]]. *)
Definition step (refPath : list string) (blocks : list string) (indentOffset : Z)
    (st : scanState) (line : string) (rest : list string) : outcome (scanState * nat) :=
  let yl := ParseLine line in
  if IsEmpty yl || IsComment yl then Ok (copyLine st line, O)
  else if isWrapperLine indentOffset yl then Ok (copyLine st line, O)
  else
    let indent := virtualIndent indentOffset yl in
    let popped := PopToIndent (stack st) indent in
    if HasColon yl then
      let pushed := Push popped indent (Key yl) in
      let st1 := mkScan pushed (result st) (modified st) (actuallyInjected st) in
      if pathsMatch (CurrentPath pushed) refPath then onMatch blocks st1 line yl rest
      else Ok (copyLine st1 line, O)
    else
      Ok (copyLine (mkScan popped (result st) (modified st) (actuallyInjected st)) line, O).

(** The loop [for i := 0; i < len(lines); i++].  A handler that consumed the
    lines up to [j] sets [i = j - 1]; here [skip] counts the lines still to be
    jumped over. *)
Fixpoint scan (refPath : list string) (blocks : list string) (indentOffset : Z)
    (skip : nat) (st : scanState) (lines : list string) : outcome scanState :=
  match lines with
  | [] => Ok st
  | line :: rest =>
      match skip with
      | S k => scan refPath blocks indentOffset k st rest
      | O =>
          do (st1, passed) <- step refPath blocks indentOffset st line rest;
          scan refPath blocks indentOffset passed st1 rest
      end
  end.

(** The tail of the function: a root-level key that was not injected is
    appended at the end. *)
Definition appendRootKey (blocks : list string) (indentOffset : Z) (key : string)
    (res : list string) : outcome (list string) :=
  let res :=
    match last res with
    | Some final => if String_eqb (TrimSpace final) EmptyString then res else res ++ [EmptyString]
    | None => res
    end in
  let keyIndent := indentOffset in
  if isSingleLineScalar blocks key then
    do injected <- injectBlockLines blocks keyIndent key;
    Ok (res ++ injected)
  else
    do pad <- RepeatSpace keyIndent;
    do injected <- injectBlockLines blocks (2 + indentOffset) key;
    Ok ((res ++ [pad +:+ key +:+ ":"]) ++ injected).

(** [injectBlockIntoValuesPath] on the lines of the document. *)
Definition patchLines (lines : list string) (ref : ValueReference)
    (blocks : list string) (indentOffset : Z) : outcome (list string * bool * bool) :=
  do st <- scan (Path ref) blocks indentOffset O initialScan lines;
  match Path ref with
  | [key] =>
      if negb (actuallyInjected st) then
        do res <- appendRootKey blocks indentOffset key (result st);
        Ok (res, true, true)
      else Ok (result st, modified st, actuallyInjected st)
  | _ => Ok (result st, modified st, actuallyInjected st)
  end.

(** [injectBlockIntoValuesPath]: new content, file modified, actually injected. *)
Definition injectBlockIntoValuesPath (content : string) (ref : ValueReference)
    (blocks : list string) (indentOffset : Z) : outcome (string * bool * bool) :=
  do (res, m, inj) <- patchLines (Lines content) ref blocks indentOffset;
  Ok (Unlines res, m, inj).

End Engine.

(** ** A decoder and an encoder for the block dialect

    [gopkg.in/yaml.v2] is not part of the repository.  The functions below
    follow its behaviour on the dialect the engine is written for: block
    mappings, block sequences (indented or not under their key), one-line
    plain or quoted scalars, the empty flow collections, blank lines and
    whole-line comments.  A plain scalar decodes to null, a boolean, a decimal
    integer or else a string.  A plain scalar that contains a colon followed
    by a space is the library's error "mapping values are not allowed in this
    context"; anything else outside the dialect is refused as well.  The
    encoder writes mappings with their keys in ascending order, nested
    mappings two spaces deeper and sequences at the indentation of their key,
    as the library does. *)

Module Yaml.

Definition isSome {A : Type} (o : option A) : bool :=
  match o with
  | Some _ => true
  | None => false
  end.

Definition dquote : ascii := "034"%char.
Definition squote : ascii := "039"%char.

Fixpoint allDigits (s : string) : bool :=
  match s with
  | EmptyString => true
  | String c rest =>
      match Ascii.is_nat c with
      | Some _ => allDigits rest
      | None => false
      end
  end.

Fixpoint digitsValue (acc : Z) (s : string) : Z :=
  match s with
  | EmptyString => acc
  | String c rest =>
      match Ascii.is_nat c with
      | Some d => digitsValue (10 * acc + Z.of_nat d) rest
      | None => acc
      end
  end.

Definition isDecimal (s : string) : bool :=
  match s with
  | EmptyString => false
  | String "0" EmptyString => true
  | String "0" _ => false
  | _ => allDigits s
  end.

Fixpoint lastChar (s : string) : option ascii :=
  match s with
  | EmptyString => None
  | String c EmptyString => Some c
  | String _ rest => lastChar rest
  end.

Definition dropFirst (s : string) : string :=
  match s with
  | EmptyString => EmptyString
  | String _ rest => rest
  end.

Fixpoint dropLast (s : string) : string :=
  match s with
  | EmptyString => EmptyString
  | String _ EmptyString => EmptyString
  | String c rest => String c (dropLast rest)
  end.

(** A colon that ends the text or is followed by a space. *)
Fixpoint cutColon (s : string) : option (string * string) :=
  match s with
  | EmptyString => None
  | String c rest =>
      let deeper :=
        match cutColon rest with
        | Some (a, b) => Some (String c a, b)
        | None => None
        end in
      if Ascii.eqb c ":" then
        match rest with
        | EmptyString => Some (EmptyString, EmptyString)
        | String d _ => if IsSpace d then Some (EmptyString, rest) else deeper
        end
      else deeper
  end.

Definition boolWords : list (string * bool) :=
  [("true", true); ("True", true); ("TRUE", true);
   ("yes", true); ("Yes", true); ("YES", true);
   ("on", true); ("On", true); ("ON", true);
   ("y", true); ("Y", true);
   ("false", false); ("False", false); ("FALSE", false);
   ("no", false); ("No", false); ("NO", false);
   ("off", false); ("Off", false); ("OFF", false);
   ("n", false); ("N", false)].

Definition nullWords : list string := ["~"; "null"; "Null"; "NULL"].

Fixpoint boolWord (table : list (string * bool)) (s : string) : option bool :=
  match table with
  | [] => None
  | (w, b) :: rest => if String_eqb w s then Some b else boolWord rest s
  end.

Definition indicators : list ascii :=
  ["-"; "?"; ":"; "["; "]"; "{"; "}"; "#"; "&"; "*"; "!"; "|"; ">"; "%"; "@"; "`";
   ","; dquote; squote]%char.

Definition startsWithIndicator (s : string) : bool :=
  match s with
  | EmptyString => false
  | String c _ => existsb (Ascii.eqb c) indicators
  end.

(** A plain one-line scalar.  Text that may be a float, a non-decimal
    integer or a timestamp (it starts with a digit, a sign or a dot without
    being a decimal integer) is outside the dialect, as is a trailing
    comment. *)
Definition resolvePlain (s : string) : option ynode :=
  if String_eqb s EmptyString then Some YNull
  else if Contains nullWords s then Some YNull
  else match boolWord boolWords s with
  | Some b => Some (YBool b)
  | None =>
      if isDecimal s then Some (YInt (digitsValue 0 s))
      else match s with
      | String c rest =>
          if Ascii.eqb c "-" && isDecimal rest then Some (YInt (- digitsValue 0 rest))
          else if startsWithIndicator s then None
          else if isSome (cutColon s) then None
          else if ContainsChar s "#" then None
          else if isSome (Ascii.is_nat c) || Ascii.eqb c "." || Ascii.eqb c "+" then None
          else Some (YStr s)
      | EmptyString => Some YNull
      end
  end.

(** A scalar on one line: quoted without escapes, an empty flow collection,
    or plain. *)
Definition resolveScalar (s : string) : option ynode :=
  match s with
  | String q inner =>
      if Ascii.eqb q dquote || Ascii.eqb q squote then
        match lastChar inner with
        | Some q' =>
            let body := dropLast inner in
            if Ascii.eqb q q' && negb (ContainsChar body q)
               && negb (ContainsChar body "\")
            then Some (YStr body) else None
        | None => None
        end
      else if String_eqb s "[]" then Some (YSeq [])
      else if String_eqb s "{}" then Some (YMap [])
      else resolvePlain s
  | EmptyString => Some YNull
  end.

Definition isSeqItem (text : string) : bool :=
  String_eqb text "-" || HasPrefix text "- ".

(** A document line that carries content: its indentation and its text. *)
Definition srcLine : Type := (nat * string)%type.

Fixpoint contentLines (lines : list string) : list srcLine :=
  match lines with
  | [] => []
  | line :: rest =>
      let trimmed := TrimSpace line in
      if String_eqb trimmed EmptyString || HasPrefix trimmed "#" then contentLines rest
      else (GetIndentationNat line, trimmed) :: contentLines rest
  end.

Fixpoint parseBlock (fuel : nat) (lines : list srcLine) : option (ynode * list srcLine) :=
  match fuel with
  | O => None
  | S fuel =>
      match lines with
      | [] => Some (YNull, [])
      | (n, text) :: rest =>
          if isSeqItem text then
            match parseSeq fuel lines n with
            | Some (items, rest') => Some (YSeq items, rest')
            | None => None
            end
          else if isSome (cutColon text) then
            match parseMap fuel lines n with
            | Some (entries, rest') => Some (YMap entries, rest')
            | None => None
            end
          else
            match resolveScalar text, rest with
            | Some v, [] => Some (v, [])
            | Some v, (m, _) :: _ => if (m <? n)%nat then Some (v, rest) else None
            | None, _ => None
            end
      end
  end

with parseSeq (fuel : nat) (lines : list srcLine) (n : nat)
  : option (list ynode * list srcLine) :=
  match fuel with
  | O => None
  | S fuel =>
      match lines with
      | [] => Some ([], [])
      | (m, text) :: rest =>
          if (m <? n)%nat then Some ([], lines)
          else if negb (m =? n)%nat then None
          else if negb (isSeqItem text) then Some ([], lines)
          else
            let body := TrimLeft (dropFirst text) in
            let inner := (n + (String.length text - String.length body))%nat in
            let item :=
              if String_eqb body EmptyString then
                match rest with
                | (k, _) :: _ =>
                    if (n <? k)%nat then parseBlock fuel rest else Some (YNull, rest)
                | [] => Some (YNull, rest)
                end
              else parseBlock fuel ((inner, body) :: rest) in
            match item with
            | Some (v, rest') =>
                match parseSeq fuel rest' n with
                | Some (items, rest'') => Some (v :: items, rest'')
                | None => None
                end
            | None => None
            end
      end
  end

with parseMap (fuel : nat) (lines : list srcLine) (n : nat)
  : option (list (ynode * ynode) * list srcLine) :=
  match fuel with
  | O => None
  | S fuel =>
      match lines with
      | [] => Some ([], [])
      | (m, text) :: rest =>
          if (m <? n)%nat then Some ([], lines)
          else if negb (m =? n)%nat then None
          else if isSeqItem text then None
          else
            match cutColon text with
            | None => None
            | Some (keyText, valueText) =>
                let value := TrimSpace valueText in
                let entry :=
                  if String_eqb value EmptyString then
                    match rest with
                    | (k, next) :: _ =>
                        if (n <? k)%nat then parseBlock fuel rest
                        else if (k =? n)%nat && isSeqItem next then
                          match parseSeq fuel rest n with
                          | Some (items, rest') => Some (YSeq items, rest')
                          | None => None
                          end
                        else Some (YNull, rest)
                    | [] => Some (YNull, rest)
                    end
                  else
                    match resolveScalar value, rest with
                    | Some v, [] => Some (v, rest)
                    | Some v, (k, _) :: _ => if (n <? k)%nat then None else Some (v, rest)
                    | None, _ => None
                    end in
                match resolveScalar (TrimSpace keyText), entry with
                | Some key, Some (v, rest') =>
                    match parseMap fuel rest' n with
                    | Some (entries, rest'') => Some ((key, v) :: entries, rest'')
                    | None => None
                    end
                | _, _ => None
                end
            end
      end
  end.

(** The key of a top-level entry as a Go [string]. *)
Definition keyString (entry : ynode * ynode) : string * ynode :=
  (Sprint entry.1, entry.2).

(** [yaml.Unmarshal] into a [map[string]interface{}]. *)
Definition Unmarshal (text : string) : option ymap :=
  let lines := Lines text in
  if existsb (fun line => ContainsChar line "009"%char) lines then None
  else
    let content := contentLines lines in
    match content with
    | [] => Some []
    | _ =>
        match parseBlock (4 * length content + 4) content with
        | Some (YMap entries, []) => Some (map keyString entries)
        | Some (YNull, []) => Some []
        | _ => None
        end
    end.

(** *** Encoding *)

(** A string is written plain when reading it back plain gives the same
    string, and double-quoted otherwise. *)
Definition scalarText (v : ynode) : string :=
  match v with
  | YNull => "null"
  | YBool b => if b then "true" else "false"
  | YInt z => pretty z
  | YStr s =>
      match resolvePlain s with
      | Some (YStr _) =>
          if String_eqb (TrimSpace s) s then s
          else String dquote (s +:+ String dquote EmptyString)
      | _ => String dquote (s +:+ String dquote EmptyString)
      end
  | YSeq _ => "[]"
  | YMap _ => "{}"
  end.

Fixpoint insertSorted (e : string * list string) (sorted : list (string * list string))
  : list (string * list string) :=
  match sorted with
  | [] => [e]
  | f :: rest =>
      if String.leb e.1 f.1 then e :: sorted else f :: insertSorted e rest
  end.

(** The written entries of a mapping in ascending order of their keys. *)
Definition sortEntries (written : list (string * list string)) : list string :=
  concat (map snd (foldr insertSorted [] written)).

(** The first line of an item carries the dash in place of two spaces of
    its indentation. *)
Definition dashFirst (ind : nat) (lines : list string) : list string :=
  match lines with
  | [] => [spaces ind +:+ "-"]
  | first :: rest =>
      (spaces ind +:+ "- " +:+ TrimLeft first) :: rest
  end.

Fixpoint emitNode (v : ynode) (ind : nat) : list string :=
  match v with
  | YSeq items =>
      flat_map (fun item =>
        match item with
        | YSeq (_ :: _) | YMap (_ :: _) => dashFirst ind (emitNode item (ind + 2))
        | _ => [spaces ind +:+ "- " +:+ scalarText item]
        end) items
  | YMap entries =>
      sortEntries (map (fun kv =>
        (Sprint kv.1,
         match kv.2 with
         | YSeq (_ :: _) =>
             (spaces ind +:+ scalarText kv.1 +:+ ":") :: emitNode kv.2 ind
         | YMap (_ :: _) =>
             (spaces ind +:+ scalarText kv.1 +:+ ":") :: emitNode kv.2 (ind + 2)
         | _ => [spaces ind +:+ scalarText kv.1 +:+ ": " +:+ scalarText kv.2]
         end)) entries)
  | _ => [spaces ind +:+ scalarText v]
  end.

(** [yaml.Marshal] of a [map[string]interface{}]: every line ends in a line
    feed. *)
Definition Marshal (m : ymap) : string :=
  match m with
  | [] => "{}" +:+ newline
  | _ => Unlines (emitNode (YMap (map (fun kv => (YStr kv.1, kv.2)) m)) 0) +:+ newline
  end.

End Yaml.

(** ** Wrapper detection ([values_parser.go]) *)

(** [strings.TrimSpace(strings.Split(trimmed, ":")[0])]. *)
Definition firstField (trimmed : string) : string :=
  TrimSpace (hd EmptyString (Split trimmed ":")).

Fixpoint detectWrapperLines (lines : list string) : Z :=
  match lines with
  | [] => 0
  | line :: rest =>
      let trimmed := TrimSpace line in
      if String_eqb trimmed EmptyString || HasPrefix trimmed "#" then
        detectWrapperLines rest
      else if ContainsChar trimmed ":" then
        if (getIndentation line =? 0) && Contains KnownWrapperKeys (firstField trimmed)
        then 2 else 0
      else detectWrapperLines rest
  end.

Definition detectWrapperPattern (content : string) : Z :=
  detectWrapperLines (Lines content).

(** The reading of the specification: the offset is the indentation of the
    first content line below the marker line. *)
Definition isContentLine (line : string) : bool := negb (IsEmptyOrComment line).

Definition isMarkerLine (line : string) : bool :=
  isContentLine line && ContainsChar (TrimSpace line) ":"
  && (getIndentation line =? 0)
  && Contains KnownWrapperKeys (firstField (TrimSpace line)).

Fixpoint fromFirstContent (lines : list string) : list string :=
  match lines with
  | [] => []
  | line :: rest => if isContentLine line then lines else fromFirstContent rest
  end.

Definition childIndentWidth (lines : list string) : option Z :=
  match fromFirstContent lines with
  | marker :: below =>
      if isMarkerLine marker then getIndentation <$> head (fromFirstContent below)
      else None
  | [] => None
  end.

(** The first line that is neither blank nor a comment and holds a colon. *)
Definition isKeyLine (line : string) : bool :=
  isContentLine line && ContainsChar (TrimSpace line) ":".

Definition firstKeyLine (lines : list string) : option string :=
  List.find isKeyLine lines.

(** ** The values backup ([process_chart.go]) *)

Module Backup.

(** The file system as far as the function sees it: the regular files by
    path, and the paths a write is refused on.  [os.Stat] and [os.ReadFile]
    succeed exactly on the files present. *)
Record fileSystem : Type := mkFS {
  files : gmap string string;
  readOnly : string -> bool
}.

Inductive error : Type :=
| ValuesMissing
| ReadFailed
| WriteFailed.

(** [filepath.Join] of a clean directory path and a file name. *)
Definition joinPath (dir name : string) : string := dir +:+ "/" +:+ name.

Definition valuesPath (chartPath : string) : string := joinPath chartPath "values.yaml".
Definition backupPath (chartPath : string) : string := valuesPath chartPath +:+ ".backup".

Definition WriteFile (fs : fileSystem) (path data : string) : option error * fileSystem :=
  if readOnly fs path then (Some WriteFailed, fs)
  else (None, mkFS (<[path := data]> (files fs)) (readOnly fs)).

(** [backupValuesFile]: the returned error ([None] is [nil]) and the file
    system it leaves. *)
Definition backupValuesFile (fs : fileSystem) (chartPath : string)
  : option error * fileSystem :=
  match files fs !! valuesPath chartPath with
  | None => (Some ValuesMissing, fs)
  | Some input =>
      match files fs !! backupPath chartPath with
      | Some _ => (None, fs)
      | None => WriteFile fs (backupPath chartPath) input
      end
  end.

(** [restoreValuesFile]. *)
Definition restoreValuesFile (fs : fileSystem) (chartPath : string)
  : option error * fileSystem :=
  match files fs !! backupPath chartPath with
  | None => (Some ReadFailed, fs)
  | Some input => WriteFile fs (valuesPath chartPath) input
  end.

(** What a run does to the chart's files: it backs up, it rewrites
    [values.yaml] (registry update, injections), it restores. *)
Inductive action : Type :=
| CallBackup
| WriteValues (content : string)
| CallRestore.

Definition perform (chartPath : string) (fs : fileSystem) (a : action) : fileSystem :=
  match a with
  | CallBackup => (backupValuesFile fs chartPath).2
  | WriteValues content => (WriteFile fs (valuesPath chartPath) content).2
  | CallRestore => (restoreValuesFile fs chartPath).2
  end.

Definition performAll (chartPath : string) (fs : fileSystem) (run : list action)
  : fileSystem :=
  foldl (perform chartPath) fs run.

End Backup.

(** ** The existence prober ([update-registry.go])

    Each reference is checked by a goroutine of its own.  What a goroutine
    does depends on whether it gets a pool slot before the deadline and on
    what the registry library answers; the goroutines store their results
    under a lock, one after another, in the order they finish. *)

Module Prober.

(** The answers of the registry library for a reference. *)
Record registry : Type := mkRegistry {
  parses : string -> bool;
  headSucceeds : string -> bool;
  getSucceeds : string -> bool
}.

(** A request sent to the remote store. *)
Inductive request : Type :=
| Head (ref : string)
| Get (ref : string).

Inductive slot : Type :=
| Acquired
| DeadlineFirst.

(** The body of one goroutine: the value it stores for [img] and the
    requests it sent. *)
Definition probe (reg : registry) (s : slot) (img : string) : bool * list request :=
  match s with
  | DeadlineFirst => (false, [])
  | Acquired =>
      if negb (parses reg img) then (false, [])
      else if headSucceeds reg img then (true, [Head img])
      else if getSucceeds reg img then (true, [Head img; Get img])
      else if String_eqb img "auto" then (true, [Head img; Get img])
      else (false, [Head img; Get img])
  end.

(** [CheckImagesExist]: [finished] lists the goroutines in the order they
    store their result, each with the way its wait for a slot ended. *)
Definition CheckImagesExist (reg : registry) (finished : list (string * slot))
  : gmap string bool * list request :=
  foldl (fun acc u =>
           let '(value, sent) := probe reg u.2 u.1 in
           (<[u.1 := value]> acc.1, acc.2 ++ sent))
        (∅, []) finished.

End Prober.

(** ** Root-level deep merge ([custom_values_mod.go]) *)

Section RootMerge.

Variable yaml_unmarshal : string -> option ymap.
Variable yaml_marshal : ymap -> string.

(** Equality of two map keys held in an [interface{}]; only scalars are
    comparable keys. *)
Definition keyEqb (a b : ynode) : bool :=
  match a, b with
  | YNull, YNull => true
  | YBool x, YBool y => Bool.eqb x y
  | YInt x, YInt y => x =? y
  | YStr x, YStr y => String_eqb x y
  | _, _ => false
  end.

Fixpoint entryIndex (m : list (ynode * ynode)) (k : ynode) : option ynode :=
  match m with
  | [] => None
  | (k', v) :: rest => if keyEqb k' k then Some v else entryIndex rest k
  end.

(** [result[k] = v]. *)
Fixpoint entryStore (m : list (ynode * ynode)) (k v : ynode) : list (ynode * ynode) :=
  match m with
  | [] => [(k, v)]
  | (k', v') :: rest =>
      if keyEqb k' k then (k', v) :: rest else (k', v') :: entryStore rest k v
  end.

(** [deepMergeYAML existingMap newMap], by recursion on the new value. *)
Fixpoint mergeValue (srcValue : ynode) (destValue : option ynode) : ynode :=
  match srcValue, destValue with
  | YMap srcMap, Some (YMap destMap) =>
      YMap (foldl (fun acc kv => entryStore acc kv.1 (mergeValue kv.2 (entryIndex destMap kv.1)))
                  destMap srcMap)
  | _, _ => srcValue
  end.

Definition deepMergeYAML (existingMap newMap : list (ynode * ynode))
  : list (ynode * ynode) :=
  foldl (fun acc kv => entryStore acc kv.1 (mergeValue kv.2 (entryIndex existingMap kv.1)))
        existingMap newMap.

(** [toInterfaceMap]. *)
Definition toInterfaceMap (v : ynode) : option (list (ynode * ynode)) :=
  match v with
  | YMap entries => Some entries
  | _ => None
  end.

Record rootSearch : Type := mkRootSearch {
  rsStack : PathStack;
  keyFound : bool;
  valuePreview : string;
  keyStartLine : nat;
  keyEndLine : nat;
  keyVirtualIndent : Z
}.

(** The loop that trims trailing blank lines and comments from the range. *)
Fixpoint trimRangeEnd (lines : list string) (start : nat) (e : nat) : nat :=
  match e with
  | O => O
  | S e' =>
      if (start <? e)%nat && IsEmptyOrComment (lines !!! e)
      then trimRangeEnd lines start e' else e
  end.

Fixpoint rootKeyScan (all : list string) (targetKey : string) (indentOffset : Z)
    (i : nat) (rest : list string) (st : rootSearch) : rootSearch :=
  match rest with
  | [] => st
  | line :: more =>
      let yl := ParseLine line in
      if IsEmpty yl || IsComment yl then
        rootKeyScan all targetKey indentOffset (S i) more
          (if keyFound st
           then mkRootSearch (rsStack st) true (valuePreview st) (keyStartLine st) i
                             (keyVirtualIndent st)
           else st)
      else if isWrapperLine indentOffset yl then
        rootKeyScan all targetKey indentOffset (S i) more st
      else
        let indent := virtualIndent indentOffset yl in
        if keyFound st && (indent <=? keyVirtualIndent st) then
          mkRootSearch (rsStack st) true (valuePreview st) (keyStartLine st)
                       (trimRangeEnd all (keyStartLine st) (Nat.pred i))
                       (keyVirtualIndent st)
        else
          let popped := PopToIndent (rsStack st) indent in
          let st1 :=
            if HasColon yl then
              let pushed := Push popped indent (Key yl) in
              match CurrentPath pushed with
              | [only] =>
                  if String_eqb only targetKey
                  then mkRootSearch pushed true (Value yl) i i indent
                  else mkRootSearch pushed (keyFound st) (valuePreview st) (keyStartLine st)
                                    (if keyFound st then i else keyEndLine st)
                                    (keyVirtualIndent st)
              | _ => mkRootSearch pushed (keyFound st) (valuePreview st) (keyStartLine st)
                                  (if keyFound st then i else keyEndLine st)
                                  (keyVirtualIndent st)
              end
            else mkRootSearch popped (keyFound st) (valuePreview st) (keyStartLine st)
                              (if keyFound st then i else keyEndLine st)
                              (keyVirtualIndent st) in
          rootKeyScan all targetKey indentOffset (S i) more st1
  end.

(** [findAndRemoveRootKey]: key exists, value preview, start line, end line. *)
Definition findAndRemoveRootKey (lines : list string) (targetKey : string)
    (indentOffset : Z) : bool * string * nat * nat :=
  let st := rootKeyScan lines targetKey indentOffset O lines
              (mkRootSearch NewPathStack false EmptyString O O (-1)) in
  (keyFound st, valuePreview st, keyStartLine st, keyEndLine st).

Record wrapperSearch : Type := mkWrapperSearch {
  lastContentLine : option nat;
  foundWrapper : bool;
  wrapperLine : nat
}.

Fixpoint wrapperScan (indentOffset : Z) (i : nat) (rest : list string)
    (st : wrapperSearch) : wrapperSearch :=
  match rest with
  | [] => st
  | line :: more =>
      let yl := ParseLine line in
      if IsEmpty yl || IsComment yl then wrapperScan indentOffset (S i) more st
      else if (Indent yl =? 0) && HasColon yl && Contains KnownWrapperKeys (Key yl) then
        wrapperScan indentOffset (S i) more (mkWrapperSearch (lastContentLine st) true i)
      else if foundWrapper st && (Indent yl =? 0) then st
      else if foundWrapper st && (indentOffset <=? Indent yl) then
        wrapperScan indentOffset (S i) more
          (mkWrapperSearch (Some i) (foundWrapper st) (wrapperLine st))
      else wrapperScan indentOffset (S i) more st
  end.

(** [findWrapperEndPosition]. *)
Definition findWrapperEndPosition (lines : list string) (indentOffset : Z) : nat :=
  let st := wrapperScan indentOffset O lines (mkWrapperSearch None false O) in
  match lastContentLine st with
  | Some last => S last
  | None => if foundWrapper st then wrapperLine st else length lines
  end.

(** The lines of [finalBlock] re-indented under the wrapper offset. *)
Fixpoint rootBlockLines (blockLines : list string) (indentOffset baseIndent : Z)
  : outcome (list string) :=
  match blockLines with
  | [] => Ok []
  | blockLine :: more =>
      let trimmedLine := TrimSpace blockLine in
      if String_eqb trimmedLine EmptyString then rootBlockLines more indentOffset baseIndent
      else
        let relativeIndent := getIndentation blockLine - baseIndent in
        do pad <- RepeatSpace (indentOffset + relativeIndent);
        do tail <- rootBlockLines more indentOffset baseIndent;
        Ok ((pad +:+ trimmedLine) :: tail)
  end.

(** The body of the inner loop for one key of one block. *)
Definition injectRootKey (lines : list string) (block key : string) (newValue : ynode)
    (indentOffset : Z) : outcome (list string) :=
  let '(keyExists, _, startLine, endLine) :=
    findAndRemoveRootKey lines key indentOffset in
  do (finalBlock, lines, insertPos) <-
    (if keyExists then
       let existingContent :=
         Join (take (S endLine - startLine) (drop startLine lines)) newline in
       match yaml_unmarshal existingContent with
       | None => Fatal
       | Some existingData =>
           let finalBlock :=
             match mapIndex existingData key with
             | Some existingVal =>
                 match toInterfaceMap existingVal, toInterfaceMap newValue with
                 | Some existingMap, Some newMap =>
                     yaml_marshal [(key, YMap (deepMergeYAML existingMap newMap))]
                 | _, _ => block
                 end
             | None => block
             end in
           Ok (finalBlock, take startLine lines ++ drop (S endLine) lines, startLine)
       end
     else
       let insertPos :=
         if 0 <? indentOffset then findWrapperEndPosition lines indentOffset
         else length lines in
       match insertPos with
       | S before =>
           if (insertPos <=? length lines)%nat
              && negb (String_eqb (TrimSpace (lines !!! before)) EmptyString)
           then Ok (block, take insertPos lines ++ EmptyString :: drop insertPos lines,
                    S insertPos)
           else Ok (block, lines, insertPos)
       | O => Ok (block, lines, insertPos)
       end);
  let blockLines := Lines (TrimSpace finalBlock) in
  let baseIndent := getIndentation (hd EmptyString blockLines) in
  do newLines <- rootBlockLines blockLines indentOffset baseIndent;
  Ok (take insertPos lines ++ newLines ++ drop insertPos lines).

(** The loop over the keys of a block, then over the blocks. *)
Fixpoint injectRootKeys (lines : list string) (block : string) (blockData : ymap)
    (indentOffset : Z) : outcome (list string) :=
  match blockData with
  | [] => Ok lines
  | (key, newValue) :: more =>
      do lines <- injectRootKey lines block key newValue indentOffset;
      injectRootKeys lines block more indentOffset
  end.

Fixpoint injectRootBlocks (lines : list string) (newValuesBlocks : list string)
    (indentOffset : Z) (modified : bool) : outcome (list string * bool) :=
  match newValuesBlocks with
  | [] => Ok (lines, modified)
  | block :: more =>
      match yaml_unmarshal block with
      | None => injectRootBlocks lines more indentOffset modified
      | Some blockData =>
          do lines <- injectRootKeys lines block blockData indentOffset;
          injectRootBlocks lines more indentOffset
            (match blockData with [] => modified | _ => true end)
      end
  end.

(** [injectNewValuesIntoRoot]: new content and whether the file changed. *)
Definition injectNewValuesIntoRoot (content : string) (newValuesBlocks : list string)
    (indentOffset : Z) : outcome (string * bool) :=
  do (lines, modified) <- injectRootBlocks (Lines content) newValuesBlocks indentOffset false;
  Ok (Unlines lines, modified).

End RootMerge.

(** ** The in-place pod-spec injector ([custom_scheme_mods.go]) *)

(** [InjectorBlocks]: a [map[string][]string]; a missing category reads as
    the nil slice. *)
Definition category (blocks : gmap string (list string)) (name : string) : list string :=
  default [] (blocks !! name).

Definition isBlankOrComment (line : string) : bool :=
  let trimmed := TrimSpace line in
  String_eqb trimmed EmptyString || HasPrefix trimmed "#".

(** The backward walk of [isUnderTemplateSection]: [before] holds the lines
    above the candidate, nearest first. *)
Fixpoint parentIsTemplate (before : list string) (lineIndent : Z) : bool :=
  match before with
  | [] => false
  | line :: above =>
      if isBlankOrComment line then parentIsTemplate above lineIndent
      else if getIndentation line <? lineIndent
      then HasPrefix (TrimSpace line) "template:"
      else parentIsTemplate above lineIndent
  end.

(** [isUnderTemplateSection lines index]; an index past the end panics in Go
    and is never passed. *)
Definition isUnderTemplateSection (lines : list string) (index : nat) : bool :=
  match lines !! index with
  | Some line => parentIsTemplate (rev (take index lines)) (getIndentation line)
  | None => false
  end.

(** The test at the head of the loop of [injectInlinePodSpec]. *)
Definition isPodSpec (resourceKind : string) (lines : list string) (i : nat) : bool :=
  match lines !! i with
  | Some line =>
      let trimmed := TrimSpace line in
      if String_eqb resourceKind "Pod"
      then HasPrefix trimmed "spec:" && negb (isUnderTemplateSection lines i)
      else HasPrefix trimmed "spec:" && isUnderTemplateSection lines i
  | None => false
  end.

(** [podSpecHasKey], on the lines below the [spec:] line. *)
Fixpoint podSpecHasKey (rest : list string) (specIndent : Z) (key : string)
    (inHelmConditional : bool) : bool :=
  match rest with
  | [] => false
  | line :: more =>
      let trimmed := TrimSpace line in
      let indent := getIndentation line in
      if isBlankOrComment line then podSpecHasKey more specIndent key inHelmConditional
      else if HasPrefix trimmed "{{-" && ContainsStr trimmed "with" then
        podSpecHasKey more specIndent key true
      else if HasPrefix trimmed "{{-" && ContainsStr trimmed "end" then
        podSpecHasKey more specIndent key false
      else if indent <=? specIndent then false
      else if (indent =? specIndent + 2) && HasPrefix trimmed (key +:+ ":") then
        negb inHelmConditional
      else podSpecHasKey more specIndent key inHelmConditional
  end.

(** The three fields [podSpecHasTolerationBlock] looks for; a field that is
    absent or not a string reads as the empty string. *)
Definition stringField (m : ymap) (field : string) : string :=
  match mapIndex m field with
  | Some (YStr s) => s
  | _ => EmptyString
  end.

Record found : Type := mkFound { foundKey : bool; foundOperator : bool; foundEffect : bool }.

Definition wanted (tolKey tolOperator tolEffect : string) (f : found) : bool :=
  (String_eqb tolKey EmptyString || foundKey f)
  && (String_eqb tolOperator EmptyString || foundOperator f)
  && (String_eqb tolEffect EmptyString || foundEffect f).

(** The inner loop over the lines below an existing [tolerations:] line;
    [first] is true on the line right below it ([j = i + 1]). *)
Fixpoint tolerationListed (below : list string) (specIndent : Z)
    (tolKey tolOperator tolEffect : string) (first : bool) (f : found) : bool :=
  match below with
  | [] => wanted tolKey tolOperator tolEffect f
  | nextLine :: more =>
      let nextTrimmed := TrimSpace nextLine in
      let nextIndent := getIndentation nextLine in
      if isBlankOrComment nextLine then
        tolerationListed more specIndent tolKey tolOperator tolEffect false f
      else if nextIndent <? specIndent + 2 then wanted tolKey tolOperator tolEffect f
      else
        let f1 := mkFound
          (foundKey f || (negb (String_eqb tolKey EmptyString)
                          && String_eqb nextTrimmed ("key: " +:+ tolKey)))
          (foundOperator f || (negb (String_eqb tolOperator EmptyString)
                               && String_eqb nextTrimmed ("operator: " +:+ tolOperator)))
          (foundEffect f || (negb (String_eqb tolEffect EmptyString)
                             && String_eqb nextTrimmed ("effect: " +:+ tolEffect))) in
        if HasPrefix nextTrimmed "- " && negb first then
          if wanted tolKey tolOperator tolEffect f1 then true
          else tolerationListed more specIndent tolKey tolOperator tolEffect false
                                (mkFound false false false)
        else tolerationListed more specIndent tolKey tolOperator tolEffect false f1
  end.

(** [podSpecHasTolerationBlock], on the lines below the [spec:] line. *)
Fixpoint tolerationPresent (rest : list string) (specIndent : Z)
    (tolKey tolOperator tolEffect : string) : bool :=
  match rest with
  | [] => false
  | line :: more =>
      let trimmed := TrimSpace line in
      let indent := getIndentation line in
      if isBlankOrComment line then
        tolerationPresent more specIndent tolKey tolOperator tolEffect
      else if indent <=? specIndent then false
      else if (indent =? specIndent + 2) && HasPrefix trimmed "tolerations:" then
        tolerationListed more specIndent tolKey tolOperator tolEffect true
                         (mkFound false false false)
      else tolerationPresent more specIndent tolKey tolOperator tolEffect
  end.

(** [findPodBlockInjectionPoint]: how many lines of [rest] stay above the
    injection point. *)
Fixpoint findPodBlockInjectionPoint (rest : list string) (specIndent : Z) : nat :=
  match rest with
  | [] => O
  | line :: more =>
      let trimmed := TrimSpace line in
      if isBlankOrComment line then S (findPodBlockInjectionPoint more specIndent)
      else
        let indent := getIndentation line in
        if indent <=? specIndent then O
        else if (indent =? specIndent + 2)
                && (HasPrefix trimmed "containers:" || HasPrefix trimmed "initContainers:"
                    || HasPrefix trimmed "volumes:")
        then O
        else S (findPodBlockInjectionPoint more specIndent)
  end.

(** [findExistingPodKey]: the position of the key below the [spec:] line,
    [None] for [-1]. *)
Fixpoint findExistingPodKey (rest : list string) (specIndent : Z) (key : string)
  : option nat :=
  match rest with
  | [] => None
  | line :: more =>
      let trimmed := TrimSpace line in
      let indent := getIndentation line in
      if isBlankOrComment line then S <$> findExistingPodKey more specIndent key
      else if indent <=? specIndent then None
      else if (indent =? specIndent + 2) && HasPrefix trimmed (key +:+ ":") then Some O
      else S <$> findExistingPodKey more specIndent key
  end.

(** [findTolerationsEndPoint]: how many lines below the [tolerations:] line
    stay above the point where items are appended. *)
Fixpoint findTolerationsEndPoint (below : list string) (specIndent : Z) : nat :=
  match below with
  | [] => O
  | line :: more =>
      let trimmed := TrimSpace line in
      let indent := getIndentation line in
      if isBlankOrComment line then S (findTolerationsEndPoint more specIndent)
      else if HasPrefix trimmed "{{-" && ContainsStr trimmed "end" then O
      else if indent <=? specIndent + 2 then O
      else S (findTolerationsEndPoint more specIndent)
  end.

(** The lines copied when every block is already there. *)
Fixpoint copySubtree (rest : list string) (indent : Z) : list string :=
  match rest with
  | [] => []
  | nextLine :: more =>
      if (getIndentation nextLine <=? indent) && negb (isBlankOrComment nextLine)
      then [] else nextLine :: copySubtree more indent
  end.

Section PodInjector.

Variable yaml_unmarshal : string -> option ymap.

(** The key a [for key := range blockData { ...; break }] loop picks: the
    first one here, any one in Go when the block has several. *)
Definition topKey (blockData : ymap) : string :=
  match blockData with
  | [] => EmptyString
  | (key, _) :: _ => key
  end.

Definition firstToleration (blockData : ymap) : ymap :=
  match mapIndex blockData "tolerations" with
  | Some (YSeq (YMap toleration :: _)) => stringKeys toleration
  | _ => []
  end.

(** [podSpecHasBlock]. *)
Definition podSpecHasBlock (rest : list string) (specIndent : Z) (block : string) : bool :=
  match yaml_unmarshal block with
  | None => false
  | Some blockData =>
      let key := topKey blockData in
      if String_eqb key EmptyString then false
      else if String_eqb key "tolerations" then
        let toleration := firstToleration blockData in
        tolerationPresent rest specIndent (stringField toleration "key")
          (stringField toleration "operator") (stringField toleration "effect")
      else podSpecHasKey rest specIndent key false
  end.

(** [findMissingPodBlocks]. *)
Definition findMissingPodBlocks (rest : list string) (specIndent : Z)
    (blockStrings : list string) : list string :=
  List.filter (fun block => negb (podSpecHasBlock rest specIndent block)) blockStrings.

Definition hasTopLevelKey (key : string) (block : string) : option bool :=
  match yaml_unmarshal block with
  | None => None
  | Some blockData =>
      Some (match mapIndex blockData key with Some _ => true | None => false end)
  end.

(** [getPodBlocksByKey]. *)
Definition getPodBlocksByKey (blocks : list string) (key : string) : list string :=
  List.filter (fun block => bool_decide (hasTopLevelKey key block = Some true)) blocks.

(** [removePodBlocksByKey]. *)
Definition removePodBlocksByKey (blocks : list string) (key : string) : list string :=
  List.filter (fun block => bool_decide (hasTopLevelKey key block = Some false)) blocks.

(** The block lines below the key line, each behind [prefix]. *)
Definition bodyBehind (prefix : string) (block : string) : list string :=
  map (fun line => prefix +:+ line) (tail (Lines (TrimSpace block))).

Definition wholeBehind (prefix : string) (block : string) : list string :=
  map (fun line => prefix +:+ line) (Lines (TrimSpace block)).

(** The blocks of [grouped] under each key other than [tolerations], keys in
    the order they first occur (Go ranges over the map in no fixed order). *)
Fixpoint groupOthers (missingBlocks : list string) (seen : list string)
  : list string :=
  match missingBlocks with
  | [] => []
  | block :: more =>
      match yaml_unmarshal block with
      | Some ((key, _) :: _) =>
          if String_eqb key "tolerations" || Contains seen key then groupOthers more seen
          else
            block :: List.filter (fun other =>
                        match yaml_unmarshal other with
                        | Some ((key', _) :: _) => String_eqb key' key
                        | _ => false
                        end) more
            ++ groupOthers more (key :: seen)
      | _ => groupOthers more seen
      end
  end.

(** [injectMissingPodBlocks]. *)
Definition injectMissingPodBlocks (missingBlocks : list string) (indent : Z) : list string :=
  let pad := spaces (Z.to_nat indent) in
  let tolerationBlocks :=
    List.filter (fun block =>
                   match yaml_unmarshal block with
                   | Some ((key, _) :: _) => String_eqb key "tolerations"
                   | _ => false
                   end) missingBlocks in
  (match tolerationBlocks with
   | [] => []
   | _ => (pad +:+ "tolerations:") :: flat_map (bodyBehind pad) tolerationBlocks
   end)
  ++ flat_map (wholeBehind pad) (groupOthers missingBlocks []).

(** The items appended under an existing [tolerations:] key. *)
Definition appendedItems (tolerationBlocks : list string) (indent : Z) : list string :=
  let listIndent := spaces (Z.to_nat (indent + 2)) in
  flat_map (fun block =>
    map (fun line =>
           if HasPrefix (TrimSpace line) "- " then listIndent +:+ TrimSpace line
           else listIndent +:+ "  " +:+ TrimSpace line)
        (tail (Lines (TrimSpace block)))) tolerationBlocks.

(** The branch of the loop taken at a pod [spec:] line: the lines it adds to
    the result after the [spec:] line, and how many lines of [rest] it has
    dealt with (the loop resumes behind them). *)
Definition onPodSpec (blocks : gmap string (list string)) (criticalDs controlPlane : bool)
    (line : string) (rest : list string) : list string * nat :=
  let indent := getIndentation line in
  let podBlocks :=
    category blocks "allPods"
    ++ (if criticalDs then category blocks "criticalDsPods" else [])
    ++ (if controlPlane then category blocks "controlPlanePods" else []) in
  let missingBlocks := findMissingPodBlocks rest indent podBlocks in
  match missingBlocks with
  | [] =>
      let copied := copySubtree rest indent in
      (copied, length copied)
  | _ =>
      let tolerationBlocks := getPodBlocksByKey missingBlocks "tolerations" in
      match tolerationBlocks, findExistingPodKey rest indent "tolerations" with
      | _ :: _, Some existing =>
          let insertionPoint :=
            (S existing + findTolerationsEndPoint (drop (S existing) rest) indent)%nat in
          let head := take insertionPoint rest ++ appendedItems tolerationBlocks indent in
          let others := removePodBlocksByKey missingBlocks "tolerations" in
          match others with
          | [] => (head, insertionPoint)
          | _ =>
              let further := findPodBlockInjectionPoint (drop insertionPoint rest) indent in
              (head ++ take further (drop insertionPoint rest)
                    ++ injectMissingPodBlocks others (indent + 2),
               (insertionPoint + further)%nat)
          end
      | _, _ =>
          let injectionPoint := findPodBlockInjectionPoint rest indent in
          (take injectionPoint rest ++ injectMissingPodBlocks missingBlocks (indent + 2),
           injectionPoint)
      end
  end.

(** The loop of [injectInlinePodSpec] from line [i] on; [skip] counts the
    lines a pod-spec branch has already dealt with. *)
Fixpoint podScan (blocks : gmap string (list string)) (resourceKind : string)
    (criticalDs controlPlane : bool) (lines : list string)
    (i : nat) (skip : nat) (rest : list string) : list string :=
  match rest with
  | [] => []
  | line :: more =>
      match skip with
      | S k => podScan blocks resourceKind criticalDs controlPlane lines (S i) k more
      | O =>
          if isPodSpec resourceKind lines i then
            let '(added, dealt) := onPodSpec blocks criticalDs controlPlane line more in
            line :: added
            ++ podScan blocks resourceKind criticalDs controlPlane lines (S i) dealt more
          else
            line :: podScan blocks resourceKind criticalDs controlPlane lines (S i) O more
      end
  end.

(** [injectInlinePodSpec]; its error result is always [nil]. *)
Definition injectInlinePodSpec (content : string) (blocks : gmap string (list string))
    (resourceKind : string) (criticalDs controlPlane : bool) : string :=
  let lines := Lines content in
  Unlines (podScan blocks resourceKind criticalDs controlPlane lines O O lines).

End PodInjector.

(** * Vocabulary of the properties *)



(** The line is a key line whose path, in the scan state [ps], is the target
    path. *)
Definition atTarget (refPath : list string) (indentOffset : Z) (ps : PathStack)
    (line : string) : bool :=
  let yl := ParseLine line in
  negb (IsEmpty yl || IsComment yl)
  && negb (isWrapperLine indentOffset yl)
  && HasColon yl
  && pathsMatch
       (CurrentPath (Push (PopToIndent ps (virtualIndent indentOffset yl))
                          (virtualIndent indentOffset yl) (Key yl)))
       refPath.

(** No line of the body of a candidate is indented less than its first
    content line; true of every block that [yaml.Marshal] writes, which is how
    [loadInjectorBlocks] produces the candidates. *)
Definition wellIndentedBlock (block : string) : Prop :=
  match Lines (TrimSpace block) with
  | _ :: first :: more =>
      Forall (fun line => GetIndentation first <= GetIndentation line) more
  | _ => True
  end.



(** The path stack once the scan has handled [line]: a blank line, a comment
    and the wrapper line leave it as it is, every other line pops the levels
    at its (wrapper-adjusted) indentation or deeper, and a key line then
    pushes its key. *)
Definition passLine (indentOffset : Z) (ps : PathStack) (line : string) : PathStack :=
  let yl := ParseLine line in
  if IsEmpty yl || IsComment yl then ps
  else if isWrapperLine indentOffset yl then ps
  else
    let indent := virtualIndent indentOffset yl in
    let popped := PopToIndent ps indent in
    if HasColon yl then Push popped indent (Key yl) else popped.


(** A line below [keyLine] that a handler may pass: blank, a comment, or
    indented deeper than the key. *)
Definition belowKey (keyLine line : string) : Prop :=
  IsEmptyOrComment line = true \/ getIndentation keyLine < getIndentation line.

(** [edits refPath indentOffset ps input output], with [ps] the path stack
    in front of [input]: the output is the input, line for line and in order,
    except that a key line whose path is the target path may be replaced,
    together with lines below it, by new text, and that text may be added at
    the end. *)
Inductive edits (refPath : list string) (indentOffset : Z)
  : PathStack -> list string -> list string -> Prop :=
| edits_end (ps : PathStack) (appended : list string) :
    edits refPath indentOffset ps [] appended
| edits_copy (ps : PathStack) (line : string) (rest out : list string) :
    edits refPath indentOffset (passLine indentOffset ps line) rest out ->
    edits refPath indentOffset ps (line :: rest) (line :: out)
| edits_region (ps : PathStack) (keyLine : string) (body rest new out : list string) :
    atTarget refPath indentOffset ps keyLine = true ->
    Forall (belowKey keyLine) body ->
    edits refPath indentOffset (passLine indentOffset ps keyLine) rest out ->
    edits refPath indentOffset ps (keyLine :: body ++ rest) (new ++ out).

(** Whether some line of the document has the target path, by the path
    stack alone: blank lines, comments and the wrapper line are passed, every
    other line pops the levels at its (wrapper-adjusted) indentation or
    deeper, and a key line pushes its key. *)
Fixpoint keyOnPath (refPath : list string) (indentOffset : Z) (ps : PathStack)
    (lines : list string) : bool :=
  match lines with
  | [] => false
  | line :: rest =>
      let yl := ParseLine line in
      if IsEmpty yl || IsComment yl then keyOnPath refPath indentOffset ps rest
      else if isWrapperLine indentOffset yl then keyOnPath refPath indentOffset ps rest
      else
        let indent := virtualIndent indentOffset yl in
        let popped := PopToIndent ps indent in
        if HasColon yl then
          let pushed := Push popped indent (Key yl) in
          pathsMatch (CurrentPath pushed) refPath
          || keyOnPath refPath indentOffset pushed rest
        else keyOnPath refPath indentOffset popped rest
  end.

(** The blank line put before a new section: none when the text before it
    is empty or ends in a blank line. *)
Definition separator (before : list string) : list string :=
  match last before with
  | Some final => if String_eqb (TrimSpace final) EmptyString then [] else [EmptyString]
  | None => []
  end.

(** The section written for an absent root key: every candidate's own line
    when all candidates are single-line scalars, and otherwise one key line
    followed by the candidate bodies two spaces deeper. *)
Definition rootSection (blocks : list string) (indentOffset : Z) (key : string)
  : outcome (list string) :=
  if isSingleLineScalar blocks key then injectBlockLines blocks indentOffset key
  else
    do pad <- RepeatSpace indentOffset;
    do injected <- injectBlockLines blocks (2 + indentOffset) key;
    Ok ((pad +:+ key +:+ ":") :: injected).

(** The backward walk finds a parent: the lines above split into those above
    the parent, the parent, and the lines walked over, each of them blank, a
    comment, or indented at least as deep as the candidate. *)
Definition walkedOver (lineIndent : Z) (line : string) : Prop :=
  isBlankOrComment line = true \/ lineIndent <= getIndentation line.

Definition parentOf (above : list string) (lineIndent : Z) (parent : string) : Prop :=
  exists higher skipped,
    above = higher ++ parent :: skipped
    /\ Forall (walkedOver lineIndent) skipped
    /\ isBlankOrComment parent = false
    /\ getIndentation parent < lineIndent.

(** * Example documents *)

Module Examples.

Definition wrappedFourSpaces : string :=
  Unlines ["_internal_defaults_do_not_set:"; "    replicaCount: 1"].

Definition onlyBackup : Backup.fileSystem :=
  Backup.mkFS {[ Backup.backupPath "chart" := "replicaCount: 1" ]} (fun _ => false).

Definition backedUp : Backup.fileSystem :=
  Backup.mkFS {[ Backup.valuesPath "chart" := "replicaCount: 2";
                 Backup.backupPath "chart" := "replicaCount: 1" ]} (fun _ => false).

(** A registry that parses every reference and answers no request. *)
Definition unreachable : Prober.registry :=
  Prober.mkRegistry (fun _ => true) (fun _ => false) (fun _ => false).

(** The engine over the block-dialect decoder and encoder. *)
Definition patch : string -> ValueReference -> list string -> Z
    -> outcome (string * bool * bool) :=
  injectBlockIntoValuesPath Yaml.Unmarshal Yaml.Marshal.

Definition patched (content : string) (ref : ValueReference) (blocks : list string)
    (indentOffset : Z) : outcome (list string) :=
  do (out, _, _) <- patch content ref blocks indentOffset;
  Ok (Lines out).

Definition tolerationsRef : ValueReference :=
  mkValueReference ["tolerations"] "tolerations".

Definition affinityRef : ValueReference :=
  mkValueReference ["affinity"] "affinity".

Definition priorityRef : ValueReference :=
  mkValueReference ["priorityClassName"] "priorityClassName".

(** Candidates, as [yaml.Marshal] writes them. *)
Definition oneToleration : string :=
  Unlines ["tolerations:"; "- key: dedicated"; "  operator: Exists"; EmptyString].

Definition oneAffinity : string :=
  Unlines ["affinity:"; "  nodeAffinity:"; "    zone: east"; EmptyString].

Definition emptyTolerations : string := "tolerations: []".

Definition afterOneRun : string :=
  Unlines ["tolerations:"; "- key: dedicated"; "  operator: Exists"].

Definition afterTwoRuns : string :=
  Unlines ["tolerations:"; "  - key: dedicated"; "    operator: Exists";
           "- key: dedicated"; "  operator: Exists"].

(** The toleration is listed already, at the indentation of its key and with
    its fields in another order than the candidate's. *)
Definition listedAtKeyIndent : string :=
  Unlines ["tolerations:"; "- operator: Exists"; "  key: dedicated"; "replicas: 1"].

Definition listedDeeper : string :=
  Unlines ["tolerations:"; "  - operator: Exists"; "    key: dedicated"; "replicas: 1"].

Definition commentAfterSubtree : string :=
  Unlines ["affinity:"; "  podAffinity: {}"; EmptyString; "# replicas of the gateway";
           "replicas: 1"].

Definition wrappedThenRoot : string :=
  Unlines ["_internal_defaults_do_not_set:"; "  replicas: 1"; "other: 2"].

Definition keptDocument : list string :=
  ["# gateway"; "affinity:"; "  podAffinity: {}"; "replicas: 1"].

Definition deployment : list string :=
  ["kind: Deployment"; "spec:"; "  template:"; "    spec:"; "      containers:";
   "        - name: web"].

Definition podBlocks : gmap string (list string) := {[ "allPods" := [oneToleration] ]}.

Definition podWithClaimTemplate : list string :=
  ["kind: Pod"; "spec:"; "  containers:"; "    - name: web"; "  volumes:";
   "    - name: scratch"; "      ephemeral:"; "        volumeClaimTemplate:";
   "          spec:"; "            storageClassName: fast"].

End Examples.

(** * The rest of the package *)

(** ** The remaining helpers of [yaml_walker.go]

    An index is a Go [int]; a loop that starts at a negative index reads
    [lines[i]] out of range and panics. *)

Fixpoint firstContentFrom (rest : list string) (i : Z) : option (Z * string) :=
  match rest with
  | [] => None
  | line :: rest =>
      if IsEmptyOrComment line then firstContentFrom rest (i + 1) else Some (i, line)
  end.

Definition FindNextNonEmptyLine (lines : list string) (startIndex : Z)
    : outcome (Z * string) :=
  if startIndex <? 0 then Panic
  else match firstContentFrom (drop (Z.to_nat startIndex) lines) startIndex with
       | Some r => Ok r
       | None => Ok (-1, EmptyString)
       end.

(** The loop shared by [FindLineAtIndent] and [SkipChildLines]: the index of
    the first content line from [i] on that is indented by [maxIndent] or
    less. *)
Fixpoint firstAtIndent (rest : list string) (i maxIndent : Z) : option Z :=
  match rest with
  | [] => None
  | line :: rest =>
      if IsEmptyOrComment line then firstAtIndent rest (i + 1) maxIndent
      else if GetIndentation line <=? maxIndent then Some i
      else firstAtIndent rest (i + 1) maxIndent
  end.

Definition FindLineAtIndent (lines : list string) (startIndex maxIndent : Z) : outcome Z :=
  if startIndex <? 0 then Panic
  else Ok (default (Z.of_nat (length lines))
             (firstAtIndent (drop (Z.to_nat startIndex) lines) startIndex maxIndent)).

Definition SkipChildLines (lines : list string) (currentIndex currentIndent : Z)
    : outcome Z :=
  if currentIndex + 1 <? 0 then Panic
  else Ok (default (Z.of_nat (length lines))
             (firstAtIndent (drop (Z.to_nat (currentIndex + 1)) lines)
                (currentIndex + 1) currentIndent)).

Fixpoint collectChildren (rest : list string) (i currentIndent : Z)
    : list string * Z :=
  match rest with
  | [] => ([], i)
  | line :: rest =>
      if IsEmptyOrComment line then
        let (children, e) := collectChildren rest (i + 1) currentIndent in
        (line :: children, e)
      else if GetIndentation line <=? currentIndent then ([], i)
      else
        let (children, e) := collectChildren rest (i + 1) currentIndent in
        (line :: children, e)
  end.

Definition CollectChildLines (lines : list string) (currentIndex currentIndent : Z)
    : outcome (list string * Z) :=
  if currentIndex + 1 <? 0 then Panic
  else Ok (collectChildren (drop (Z.to_nat (currentIndex + 1)) lines)
             (currentIndex + 1) currentIndent).

Definition IndentLines (lines : list string) (count : Z) : outcome (list string) :=
  do prefix <- RepeatSpace count;
  Ok (map (fun line => if IsEmptyOrComment line then line else prefix +:+ line) lines).

Definition ExtractKeyValue (line : string) : string * string * bool :=
  let trimmed := TrimSpace line in
  if negb (ContainsChar trimmed ":") then (EmptyString, EmptyString, false)
  else match Cut trimmed ":" with
       | Some (k, v) => (TrimSpace k, TrimSpace v, true)
       | None => (EmptyString, EmptyString, false)
       end.

Definition IsListItem (line : string) : bool := HasPrefix (TrimSpace line) "- ".

Definition Depth (ps : PathStack) : Z := Z.of_nat (length ps).

Definition Clear (ps : PathStack) : PathStack := [].

(** The levels of a stack are strictly nested: read from the top, every level
    is indented deeper than all the levels below it. *)
Fixpoint nested (ps : PathStack) : Prop :=
  match ps with
  | [] => True
  | top :: below => Forall (fun level => LIndent level < LIndent top) below /\ nested below
  end.

(** ** References to values ([values_parser.go]) *)

(** [strings.Split s sep] for a separator of one byte or more: the pieces
    between the occurrences of [sep], found from the left without overlap.
    [skip] counts the bytes of an occurrence still to be passed. *)
Fixpoint splitAt (sep : string) (skip : nat) (s : string) : list string :=
  match s with
  | EmptyString => [EmptyString]
  | String c rest =>
      match skip with
      | S k => splitAt sep k rest
      | O =>
          if String.prefix sep s then
            EmptyString :: splitAt sep (Nat.pred (String.length sep)) rest
          else
            match splitAt sep O rest with
            | piece :: pieces => String c piece :: pieces
            | [] => [String c EmptyString]
            end
      end
  end.

Definition SplitStr (s sep : string) : list string := splitAt sep O s.

Definition isPathDelimiter (ch : ascii) : bool :=
  Ascii.eqb ch " " || Ascii.eqb ch "}" || Ascii.eqb ch ")" || Ascii.eqb ch "|"
  || Ascii.eqb ch ",".

(** The loop of [extractValuePath]: the bytes up to the first delimiter (on
    ASCII text the runes of the [range] are the bytes). *)
Fixpoint pathPrefix (s : string) : string :=
  match s with
  | EmptyString => EmptyString
  | String ch rest => if isPathDelimiter ch then EmptyString else String ch (pathPrefix rest)
  end.

Definition extractValuePath (s : string) : string := TrimSpace (pathPrefix s).

Definition parseValuePath (pathStr : string) : ValueReference :=
  let parts := Split pathStr "." in
  match last parts with
  | None => mkValueReference [] EmptyString
  | Some key => mkValueReference parts key
  end.

(** The inner loop of [DetectValueReferences] over [parts[1:]]. *)
Fixpoint detectParts (parts : list string) (seen : gset string)
    (references : list ValueReference) : gset string * list ValueReference :=
  match parts with
  | [] => (seen, references)
  | part :: more =>
      let keyPath := extractValuePath part in
      if negb (String_eqb keyPath EmptyString) && negb (bool_decide (keyPath ∈ seen)) then
        let seen := {[ keyPath ]} ∪ seen in
        let ref := parseValuePath keyPath in
        if negb (String_eqb (RefKey ref) EmptyString)
        then detectParts more seen (references ++ [ref])
        else detectParts more seen references
      else detectParts more seen references
  end.

Fixpoint detectLines (lines : list string) (seen : gset string)
    (references : list ValueReference) : list ValueReference :=
  match lines with
  | [] => references
  | line :: more =>
      let trimmed := TrimSpace line in
      if ContainsStr trimmed ".Values." then
        let (seen, references) :=
          detectParts (tail (SplitStr trimmed ".Values.")) seen references in
        detectLines more seen references
      else detectLines more seen references
  end.

Definition DetectValueReferences (templateContent : string) : list ValueReference :=
  detectLines (Lines templateContent) ∅ [].

(** What holds of a reference [DetectValueReferences] returns. *)
Definition wellFormedReference (ref : ValueReference) : Prop :=
  RefKey ref <> EmptyString
  /\ last (Path ref) = Some (RefKey ref)
  /\ Forall (fun part =>
       forall ch, isPathDelimiter ch = true \/ ch = "."%char -> ContainsChar part ch = false)
       (Path ref).

(** ** Custom modifications of template files ([custom_template_mods.go]) *)

Record FileModification : Type := mkFileModification {
  ModName : string;
  AnchorLines : list string;
  Position : string;
  Block : string;
  ModIndent : Z
}.

(** [lines[i]]: a read out of range panics. *)
Definition lineAt (lines : list string) (i : Z) : outcome string :=
  if i <? 0 then Panic
  else match lines !! Z.to_nat i with
       | Some line => Ok line
       | None => Panic
       end.

(** [lines[:k]] and [lines[k:]] for a slice whose capacity is its length. *)
Definition sliceTo (lines : list string) (k : Z) : outcome (list string) :=
  if (k <? 0) || (Z.of_nat (length lines) <? k) then Panic
  else Ok (take (Z.to_nat k) lines).

Definition sliceFrom (lines : list string) (k : Z) : outcome (list string) :=
  if (k <? 0) || (Z.of_nat (length lines) <? k) then Panic
  else Ok (drop (Z.to_nat k) lines).

(** The inner loop of [findAnchorLinesWithRange] from line [j]: the anchors
    left without a match, the first and the last matching index. *)
Fixpoint matchAnchors (rest : list string) (j : Z) (anchors : list string)
    (firstMatchIdx lastMatchIdx : Z) : list string * Z * Z :=
  match rest, anchors with
  | line :: rest, anchor :: more =>
      if String_eqb (TrimSpace line) (TrimSpace anchor) then
        matchAnchors rest (j + 1) more
          (if firstMatchIdx =? -1 then j else firstMatchIdx) j
      else matchAnchors rest (j + 1) anchors firstMatchIdx lastMatchIdx
  | _, _ => (anchors, firstMatchIdx, lastMatchIdx)
  end.

(** The outer loop, at line [i] with [rest = lines[i:]]. *)
Fixpoint searchAnchors (rest : list string) (i : Z) (anchors : list string) : Z * Z :=
  match rest with
  | [] => (-1, -1)
  | _ :: later =>
      match matchAnchors rest i anchors (-1) (-1) with
      | ([], firstMatchIdx, lastMatchIdx) => (firstMatchIdx, lastMatchIdx)
      | _ => searchAnchors later (i + 1) anchors
      end
  end.

Definition findAnchorLinesWithRange (lines anchorLines : list string) : Z * Z :=
  match anchorLines with
  | [] => (-1, -1)
  | _ => searchAnchors lines 0 anchorLines
  end.

Definition normalizedBlock (blockLines : list string) : list string :=
  filter (fun trimmed => trimmed <> EmptyString) (map TrimSpace blockLines).

Fixpoint compareBlock (fileLines : list string) (insertIndex i : Z)
    (normalized : list string) : outcome bool :=
  match normalized with
  | [] => Ok true
  | blockLine :: more =>
      do fileLine <- lineAt fileLines (insertIndex + i);
      if String_eqb (TrimSpace fileLine) blockLine
      then compareBlock fileLines insertIndex (i + 1) more
      else Ok false
  end.

Definition blockAlreadyExistsAtPosition (fileLines blockLines : list string)
    (insertIndex : Z) : outcome bool :=
  match blockLines with
  | [] => Ok false
  | _ =>
      match normalizedBlock blockLines with
      | [] => Ok false
      | normalized =>
          if Z.of_nat (length fileLines) <? insertIndex + Z.of_nat (length normalized)
          then Ok false
          else compareBlock fileLines insertIndex 0 normalized
      end
  end.

(** The first loop of [prepareBlockForInsertion]. *)
Fixpoint minIndentOf (blockLines : list string) (minIndent : Z) : Z :=
  match blockLines with
  | [] => minIndent
  | line :: more =>
      if String_eqb (TrimSpace line) EmptyString then minIndentOf more minIndent
      else
        let indent := getIndentation line in
        minIndentOf more
          (if (minIndent =? -1) || (indent <? minIndent) then indent else minIndent)
  end.

(** The second loop. *)
Fixpoint indentBlock (blockLines : list string) (baseIndent minIndent : Z)
    : outcome (list string) :=
  match blockLines with
  | [] => Ok []
  | line :: more =>
      let trimmed := TrimSpace line in
      if String_eqb trimmed EmptyString then
        do tail <- indentBlock more baseIndent minIndent;
        Ok (EmptyString :: tail)
      else
        let relativeIndent := getIndentation line - minIndent in
        do pad <- RepeatSpace (baseIndent + relativeIndent);
        do tail <- indentBlock more baseIndent minIndent;
        Ok ((pad +:+ trimmed) :: tail)
  end.

Definition prepareBlockForInsertion (block : string) (baseIndent : Z)
    : outcome (list string) :=
  let blockLines := Lines (TrimSpace block) in
  let minIndent := minIndentOf blockLines (-1) in
  let minIndent := if minIndent =? -1 then 0 else minIndent in
  indentBlock blockLines baseIndent minIndent.

(** [applyFileModification]: the new content and whether it changed. *)
Definition applyFileModification (content : string) (fileMod : FileModification)
    : outcome (string * bool) :=
  let lines := Lines content in
  let (anchorStartIndex, anchorEndIndex) :=
    findAnchorLinesWithRange lines (AnchorLines fileMod) in
  if anchorStartIndex =? -1 then Ok (content, false)
  else
    let insertIndex :=
      if String_eqb (Position fileMod) "before" then anchorStartIndex
      else anchorEndIndex + 1 in
    let blockLines := Lines (TrimSpace (Block fileMod)) in
    do already <- blockAlreadyExistsAtPosition lines blockLines insertIndex;
    if already then Ok (content, false)
    else
      do anchorLine <- lineAt lines anchorStartIndex;
      let baseIndent := getIndentation anchorLine in
      let finalIndent := baseIndent + ModIndent fileMod in
      let finalIndent := if finalIndent <? 0 then 0 else finalIndent in
      do blockToInsert <- prepareBlockForInsertion (Block fileMod) finalIndent;
      do before <- sliceTo lines insertIndex;
      do after <- sliceFrom lines insertIndex;
      Ok (Unlines (before ++ blockToInsert ++ after), true).

(** The loop of [ApplyCustomTemplateMods] over the modifications of a file. *)
Fixpoint applyModifications (fileContent : string) (modified : bool)
    (modifications : list FileModification) : outcome (string * bool) :=
  match modifications with
  | [] => Ok (fileContent, modified)
  | modification :: more =>
      do (newContent, changed) <- applyFileModification fileContent modification;
      if changed then applyModifications newContent true more
      else applyModifications fileContent modified more
  end.

(** ** Registry paths in [values.yaml] ([process_chart.go])

    [reference.ParseNormalizedNamed] belongs to an external library and
    [path.Join] cleans the path it builds; the text rewrite is written
    against both: [ParseNormalizedNamed] returns the domain and the path of a
    reference, or [None] for an error. *)





(** [strings.TrimPrefix]. *)
Fixpoint dropBytes (n : nat) (s : string) : string :=
  match n, s with
  | S n, String _ rest => dropBytes n rest
  | _, _ => s
  end.

Definition TrimPrefix (s prefix : string) : string :=
  if HasPrefix s prefix then dropBytes (String.length prefix) s else s.


Section Registry.

Variable ParseNormalizedNamed : string -> option (string * string).
Variable pathJoin : list string -> string.




End Registry.

(** ** Documents and images of a rendered manifest ([process_chart.go],
    [update-registry.go]) *)

(** [bufio.Scanner] with its default split function and buffer: the lines of
    the text without their line ends, a final carriage return dropped, and no
    line for what follows the last line feed when that is empty.  A line of
    [MaxScanTokenSize] bytes or more does not fit the buffer and the scan
    ends with an error ([None]). *)
Definition MaxScanTokenSize : Z := 65536.

Fixpoint dropCR (line : string) : string :=
  match line with
  | EmptyString => EmptyString
  | String c EmptyString => if Ascii.eqb c "013" then EmptyString else line
  | String c rest => String c (dropCR rest)
  end.

Fixpoint withoutFinalEmpty (pieces : list string) : list string :=
  match pieces with
  | [] => []
  | [final] => if String_eqb final EmptyString then [] else [final]
  | piece :: more => piece :: withoutFinalEmpty more
  end.

Definition scanLines (text : string) : option (list string) :=
  let tokens := withoutFinalEmpty (Split text nl) in
  if existsb (fun token => MaxScanTokenSize <=? Z.of_nat (String.length token)) tokens
  then None
  else Some (map dropCR tokens).

(** The loop of [splitDocuments]: [sb] is the buffer, [docs] the documents
    so far. *)
Fixpoint splitLoop (lines : list string) (sb : string) (docs : list string)
    : list string :=
  match lines with
  | [] =>
      let final := TrimSpace sb in
      if negb (String_eqb final EmptyString) then docs ++ [final] else docs
  | line :: more =>
      let trim := TrimSpace line in
      if String_eqb trim "---" || String_eqb trim "..." then
        let part := TrimSpace sb in
        splitLoop more EmptyString
          (if negb (String_eqb part EmptyString) then docs ++ [part] else docs)
      else splitLoop more (sb +:+ line +:+ newline) docs
  end.

Definition splitDocuments (manifest : string) : list string :=
  match scanLines manifest with
  | None => [manifest]
  | Some lines => splitLoop lines EmptyString []
  end.

(** [getImageFromMapI]: the value of the key that prints as [image]; a
    decoded map has at most one such key, the string itself. *)
Fixpoint getImageFromMapI (m : list (ynode * ynode)) : string :=
  match m with
  | [] => EmptyString
  | (k, v) :: rest =>
      if String_eqb (Sprint k) "image" then Sprint v else getImageFromMapI rest
  end.

(** The images of the items of a [containers] or [initContainers] list. *)
Definition containerImages (sl : list ynode) : list string :=
  flat_map (fun item =>
    match item with
    | YMap it =>
        let img := getImageFromMapI it in
        if negb (String_eqb img EmptyString) then [img] else []
    | _ => []
    end) sl.

(** [collectImagesRecursive] on what [yaml.Unmarshal] stores in an
    [interface{}].  Go ranges over a map in no fixed order; the images are
    listed here in the order of the entries, and what is proved of the
    result does not depend on that order. *)
Fixpoint collectImagesRecursive (node : ynode) : list string :=
  match node with
  | YMap n =>
      flat_map (fun kv =>
        let key := Sprint kv.1 in
        if String_eqb key "containers" || String_eqb key "initContainers" then
          match kv.2 with
          | YSeq sl => containerImages sl
          | _ => []
          end
        else collectImagesRecursive kv.2) n
  | YSeq n => flat_map collectImagesRecursive n
  | _ => []
  end.

(** The loop that removes duplicates. *)
Fixpoint uniqueImages (images : list string) (seen : gset string) : list string :=
  match images with
  | [] => []
  | img :: more =>
      if String_eqb img EmptyString then uniqueImages more seen
      else if bool_decide (img ∈ seen) then uniqueImages more seen
      else img :: uniqueImages more ({[ img ]} ∪ seen)
  end.

Section Images.

(** [yaml.Unmarshal([]byte(p), &doc)] with [doc : interface{}]. *)
Variable yaml_unmarshal_any : string -> option ynode.

Definition documentImages (p : string) : list string :=
  let p := TrimSpace p in
  if String_eqb p EmptyString then []
  else match yaml_unmarshal_any p with
       | None => []
       | Some doc => collectImagesRecursive doc
       end.

Definition ExtractImagesFromManifest (manifest : string) : list string :=
  uniqueImages (flat_map documentImages (splitDocuments manifest)) ∅.

End Images.

(** ** The kind of a rendered resource ([values_injector_test.go]) *)

Definition resourceKinds : list string :=
  ["Deployment"; "StatefulSet"; "DaemonSet"; "Job"; "CronJob"; "ReplicaSet"; "Pod"].

(** [strings.Trim s cutset]. *)
Fixpoint TrimSetLeft (s : string) (cutset : list ascii) : string :=
  match s with
  | EmptyString => EmptyString
  | String d rest =>
      if existsb (Ascii.eqb d) cutset then TrimSetLeft rest cutset else s
  end.

Definition TrimSet (s : string) (cutset : list ascii) : string :=
  String.rev (TrimSetLeft (String.rev (TrimSetLeft s cutset)) cutset).

(** [parts[i]]: a read out of range panics. *)
Definition partAt (parts : list string) (i : nat) : outcome string :=
  match parts !! i with
  | Some part => Ok part
  | None => Panic
  end.

(** What a line says about the kind: [None] when the loop passes it over
    without a comparison (no [kind:] prefix, or a template expression without
    a default), the value compared with the kinds otherwise. *)
Definition kindValueOf (line : string) : outcome (option string) :=
  let trimmed := TrimSpace line in
  if HasPrefix trimmed "kind:" then
    let kindValueRaw := TrimSpace (TrimPrefix trimmed "kind:") in
    if ContainsChar kindValueRaw "{" then
      if ContainsStr kindValueRaw "default" then
        do kindValueRaw <- partAt (SplitStr kindValueRaw "default") 1;
        Ok (Some (TrimSet kindValueRaw [Yaml.dquote; "'"; "}"; " "]%char))
      else Ok None
    else Ok (Some kindValueRaw)
  else Ok None.

Fixpoint kindOfLines (lines : list string) : outcome string :=
  match lines with
  | [] => Ok EmptyString
  | line :: more =>
      do kindValue <- kindValueOf line;
      match kindValue with
      | Some kindValue =>
          if Contains resourceKinds kindValue then Ok kindValue else kindOfLines more
      | None => kindOfLines more
      end
  end.

Definition getK8sResourceKind (s : string) : outcome string := kindOfLines (Lines s).

(** ** Vocabulary of the further properties *)

(** Writing [block] at [indent] asks [strings.Repeat] for a negative count:
    a one-line block at a negative indentation, a longer block when a line of
    its body stands too far to the left of its first content line. *)
Definition underflows (indent : Z) (block : string) : Prop :=
  match Lines (TrimSpace block) with
  | [] => False
  | [_] => indent < 0
  | _ :: (first :: _) as body =>
      Exists (fun line => indent + (GetIndentation line - GetIndentation first) < 0) body
  end.

(** The keys of a Go map: comparable, and no two of them equal. *)
Definition distinctKeys (m : list (ynode * ynode)) : Prop :=
  NoDup (map fst m) /\ Forall (fun kv => keyEqb kv.1 kv.1 = true) m.

(** Every mapping inside a value, at any depth of nested mappings, has the
    keys of a Go map. *)
Fixpoint wellKeyed (v : ynode) : Prop :=
  match v with
  | YMap entries =>
      distinctKeys entries /\ foldr (fun kv rest => wellKeyed kv.2 /\ rest) True entries
  | _ => True
  end.

(** * Properties *)

Import Backup Prober Examples.

Arguments ParseLine : simpl never.
Arguments TrimSpace : simpl never.
Arguments HasPrefix : simpl never.
Arguments getIndentation : simpl never.
Arguments GetIndentation : simpl never.
Arguments Contains : simpl never.
Arguments isWrapperLine : simpl never.
Arguments virtualIndent : simpl never.

Lemma GetIndentation_nonneg (line : string) : 0 <= GetIndentation line.
Proof. unfold GetIndentation. lia. Qed.

Lemma RepeatSpace_nonneg (count : Z) :
  0 <= count -> RepeatSpace count = Ok (spaces (Z.to_nat count)).
Proof.
  intros H. unfold RepeatSpace. destruct (count <? 0) eqn:E; [lia|reflexivity].
Qed.

Lemma pathsMatch_eq (current target : list string) :
  pathsMatch current target = true <-> current = target.
Proof.
  revert target. induction current as [|c cs IH]; intros [|t ts]; simpl;
    try (split; [discriminate|congruence]); [tauto|].
  unfold String_eqb. rewrite andb_true_iff, bool_decide_eq_true, IH.
  split; [intros [-> ->]; reflexivity|intros [= -> ->]; auto].
Qed.


(** ** Wrapper detection *)

(** C5, counterexample: a document whose first key is the wrapper marker and
    whose first content line is indented by four spaces gets the offset 2,
    not the indentation width 4 the document uses. *)
Lemma C5_offset_not_read_from_document :
  childIndentWidth (Lines wrappedFourSpaces) = Some 4
  /\ detectWrapperPattern wrappedFourSpaces = 2.
Proof. split; vm_compute; reflexivity. Qed.

(** C5, amended: the offset is the constant 2 when the first line that is
    neither blank nor a comment and contains a colon has no indentation and
    its key is a known wrapper key, and 0 in every other case; the
    indentation of the lines below is never read. *)
Theorem C5_detectWrapperPattern_constant_offset (content : string) :
  detectWrapperPattern content =
    match firstKeyLine (Lines content) with
    | Some line =>
        if (getIndentation line =? 0)
           && Contains KnownWrapperKeys (firstField (TrimSpace line))
        then 2 else 0
    | None => 0
    end.
Proof.
  unfold detectWrapperPattern, firstKeyLine.
  induction (Lines content) as [|line rest IH]; simpl; [reflexivity|].
  unfold isKeyLine, isContentLine, IsEmptyOrComment.
  destruct (String_eqb (TrimSpace line) EmptyString || HasPrefix (TrimSpace line) "#");
    simpl; [exact IH|].
  destruct (ContainsChar (TrimSpace line) ":"); [reflexivity|exact IH].
Qed.

(** ** The values backup *)

Lemma String_length_app (s t : string) :
  String.length (s +:+ t) = (String.length s + String.length t)%nat.
Proof. induction s as [|c s IH]; simpl; [reflexivity|]. now rewrite IH. Qed.

Lemma backupPath_fresh (chartPath : string) :
  valuesPath chartPath <> backupPath chartPath.
Proof.
  unfold backupPath. intros E.
  apply (f_equal String.length) in E. rewrite String_length_app in E. simpl in E. lia.
Qed.

Lemma WriteFile_other (fs : fileSystem) (path data other : string) :
  path <> other ->
  files (WriteFile fs path data).2 !! other = files fs !! other.
Proof.
  intros Hne. unfold WriteFile. destruct (readOnly fs path); simpl; [reflexivity|].
  now rewrite lookup_insert_ne.
Qed.

Lemma backup_kept_by_action (chartPath : string) (fs : fileSystem) (a : action) :
  is_Some (files fs !! backupPath chartPath) ->
  files (perform chartPath fs a) !! backupPath chartPath
  = files fs !! backupPath chartPath.
Proof.
  intros [old Hold]. destruct a as [|content|]; simpl.
  - unfold backupValuesFile.
    destruct (files fs !! valuesPath chartPath); [|reflexivity].
    now rewrite Hold.
  - apply WriteFile_other, backupPath_fresh.
  - unfold restoreValuesFile. rewrite Hold.
    rewrite WriteFile_other by apply backupPath_fresh. exact Hold.
Qed.

(** C10, counterexample: with a backup present but no [values.yaml] the call
    does not return success; it returns the error "values.yaml does not
    exist". *)
Lemma C10_backup_present_values_missing :
  is_Some (files onlyBackup !! backupPath "chart")
  /\ (backupValuesFile onlyBackup "chart").1 = Some ValuesMissing.
Proof. split; [eexists|]; vm_compute; reflexivity. Qed.

(** C10, amended: when [values.yaml.backup] exists the call writes nothing,
    and it returns success provided [values.yaml] exists too; so whatever
    sequence of backups, rewrites of [values.yaml] and restores follows, the
    backup keeps the contents it had. *)
Theorem C10_existing_backup_never_overwritten
    (fs : fileSystem) (chartPath : string) (run : list action) :
  is_Some (files fs !! backupPath chartPath) ->
  (backupValuesFile fs chartPath).2 = fs
  /\ (is_Some (files fs !! valuesPath chartPath) ->
      (backupValuesFile fs chartPath).1 = None)
  /\ files (performAll chartPath fs run) !! backupPath chartPath
     = files fs !! backupPath chartPath.
Proof.
  intros Hb. split; [|split].
  - destruct Hb as [old Hold]. unfold backupValuesFile.
    destruct (files fs !! valuesPath chartPath); [|reflexivity].
    now rewrite Hold.
  - intros [input Hin]. destruct Hb as [old Hold]. unfold backupValuesFile.
    now rewrite Hin, Hold.
  - revert fs Hb. unfold performAll.
    induction run as [|a run IH]; intros fs Hb; simpl; [reflexivity|].
    rewrite IH.
    + now apply backup_kept_by_action.
    + now rewrite backup_kept_by_action.
Qed.

Lemma C10_existing_backup_witness :
  is_Some (files backedUp !! backupPath "chart")
  /\ files (performAll "chart" backedUp [WriteValues "replicaCount: 3"; CallBackup])
       !! backupPath "chart"
     = files backedUp !! backupPath "chart".
Proof.
  assert (H : is_Some (files backedUp !! backupPath "chart")).
  { eexists. vm_compute. reflexivity. }
  split; [exact H|].
  exact (proj2 (proj2 (C10_existing_backup_never_overwritten backedUp "chart"
                         [WriteValues "replicaCount: 3"; CallBackup] H))).
Defined.

(** ** The existence prober *)

(** C9, counterexample: a goroutine that gets a slot reports "auto" as
    existing only after a HEAD and a GET request for it were sent, and one
    that meets the deadline first reports it as missing. *)
Lemma C9_auto_contacts_store_or_fails :
  probe unreachable Acquired "auto" = (true, [Head "auto"; Get "auto"])
  /\ (CheckImagesExist unreachable [("auto", DeadlineFirst)]).1 !! "auto" = Some false.
Proof. split; vm_compute; reflexivity. Qed.

Lemma probe_auto (reg : registry) :
  parses reg "auto" = true ->
  (probe reg Acquired "auto").1 = true
  /\ Head "auto" ∈ (probe reg Acquired "auto").2.
Proof.
  intros Hp. unfold probe. rewrite Hp. simpl.
  destruct (headSucceeds reg "auto"); simpl;
    [split; [reflexivity|apply elem_of_cons; now left]|].
  destruct (getSucceeds reg "auto"); simpl; split; try reflexivity;
    apply elem_of_cons; now left.
Qed.

Lemma CheckImagesExist_snoc (reg : registry) (finished : list (string * slot))
    (u : string * slot) :
  CheckImagesExist reg (finished ++ [u])
  = (<[u.1 := (probe reg u.2 u.1).1]> (CheckImagesExist reg finished).1,
     (CheckImagesExist reg finished).2 ++ (probe reg u.2 u.1).2).
Proof.
  unfold CheckImagesExist. rewrite foldl_app. simpl.
  destruct (probe reg u.2 u.1). reflexivity.
Qed.

(** C9, amended: when every goroutine for "auto" gets a pool slot and the
    reference parses, the result map reports "auto" as existing whatever the
    store answers, and the store was sent a HEAD request for it first; a
    goroutine that meets the deadline before it gets a slot stores false
    instead. *)
Theorem C9_auto_reported_after_contact
    (reg : registry) (finished : list (string * slot)) :
  parses reg "auto" = true ->
  (forall u, u ∈ finished -> u.1 = "auto" -> u.2 = Acquired) ->
  "auto" ∈ finished.*1 ->
  (CheckImagesExist reg finished).1 !! "auto" = Some true
  /\ Head "auto" ∈ (CheckImagesExist reg finished).2.
Proof.
  intros Hp. induction finished as [|[name s] finished IH] using rev_ind.
  - intros _ Hin. simpl in Hin. now apply elem_of_nil in Hin.
  - intros Hall Hin. rewrite CheckImagesExist_snoc. cbn [fst snd].
    destruct (decide (name = "auto")) as [Hu|Hu].
    + assert (Hs : s = Acquired).
      { apply (Hall (name, s)); [|exact Hu].
        apply elem_of_app. right. now apply list_elem_of_singleton. }
      subst name s. destruct (probe_auto reg Hp) as [Hv Hh]. split.
      * rewrite lookup_insert_eq. now rewrite Hv.
      * apply elem_of_app. right. exact Hh.
    + rewrite fmap_app in Hin. simpl in Hin.
      assert (Hin' : "auto" ∈ finished.*1).
      { apply elem_of_app in Hin as [Hin|Hin]; [exact Hin|].
        apply list_elem_of_singleton in Hin. congruence. }
      destruct IH as [Hv Hh].
      { intros v Hvin. apply Hall. apply elem_of_app. left. exact Hvin. }
      { exact Hin'. }
      split.
      * rewrite lookup_insert_ne by exact Hu. exact Hv.
      * apply elem_of_app. left. exact Hh.
Qed.

Lemma C9_auto_reported_witness :
  parses unreachable "auto" = true
  /\ (CheckImagesExist unreachable [("nginx", Acquired); ("auto", Acquired)]).1
       !! "auto" = Some true.
Proof.
  split; [reflexivity|].
  refine (proj1 (C9_auto_reported_after_contact unreachable
                   [("nginx", Acquired); ("auto", Acquired)] eq_refl _ _)).
  - intros u Hu Hname.
    apply elem_of_cons in Hu as [->|Hu]; [discriminate Hname|].
    apply list_elem_of_singleton in Hu as ->. reflexivity.
  - simpl. apply elem_of_cons. right. now apply list_elem_of_singleton.
Defined.

(** ** The values patch engine: an empty value *)

Section EngineFacts.

Variable yaml_unmarshal : string -> option ymap.
Variable yaml_marshal : ymap -> string.

Local Abbreviation stepY := (step yaml_unmarshal yaml_marshal).
Local Abbreviation onMatchY := (onMatch yaml_unmarshal yaml_marshal).
Local Abbreviation scanY := (scan yaml_unmarshal yaml_marshal).

Lemma step_atTarget (refPath blocks : list string) (indentOffset : Z)
    (st : scanState) (line : string) (rest : list string) :
  atTarget refPath indentOffset (stack st) line = true ->
  stepY refPath blocks indentOffset st line rest
  = onMatchY blocks
      (mkScan (Push (PopToIndent (stack st) (virtualIndent indentOffset (ParseLine line)))
                    (virtualIndent indentOffset (ParseLine line)) (Key (ParseLine line)))
              (result st) (modified st) (actuallyInjected st))
      line (ParseLine line) rest.
Proof.
  unfold atTarget, step. cbv zeta.
  destruct (IsEmpty (ParseLine line) || IsComment (ParseLine line)); [discriminate|].
  destruct (isWrapperLine indentOffset (ParseLine line)); [discriminate|].
  destruct (HasColon (ParseLine line)); [|discriminate].
  simpl. intros ->. reflexivity.
Qed.

Lemma step_not_atTarget (refPath blocks : list string) (indentOffset : Z)
    (st : scanState) (line : string) (rest : list string) :
  atTarget refPath indentOffset (stack st) line = false ->
  exists ps, stepY refPath blocks indentOffset st line rest
             = Ok (mkScan ps (result st ++ [line]) (modified st) (actuallyInjected st), O).
Proof.
  unfold atTarget, step. cbv zeta.
  destruct (IsEmpty (ParseLine line) || IsComment (ParseLine line));
    [intros _; eexists; reflexivity|].
  destruct (isWrapperLine indentOffset (ParseLine line));
    [intros _; eexists; reflexivity|].
  destruct (HasColon (ParseLine line)); [|intros _; eexists; reflexivity].
  simpl. intros ->. eexists. reflexivity.
Qed.

(** The first content line of a candidate is written at exactly the target
    indentation. *)
Lemma injectBlockLines_first_line (block : string) (indent : Z) (key : string)
    (keyLine first : string) (more body : list string) :
  Lines (TrimSpace block) = keyLine :: first :: more ->
  injectBlockLines [block] indent key = Ok body ->
  0 <= indent
  /\ exists tail, body = (spaces (Z.to_nat indent) +:+ TrimSpace first) :: tail.
Proof.
  intros Hlines. simpl. rewrite Hlines. simpl.
  replace (indent + (GetIndentation first - GetIndentation first)) with indent by lia.
  unfold RepeatSpace at 1. destruct (indent <? 0) eqn:E; [discriminate|].
  simpl. destruct (reindent more indent (GetIndentation first)) as [tail| |];
    simpl; try discriminate.
  intros [= <-]. split; [lia|]. rewrite app_nil_r. eexists. reflexivity.
Qed.

Lemma reindent_returns (body : list string) (indent base : Z) :
  0 <= indent ->
  Forall (fun line => base <= GetIndentation line) body ->
  exists out, reindent body indent base = Ok out.
Proof.
  intros Hind. induction 1 as [|line body Hline _ [out IH]]; cbn [reindent].
  - eexists. reflexivity.
  - rewrite RepeatSpace_nonneg by lia. cbn [obind]. rewrite IH. cbn [obind].
    eexists. reflexivity.
Qed.

(** Writing well-indented candidates at a non-negative indentation never
    panics. *)
Lemma injectBlockLines_returns (blocks : list string) (indent : Z) (key : string) :
  0 <= indent ->
  Forall wellIndentedBlock blocks ->
  exists out, injectBlockLines blocks indent key = Ok out.
Proof.
  intros Hind. induction 1 as [|block blocks Hblock _ [out IH]]; cbn [injectBlockLines].
  - eexists. reflexivity.
  - unfold wellIndentedBlock in Hblock. cbv zeta.
    destruct (Lines (TrimSpace block)) as [|keyLine [|first more]].
    + cbn [obind]. rewrite IH. cbn [obind]. eexists. reflexivity.
    + rewrite RepeatSpace_nonneg by lia. cbn [obind]. rewrite IH. cbn [obind].
      eexists. reflexivity.
    + destruct (reindent_returns (first :: more) indent (GetIndentation first) Hind)
        as [here Hhere].
      { constructor; [lia|exact Hblock]. }
      rewrite Hhere. cbn [obind]. rewrite IH. cbn [obind]. eexists. reflexivity.
Qed.

(** On candidates of two lines or more the older [injectBlockLines] of
    [values_helpers.go] writes what the current one writes. *)
Lemma injectBlockLines_helpers_agrees (blocks : list string) (indent : Z) (key : string) :
  Forall (fun block => (2 <= length (Lines (TrimSpace block)))%nat) blocks ->
  injectBlockLines_helpers blocks indent key = injectBlockLines blocks indent key.
Proof.
  induction 1 as [|block blocks Hblock _ IH];
    cbn [injectBlockLines injectBlockLines_helpers]; [reflexivity|].
  cbv zeta. rewrite IH.
  destruct (Lines (TrimSpace block)) as [|keyLine [|first more]];
    cbn [length] in Hblock; try lia. reflexivity.
Qed.




(** The path stack decides whether a line is on the target path, line after
    line. *)
Lemma keyOnPath_cons (refPath : list string) (indentOffset : Z) (ps : PathStack)
    (line : string) (rest : list string) :
  keyOnPath refPath indentOffset ps (line :: rest)
  = atTarget refPath indentOffset ps line
    || keyOnPath refPath indentOffset (passLine indentOffset ps line) rest.
Proof.
  cbn [keyOnPath]. unfold atTarget, passLine. cbv zeta.
  destruct (IsEmpty (ParseLine line) || IsComment (ParseLine line)); [reflexivity|].
  destruct (isWrapperLine indentOffset (ParseLine line)); [reflexivity|].
  destruct (HasColon (ParseLine line)); reflexivity.
Qed.

Lemma passLine_atTarget (refPath : list string) (indentOffset : Z) (ps : PathStack)
    (line : string) :
  atTarget refPath indentOffset ps line = true ->
  passLine indentOffset ps line
  = Push (PopToIndent ps (virtualIndent indentOffset (ParseLine line)))
         (virtualIndent indentOffset (ParseLine line)) (Key (ParseLine line)).
Proof.
  unfold atTarget, passLine. cbv zeta.
  destruct (IsEmpty (ParseLine line) || IsComment (ParseLine line)); [discriminate|].
  destruct (isWrapperLine indentOffset (ParseLine line)); [discriminate|].
  destruct (HasColon (ParseLine line)); [reflexivity|discriminate].
Qed.

(** A line that is not on the target path is copied, and the stack moves on. *)
Lemma step_passes (refPath blocks : list string) (indentOffset : Z)
    (st : scanState) (line : string) (rest : list string) :
  atTarget refPath indentOffset (stack st) line = false ->
  stepY refPath blocks indentOffset st line rest
  = Ok (mkScan (passLine indentOffset (stack st) line) (result st ++ [line])
               (modified st) (actuallyInjected st), O).
Proof.
  unfold atTarget, step, passLine, copyLine. cbv zeta.
  destruct (IsEmpty (ParseLine line) || IsComment (ParseLine line)); [reflexivity|].
  destruct (isWrapperLine indentOffset (ParseLine line)); [reflexivity|].
  destruct (HasColon (ParseLine line)); [|reflexivity].
  simpl. intros ->. reflexivity.
Qed.



End EngineFacts.

(** ** The tolerations merge *)

Section TolerationFacts.

Variable yaml_unmarshal : string -> option ymap.
Variable yaml_marshal : ymap -> string.

(** Two items match exactly when they agree on each of the five identity
    fields: both lack it, or both hold it with values that print alike.  No
    other field and no order of fields plays a part. *)
Lemma tolerationsMatch_fields (a b : ymap) :
  tolerationsMatch a b = true
  <-> forall field, field ∈ tolerationFields ->
        match mapIndex a field, mapIndex b field with
        | Some aVal, Some bVal => Sprint aVal = Sprint bVal
        | None, None => True
        | _, _ => False
        end.
Proof.
  unfold tolerationsMatch. rewrite forallb_forall. split.
  - intros H field Hin. apply list_elem_of_In in Hin. specialize (H field Hin).
    unfold fieldMatches in H.
    destruct (mapIndex a field), (mapIndex b field); try discriminate; [|exact I].
    unfold String_eqb in H. now apply bool_decide_eq_true in H.
  - intros H field Hin. apply list_elem_of_In in Hin. specialize (H field Hin).
    unfold fieldMatches.
    destruct (mapIndex a field), (mapIndex b field); try contradiction; [|reflexivity].
    unfold String_eqb. now apply bool_decide_eq_true.
Qed.

(** Of the items the merge has parsed, it appends exactly the candidates that
    match none of them. *)
Lemma newTolerations_spec (existingParsed : list ymap) (blocks : list string)
    (tolMap : list (ynode * ynode)) :
  tolMap ∈ newTolerations yaml_unmarshal existingParsed blocks
  <-> exists block blockData,
        block ∈ blocks /\ yaml_unmarshal block = Some blockData
        /\ tolMap ∈ tolerationMaps blockData
        /\ forall existing, existing ∈ existingParsed ->
             tolerationsMatch existing (stringKeys tolMap) = false.
Proof.
  unfold newTolerations. rewrite list_elem_of_In, in_flat_map. split.
  - intros (block & Hblock & Hin). exists block.
    destruct (yaml_unmarshal block) as [blockData|] eqn:Eb; [|destruct Hin].
    exists blockData. apply list_elem_of_In, list_elem_of_filter in Hin as [Hnone Hin].
    repeat split; try assumption; [now apply list_elem_of_In|].
    intros existing Hex. apply list_elem_of_In in Hex.
    destruct (tolerationsMatch existing (stringKeys tolMap)) eqn:Em; [|reflexivity].
    assert (existsb (fun e => tolerationsMatch e (stringKeys tolMap)) existingParsed = true)
      by (apply existsb_exists; eauto).
    congruence.
  - intros (block & blockData & Hblock & Eb & Hin & Hnone). exists block.
    split; [now apply list_elem_of_In|]. rewrite Eb.
    apply list_elem_of_In, list_elem_of_filter. split; [|exact Hin].
    destruct (existsb _ existingParsed) eqn:Ee; [|reflexivity].
    apply existsb_exists in Ee as (existing & Hex & Hm).
    apply list_elem_of_In in Hex. rewrite (Hnone existing Hex) in Hm. discriminate.
Qed.

(** The merge marks the path as handled whatever it appends, and when it
    appends nothing the key line and the lines it passed are all it wrote. *)
Lemma mergeTolerations_marks_handled (rest res : list string) (ind : Z)
    (blocks : list string) (line : string) (out : list string) (passed : nat)
    (changed handled : bool) :
  mergeTolerations yaml_unmarshal yaml_marshal rest res ind blocks line
  = Ok (out, passed, changed, handled) ->
  handled = true
  /\ (changed = false -> out = (res ++ [line]) ++ take passed rest).
Proof.
  unfold mergeTolerations.
  destruct (collectExisting rest ind) as [[copied existing] n] eqn:Ec.
  destruct (newTolerations _ _ _).
  - intros [= <- <- <- <-]. split; [reflexivity|]. intros _.
    f_equal. revert copied existing n Ec.
    induction rest as [|next rest IH]; intros copied existing n; cbn [collectExisting].
    + intros [= <- <- <-]. reflexivity.
    + destruct (String_eqb (TrimSpace next) EmptyString || HasPrefix (TrimSpace next) "#").
      * destruct (collectExisting rest ind) as [[c e] k].
        intros [= <- <- <-]. cbn [take]. f_equal. now apply (IH c e k).
      * destruct (getIndentation next <=? ind); [intros [= <- <- <-]; reflexivity|].
        destruct (collectExisting rest ind) as [[c e] k].
        intros [= <- <- <-]. cbn [take]. f_equal. now apply (IH c e k).
  - destruct (injectBlockLines _ _ _); cbn [obind]; try discriminate.
    intros [= <- <- <- <-]. split; [reflexivity|discriminate].
Qed.

End TolerationFacts.

(** ** Format preservation *)

Lemma edits_append (refPath : list string) (indentOffset : Z) (ps : PathStack)
    (input out extra : list string) :
  edits refPath indentOffset ps input out ->
  edits refPath indentOffset ps input (out ++ extra).
Proof.
  induction 1 as [ps appended|ps line rest out _ IH
                  |ps keyLine body rest new out Hk Hb _ IH].
  - constructor.
  - simpl. now constructor.
  - rewrite <- app_assoc. now constructor.
Qed.

Lemma edits_without_target (refPath : list string) (indentOffset : Z) (ps : PathStack)
    (input out : list string) :
  edits refPath indentOffset ps input out ->
  keyOnPath refPath indentOffset ps input = false ->
  exists appended, out = input ++ appended.
Proof.
  induction 1 as [ps appended|ps line rest out _ IH
                  |ps keyLine body rest new out Hk Hb _ IH];
    intros Hno.
  - exists appended. reflexivity.
  - rewrite keyOnPath_cons in Hno. apply orb_false_iff in Hno as [_ Hno].
    destruct (IH Hno) as [appended ->]. exists appended. reflexivity.
  - rewrite keyOnPath_cons, Hk in Hno. discriminate Hno.
Qed.

Lemma collectExisting_passed (rest : list string) (ind : Z) :
  ((collectExisting rest ind).2 <= length rest)%nat
  /\ Forall (fun line => IsEmptyOrComment line = true \/ ind < getIndentation line)
            (take (collectExisting rest ind).2 rest).
Proof.
  induction rest as [|next rest [IHn IHf]]; simpl; [split; [lia|constructor]|].
  destruct (String_eqb (TrimSpace next) EmptyString || HasPrefix (TrimSpace next) "#")
    eqn:Eb.
  - destruct (collectExisting rest ind) as [[copied existing] n]. simpl in *.
    split; [lia|]. constructor; [left; exact Eb|exact IHf].
  - destruct (getIndentation next <=? ind) eqn:Ele; simpl; [split; [lia|constructor]|].
    destruct (collectExisting rest ind) as [[copied existing] n]. simpl in *.
    split; [lia|]. constructor; [right; lia|exact IHf].
Qed.

Lemma passNested_passed (rest : list string) (ind : Z) (replaceContent : bool) :
  ((passNested rest ind replaceContent).2 <= length rest)%nat
  /\ Forall (fun line => IsEmptyOrComment line = true \/ ind < getIndentation line)
            (take (passNested rest ind replaceContent).2 rest).
Proof.
  induction rest as [|next rest [IHn IHf]]; simpl; [split; [lia|constructor]|].
  destruct (String_eqb (TrimSpace next) EmptyString || HasPrefix (TrimSpace next) "#")
    eqn:Eb.
  - destruct (passNested rest ind replaceContent) as [[kept has] n]. simpl in *.
    split; [lia|]. constructor; [left; exact Eb|exact IHf].
  - destruct (getIndentation next <=? ind) eqn:Ele; simpl; [split; [lia|constructor]|].
    destruct (passNested rest ind replaceContent) as [[kept has] n]. simpl in *.
    split; [lia|]. constructor; [right; lia|exact IHf].
Qed.

Section Frame.

Variable yaml_unmarshal : string -> option ymap.
Variable yaml_marshal : ymap -> string.

Local Abbreviation scanY := (scan yaml_unmarshal yaml_marshal).
Local Abbreviation onMatchY := (onMatch yaml_unmarshal yaml_marshal).
Local Abbreviation patchLinesY := (patchLines yaml_unmarshal yaml_marshal).
Local Abbreviation mergeTolerationsY := (mergeTolerations yaml_unmarshal yaml_marshal).

(** What a handler answers: it only adds to the result, and the lines it
    passes lie below the key. *)
Lemma mergeTolerations_handled (rest res : list string) (ind : Z)
    (blocks : list string) (line : string) (answer : list string * nat * bool * bool) :
  mergeTolerationsY rest res ind blocks line = Ok answer ->
  exists new, answer.1.1.1 = res ++ new
  /\ (answer.1.1.2 <= length rest)%nat
  /\ Forall (fun line => IsEmptyOrComment line = true \/ ind < getIndentation line)
            (take answer.1.1.2 rest).
Proof.
  unfold mergeTolerations.
  pose proof (collectExisting_passed rest ind) as [Hn Hf].
  destruct (collectExisting rest ind) as [[copied existing] n]. simpl in Hn, Hf.
  destruct (newTolerations yaml_unmarshal (parseExisting yaml_unmarshal existing) blocks).
  - intros [= <-]. simpl. exists ([line] ++ copied).
    rewrite <- app_assoc. auto.
  - destruct (injectBlockLines _ _ _) as [injected| |]; simpl; try discriminate.
    intros [= <-]. simpl. exists ([line] ++ copied ++ injected).
    rewrite <- !app_assoc. auto.
Qed.

Lemma handleComplexNestedBlock_handled (rest res : list string) (ind : Z)
    (blocks : list string) (yl : YAMLLine) (replaceContent : bool)
    (answer : list string * nat * bool * bool) :
  handleComplexNestedBlock rest res ind blocks yl replaceContent = Ok answer ->
  exists new, answer.1.1.1 = res ++ new
  /\ (answer.1.1.2 <= length rest)%nat
  /\ Forall (fun line => IsEmptyOrComment line = true \/ ind < getIndentation line)
            (take answer.1.1.2 rest).
Proof.
  unfold handleComplexNestedBlock.
  pose proof (passNested_passed rest ind replaceContent) as [Hn Hf].
  destruct (passNested rest ind replaceContent) as [[kept has] n]. simpl in Hn, Hf.
  destruct replaceContent.
  - destruct (RepeatSpace ind) as [pad| |]; simpl; try discriminate.
    destruct (injectBlockLines _ _ _) as [injected| |]; simpl; try discriminate.
    intros [= <-]. simpl. eexists. rewrite <- !app_assoc. split; [reflexivity|auto].
  - destruct (negb has).
    + destruct (injectBlockLines _ _ _) as [injected| |]; simpl; try discriminate.
      intros [= <-]. simpl. eexists. rewrite <- !app_assoc. split; [reflexivity|auto].
    + intros [= <-]. simpl. eexists. split; [reflexivity|auto].
Qed.

Lemma absorb_handled (st : scanState) (res : list string) (ind : Z) (rest : list string)
    (h : outcome (list string * nat * bool * bool)) (st1 : scanState) (passed : nat) :
  (forall answer, h = Ok answer ->
     exists new, answer.1.1.1 = res ++ new
     /\ (answer.1.1.2 <= length rest)%nat
     /\ Forall (fun line => IsEmptyOrComment line = true \/ ind < getIndentation line)
               (take answer.1.1.2 rest)) ->
  absorb st h = Ok (st1, passed) ->
  exists new, result st1 = res ++ new
  /\ (passed <= length rest)%nat
  /\ Forall (fun line => IsEmptyOrComment line = true \/ ind < getIndentation line)
            (take passed rest).
Proof.
  intros Hh. unfold absorb. destruct h as [[[[res' n] m] inj]| |]; simpl; try discriminate.
  intros [= <- <-]. simpl. exact (Hh _ eq_refl).
Qed.

Lemma onMatch_handled (blocks : list string) (st : scanState) (line : string)
    (rest : list string) (st1 : scanState) (passed : nat) :
  onMatchY blocks st line (ParseLine line) rest = Ok (st1, passed) ->
  exists new, result st1 = result st ++ new
  /\ (passed <= length rest)%nat
  /\ Forall (belowKey line) (take passed rest).
Proof.
  unfold onMatch, belowKey.
  change (Indent (ParseLine line)) with (getIndentation line).
  set (yl := ParseLine line).
  assert (Hinject : forall indent,
    (do pad <- RepeatSpace (getIndentation line);
     do injected <- injectBlockLines blocks indent (Key yl);
     Ok (mkScan (stack st) ((result st ++ [pad +:+ Key yl +:+ ":"]) ++ injected)
                true true, O)) = Ok (st1, passed) ->
    exists new, result st1 = result st ++ new
    /\ (passed <= length rest)%nat
    /\ Forall (fun l => IsEmptyOrComment l = true \/ getIndentation line < getIndentation l)
              (take passed rest)).
  { intros indent.
    destruct (RepeatSpace (getIndentation line)) as [pad| |]; simpl; try discriminate.
    destruct (injectBlockLines _ _ _) as [injected| |]; simpl; try discriminate.
    intros [= <- <-]. simpl. eexists. rewrite <- app_assoc.
    split; [reflexivity|]. split; [lia|constructor]. }
  assert (Hshift : forall new : list string,
    result st1 = (result st ++ [line]) ++ new ->
    exists new', result st1 = result st ++ new').
  { intros new ->. exists ([line] ++ new). now rewrite app_assoc. }
  destruct (isEmptyValue (Value yl)).
  - destruct ((Contains podConfigKeys (Key yl)
               || isComplexNestedBlock yaml_unmarshal (Key yl) blocks)
              && hasExistingContent rest (getIndentation line)); [|apply Hinject].
    destruct (String_eqb (Key yl) "tolerations").
    + intros Habs. eapply absorb_handled; [|exact Habs].
      intros answer. apply mergeTolerations_handled.
    + destruct (String_eqb (Key yl) "affinity"
                || isComplexNestedBlock yaml_unmarshal (Key yl) blocks); [|apply Hinject].
      intros Habs. eapply absorb_handled; [|exact Habs].
      intros answer. apply handleComplexNestedBlock_handled.
  - destruct (negb (isComplexNestedBlock yaml_unmarshal (Key yl) blocks)
              && negb (isListBasedBlock yaml_unmarshal (Key yl) blocks)).
    + destruct (injectBlockLines _ _ _) as [[|l injected]| |]; simpl; try discriminate;
        intros [= <- <-]; simpl; eexists; (split; [reflexivity|]);
        (split; [lia|constructor]).
    + destruct (String_eqb (Key yl) "tolerations").
      * intros Habs.
        destruct (absorb_handled st (result st ++ [line]) (getIndentation line) rest _ _ _
                    (fun answer => mergeTolerations_handled rest _ _ blocks line answer) Habs)
          as (new & Hres & Hrest).
        destruct (Hshift _ Hres) as [new' Hres']. exists new'. auto.
      * destruct (String_eqb (Key yl) "affinity"
                  || isComplexNestedBlock yaml_unmarshal (Key yl) blocks).
        -- intros Habs.
           destruct (absorb_handled st (result st ++ [line]) (getIndentation line) rest _ _ _
                       (fun answer =>
                          handleComplexNestedBlock_handled rest _ _ blocks yl false answer)
                       Habs) as (new & Hres & Hrest).
           destruct (Hshift _ Hres) as [new' Hres']. exists new'. auto.
        -- intros [= <- <-]. simpl. eexists. split; [reflexivity|].
           split; [lia|constructor].
Qed.

(** A handler leaves the path stack as the key line set it. *)
Lemma absorb_stack (st : scanState) (h : outcome (list string * nat * bool * bool))
    (st1 : scanState) (passed : nat) :
  absorb st h = Ok (st1, passed) -> stack st1 = stack st.
Proof.
  unfold absorb. destruct h as [[[[res n] m] inj]| |]; simpl; try discriminate.
  intros [= <- _]. reflexivity.
Qed.

Lemma onMatch_stack (blocks : list string) (st : scanState) (line : string)
    (yl : YAMLLine) (rest : list string) (st1 : scanState) (passed : nat) :
  onMatchY blocks st line yl rest = Ok (st1, passed) -> stack st1 = stack st.
Proof.
  unfold onMatch.
  assert (Hinject : forall indent,
    (do pad <- RepeatSpace (Indent yl);
     do injected <- injectBlockLines blocks indent (Key yl);
     Ok (mkScan (stack st) ((result st ++ [pad +:+ Key yl +:+ ":"]) ++ injected)
                true true, O)) = Ok (st1, passed) ->
    stack st1 = stack st).
  { intros indent.
    destruct (RepeatSpace (Indent yl)) as [pad| |]; simpl; try discriminate.
    destruct (injectBlockLines _ _ _) as [injected| |]; simpl; try discriminate.
    intros [= <- _]. reflexivity. }
  destruct (isEmptyValue (Value yl)).
  - destruct ((Contains podConfigKeys (Key yl)
               || isComplexNestedBlock yaml_unmarshal (Key yl) blocks)
              && hasExistingContent rest (Indent yl)); [|apply Hinject].
    destruct (String_eqb (Key yl) "tolerations"); [apply absorb_stack|].
    destruct (String_eqb (Key yl) "affinity"
              || isComplexNestedBlock yaml_unmarshal (Key yl) blocks);
      [apply absorb_stack|apply Hinject].
  - destruct (negb (isComplexNestedBlock yaml_unmarshal (Key yl) blocks)
              && negb (isListBasedBlock yaml_unmarshal (Key yl) blocks)).
    + destruct (injectBlockLines _ _ _) as [[|l injected]| |]; simpl; try discriminate;
        intros [= <- _]; reflexivity.
    + destruct (String_eqb (Key yl) "tolerations"); [apply absorb_stack|].
      destruct (String_eqb (Key yl) "affinity"
                || isComplexNestedBlock yaml_unmarshal (Key yl) blocks);
        [apply absorb_stack|].
      intros [= <- _]. reflexivity.
Qed.

Lemma scan_skip (refPath blocks : list string) (indentOffset : Z)
    (skip : nat) (st : scanState) (lines : list string) :
  scanY refPath blocks indentOffset skip st lines
  = scanY refPath blocks indentOffset O st (drop skip lines).
Proof.
  revert lines. induction skip as [|skip IH]; intros lines; [reflexivity|].
  destruct lines as [|line rest]; [reflexivity|]. simpl. apply IH.
Qed.

Lemma scan_edits (refPath blocks : list string) (indentOffset : Z) (n : nat) :
  forall (lines : list string) (st st' : scanState),
    (length lines <= n)%nat ->
    scanY refPath blocks indentOffset O st lines = Ok st' ->
    exists out, result st' = result st ++ out
                /\ edits refPath indentOffset (stack st) lines out.
Proof.
  induction n as [|n IH]; intros lines st st' Hlen Hscan.
  - destruct lines; [|simpl in Hlen; lia]. simpl in Hscan. injection Hscan as <-.
    exists []. split; [now rewrite app_nil_r|constructor].
  - destruct lines as [|line rest].
    { simpl in Hscan. injection Hscan as <-.
      exists []. split; [now rewrite app_nil_r|constructor]. }
    simpl in Hlen. simpl in Hscan.
    destruct (atTarget refPath indentOffset (stack st) line) eqn:Hat.
    + rewrite (step_atTarget yaml_unmarshal yaml_marshal _ blocks _ _ _ rest Hat) in Hscan.
      destruct (onMatchY blocks _ line (ParseLine line) rest) as [[st1 passed]| |] eqn:Hm;
        simpl in Hscan; try discriminate.
      destruct (onMatch_handled _ _ _ _ _ _ Hm) as (new & Hres & Hpassed & Hbelow).
      pose proof (onMatch_stack _ _ _ _ _ _ _ Hm) as Hstack.
      simpl in Hres. cbn [stack] in Hstack.
      rewrite <- (passLine_atTarget _ _ _ _ Hat) in Hstack.
      rewrite scan_skip in Hscan.
      destruct (IH (drop passed rest) st1 st') as (out & Hout & Hedits).
      { rewrite length_drop. lia. }
      { exact Hscan. }
      exists (new ++ out). split.
      * rewrite Hout, Hres. now rewrite app_assoc.
      * rewrite <- (take_drop passed rest) at 1. rewrite Hstack in Hedits.
        apply edits_region; [exact Hat|exact Hbelow|exact Hedits].
    + rewrite (step_passes yaml_unmarshal yaml_marshal _ blocks _ _ _ rest Hat) in Hscan.
      simpl in Hscan.
      destruct (IH rest _ st' ltac:(lia) Hscan) as (out & Hout & Hedits).
      simpl in Hout, Hedits. exists (line :: out). split.
      * rewrite Hout. now rewrite <- app_assoc.
      * now constructor.
Qed.

Lemma appendRootKey_extends (blocks : list string) (indentOffset : Z) (key : string)
    (res out : list string) :
  appendRootKey blocks indentOffset key res = Ok out -> exists extra, out = res ++ extra.
Proof.
  unfold appendRootKey.
  set (res1 := match last res with
               | Some final =>
                   if String_eqb (TrimSpace final) EmptyString then res
                   else res ++ [EmptyString]
               | None => res
               end).
  assert (Hres1 : exists sep, res1 = res ++ sep).
  { unfold res1. destruct (last res) as [final|]; [|exists []; now rewrite app_nil_r].
    destruct (String_eqb (TrimSpace final) EmptyString);
      [exists []; now rewrite app_nil_r|eexists; reflexivity]. }
  destruct Hres1 as [sep ->].
  destruct (isSingleLineScalar blocks key).
  - destruct (injectBlockLines _ _ _) as [injected| |]; simpl; try discriminate.
    intros [= <-]. eexists. now rewrite <- app_assoc.
  - destruct (RepeatSpace indentOffset) as [pad| |]; simpl; try discriminate.
    destruct (injectBlockLines _ _ _) as [injected| |]; simpl; try discriminate.
    intros [= <-]. eexists. now rewrite <- !app_assoc.
Qed.

(** The frame of the engine: its output is the input, line for line and in
    order, except at key lines whose path is the target path; such a line may
    be rewritten together with the lines below it that are blank, comments or
    indented deeper than the key, and a section may be added at the end of the
    document.  A document without a line on the target path comes out
    unchanged up to what is added at its end. *)
Theorem only_target_regions_change
    (lines : list string) (ref : ValueReference) (blocks : list string)
    (indentOffset : Z) (out : list string) (changed injected : bool) :
  patchLinesY lines ref blocks indentOffset = Ok (out, changed, injected) ->
  edits (Path ref) indentOffset NewPathStack lines out
  /\ (keyOnPath (Path ref) indentOffset NewPathStack lines = false ->
      exists appended, out = lines ++ appended).
Proof.
  intros Hpatch.
  assert (Hedits : edits (Path ref) indentOffset NewPathStack lines out).
  { revert Hpatch. unfold patchLines.
    destruct (scanY (Path ref) blocks indentOffset O initialScan lines) as [st| |] eqn:Hscan;
      simpl; try discriminate.
    destruct (scan_edits (Path ref) blocks indentOffset (length lines) lines
                initialScan st (Nat.le_refl _) Hscan) as (scanned & Hres & Hed).
    simpl in Hres, Hed.
    assert (Hplain : Ok (result st, modified st, actuallyInjected st)
                     = Ok (out, changed, injected) ->
                     edits (Path ref) indentOffset NewPathStack lines out).
    { intros [= <- _ _]. now rewrite Hres. }
    destruct (Path ref) as [|key [|second more]] eqn:Hpath; try exact Hplain.
    destruct (negb (actuallyInjected st)); [|exact Hplain].
    destruct (appendRootKey blocks indentOffset key (result st)) as [res| |] eqn:Happ;
      simpl; try discriminate.
    intros [= <- _ _]. destruct (appendRootKey_extends _ _ _ _ _ Happ) as [extra ->].
    rewrite Hres. now apply edits_append. }
  split; [exact Hedits|]. intros Hno. exact (edits_without_target _ _ _ _ _ Hedits Hno).
Qed.

End Frame.

(** ** Appending an absent root key *)

Lemma appendRootKey_section (blocks : list string) (indentOffset : Z) (key : string)
    (res : list string) :
  appendRootKey blocks indentOffset key res
  = do section <- rootSection blocks indentOffset key;
    Ok (res ++ separator res ++ section).
Proof.
  unfold appendRootKey, rootSection, separator.
  assert (Hsep : match last res with
                 | Some final =>
                     if String_eqb (TrimSpace final) EmptyString then res
                     else res ++ [EmptyString]
                 | None => res
                 end
                 = res ++ match last res with
                          | Some final =>
                              if String_eqb (TrimSpace final) EmptyString then []
                              else [EmptyString]
                          | None => []
                          end).
  { destruct (last res) as [final|]; [|now rewrite app_nil_r].
    destruct (String_eqb (TrimSpace final) EmptyString); [now rewrite app_nil_r|reflexivity]. }
  rewrite Hsep.
  destruct (isSingleLineScalar blocks key).
  - destruct (injectBlockLines _ _ _) as [injected| |]; simpl; try reflexivity.
    now rewrite <- app_assoc.
  - destruct (RepeatSpace indentOffset) as [pad| |]; simpl; try reflexivity.
    destruct (injectBlockLines _ _ _) as [injected| |]; simpl; try reflexivity.
    now rewrite <- !app_assoc.
Qed.

Lemma wrapperScan_bound (indentOffset : Z) (rest : list string) :
  forall (i : nat) (st : wrapperSearch),
    (forall k, lastContentLine st = Some k -> (k < i)%nat) ->
    (foundWrapper st = true -> (wrapperLine st < i)%nat) ->
    let st' := wrapperScan indentOffset i rest st in
    (forall k, lastContentLine st' = Some k -> (k < i + length rest)%nat)
    /\ (foundWrapper st' = true -> (wrapperLine st' < i + length rest)%nat).
Proof.
  induction rest as [|line rest IH]; intros i st Hlast Hwrap;
    cbn [wrapperScan length]; cbv zeta.
  - split; [intros k Hk; specialize (Hlast k Hk); lia|intros Hf; specialize (Hwrap Hf); lia].
  - assert (Hkeep : (forall k, lastContentLine st = Some k -> (k < S i)%nat)
                    /\ (foundWrapper st = true -> (wrapperLine st < S i)%nat)).
    { split; [intros k Hk; specialize (Hlast k Hk); lia
             |intros Hf; specialize (Hwrap Hf); lia]. }
    destruct Hkeep as [Hlast' Hwrap'].
    replace (i + S (length rest))%nat with (S i + length rest)%nat by lia.
    destruct (IsEmpty (ParseLine line) || IsComment (ParseLine line)); [now apply IH|].
    destruct ((Indent (ParseLine line) =? 0) && HasColon (ParseLine line)
              && Contains KnownWrapperKeys (Key (ParseLine line))).
    { apply IH; cbn [lastContentLine foundWrapper wrapperLine];
        [exact Hlast'|intros _; lia]. }
    destruct (foundWrapper st && (Indent (ParseLine line) =? 0)).
    { split; [intros k Hk; specialize (Hlast k Hk); lia
             |intros Hf; specialize (Hwrap Hf); lia]. }
    destruct (foundWrapper st && (indentOffset <=? Indent (ParseLine line))).
    { apply IH; cbn [lastContentLine foundWrapper wrapperLine];
        [intros k [= <-]; lia|exact Hwrap']. }
    now apply IH.
Qed.

Lemma findWrapperEndPosition_le (lines : list string) (indentOffset : Z) :
  (findWrapperEndPosition lines indentOffset <= length lines)%nat.
Proof.
  unfold findWrapperEndPosition.
  destruct (wrapperScan_bound indentOffset lines O (mkWrapperSearch None false O))
    as [Hlast Hwrap]; simpl; try discriminate.
  destruct (lastContentLine _) as [k|] eqn:Ek.
  - specialize (Hlast k eq_refl). lia.
  - destruct (foundWrapper _); [specialize (Hwrap eq_refl); lia|lia].
Qed.

Lemma rootKeyScan_found (all : list string) (targetKey : string) (indentOffset : Z)
    (rest : list string) :
  forall (i : nat) (st : rootSearch),
    keyFound (rootKeyScan all targetKey indentOffset i rest st)
    = keyFound st || keyOnPath [targetKey] indentOffset (rsStack st) rest.
Proof.
  induction rest as [|line rest IH]; intros i st; cbn [rootKeyScan keyOnPath]; cbv zeta;
    [now rewrite orb_false_r|].
  destruct (IsEmpty (ParseLine line) || IsComment (ParseLine line)).
  { rewrite IH. destruct (keyFound st) eqn:Ef; cbn [keyFound rsStack orb];
      [reflexivity|now rewrite Ef]. }
  destruct (isWrapperLine indentOffset (ParseLine line)); [apply IH|].
  destruct (keyFound st) eqn:Ef.
  - destruct (virtualIndent indentOffset (ParseLine line) <=? keyVirtualIndent st);
      cbn [andb orb keyFound]; [reflexivity|].
    rewrite IH.
    destruct (HasColon (ParseLine line)); [|reflexivity].
    destruct (CurrentPath _) as [|only [|second more]]; try reflexivity.
    destruct (String_eqb only targetKey); reflexivity.
  - cbn [andb]. rewrite IH.
    destruct (HasColon (ParseLine line)); [|reflexivity].
    set (pushed := Push _ _ _).
    destruct (CurrentPath pushed) as [|only [|second more]] eqn:Ep;
      cbn [keyFound rsStack pathsMatch orb]; try reflexivity.
    + destruct (String_eqb only targetKey); reflexivity.
    + now rewrite andb_false_r.
Qed.

Section RootKey.

Variable yaml_unmarshal : string -> option ymap.
Variable yaml_marshal : ymap -> string.

Local Abbreviation scanY := (scan yaml_unmarshal yaml_marshal).
Local Abbreviation patchLinesY := (patchLines yaml_unmarshal yaml_marshal).
Local Abbreviation injectRootKeyY := (injectRootKey yaml_unmarshal yaml_marshal).

Lemma scan_never_on_path (refPath blocks : list string) (indentOffset : Z)
    (lines : list string) :
  forall st : scanState,
    keyOnPath refPath indentOffset (stack st) lines = false ->
    exists ps,
      scanY refPath blocks indentOffset O st lines
      = Ok (mkScan ps (result st ++ lines) (modified st) (actuallyInjected st)).
Proof.
  induction lines as [|line rest IH]; intros st Hno; cbn [scan].
  - exists (stack st). rewrite app_nil_r. now destruct st.
  - cbn [keyOnPath] in Hno. cbv zeta in Hno. unfold step. cbv zeta.
    assert (Hcopy : forall ps,
      keyOnPath refPath indentOffset ps rest = false ->
      exists ps',
        scanY refPath blocks indentOffset O
              (copyLine (mkScan ps (result st) (modified st) (actuallyInjected st)) line)
              rest
        = Ok (mkScan ps' (result st ++ line :: rest) (modified st) (actuallyInjected st))).
    { intros ps Hps. destruct (IH (copyLine (mkScan ps (result st) (modified st)
                                                    (actuallyInjected st)) line) Hps)
        as [ps' Hscan].
      exists ps'. rewrite Hscan. simpl. now rewrite <- app_assoc. }
    destruct (IsEmpty (ParseLine line) || IsComment (ParseLine line)).
    { destruct st as [ps res m inj]. simpl in *. now apply Hcopy. }
    destruct (isWrapperLine indentOffset (ParseLine line)).
    { destruct st as [ps res m inj]. simpl in *. now apply Hcopy. }
    destruct (HasColon (ParseLine line)).
    + apply orb_false_iff in Hno as [Hpath Hrest]. rewrite Hpath. simpl.
      now apply Hcopy.
    + simpl. now apply Hcopy.
Qed.

(** What the engine does for an absent root key: when no line of the
    document has the root path [[key]], the
    engine appends a new section at the end of the document, also in a
    wrapped document, where the section is indented by the wrapper offset;
    one blank line is added before the section exactly when the last line of
    the document is not blank.  The section is one key line followed by the
    candidate bodies, or, when every candidate is a single-line scalar, the
    line of each candidate.  The root-level merge of a new-value fragment
    whose key is absent inserts the fragment at the end of the wrapper's
    content, or at the end of the document when there is no wrapper, behind
    one added blank line exactly when the line before that place is not
    blank. *)
Theorem absent_root_key_appended
    (lines : list string) (key refKey : string) (blocks : list string)
    (indentOffset : Z) (block : string) (newValue : ynode) :
  keyOnPath [key] indentOffset NewPathStack lines = false ->
  patchLinesY lines (mkValueReference [key] refKey) blocks indentOffset
  = (do section <- rootSection blocks indentOffset key;
     Ok (lines ++ separator lines ++ section, true, true))
  /\ injectRootKeyY lines block key newValue indentOffset
     = (let place := if 0 <? indentOffset then findWrapperEndPosition lines indentOffset
                     else length lines in
        do newLines <- rootBlockLines (Lines (TrimSpace block)) indentOffset
                         (getIndentation (hd EmptyString (Lines (TrimSpace block))));
        Ok (take place lines ++ separator (take place lines) ++ newLines
            ++ drop place lines)).
Proof.
  intros Hno. split.
  - unfold patchLines. cbn [Path].
    destruct (scan_never_on_path [key] blocks indentOffset lines initialScan Hno)
      as [ps Hscan].
    rewrite Hscan. cbn [obind result actuallyInjected negb initialScan app].
    rewrite appendRootKey_section.
    destruct (rootSection blocks indentOffset key); reflexivity.
  - unfold injectRootKey, findAndRemoveRootKey.
    pose proof (rootKeyScan_found lines key indentOffset lines O
                  (mkRootSearch NewPathStack false EmptyString O O (-1))) as Hfound.
    simpl in Hfound. rewrite Hno in Hfound. rewrite Hfound.
    set (place := if 0 <? indentOffset then findWrapperEndPosition lines indentOffset
                  else length lines).
    assert (Hplace : (place <= length lines)%nat).
    { unfold place. destruct (0 <? indentOffset); [apply findWrapperEndPosition_le|lia]. }
    cbv zeta.
    assert (Hins :
      match place with
      | S before =>
          if (place <=? length lines)%nat
             && negb (String_eqb (TrimSpace (lines !!! before)) EmptyString)
          then Ok (block, take place lines ++ EmptyString :: drop place lines, S place)
          else Ok (block, lines, place)
      | O => Ok (block, lines, place)
      end
      = Ok (block, take place lines ++ separator (take place lines) ++ drop place lines,
            (place + length (separator (take place lines)))%nat)).
    { unfold separator. destruct place as [|before] eqn:Eplace.
      - simpl. rewrite drop_0. reflexivity.
      - assert (Hlast : last (take (S before) lines) = Some (lines !!! before)).
        { rewrite last_lookup, length_take, Nat.min_l by lia. simpl.
          rewrite lookup_take_lt by lia.
          apply list_lookup_lookup_total_lt. lia. }
        rewrite Hlast.
        assert (Hle : (S before <=? length lines)%nat = true) by (apply Nat.leb_le; lia).
        rewrite Hle. simpl.
        destruct (String_eqb (TrimSpace (lines !!! before)) EmptyString); simpl.
        + rewrite take_drop. f_equal. f_equal. lia.
        + f_equal. f_equal. lia. }
    rewrite Hins. cbn [obind].
    destruct (rootBlockLines _ _ _) as [newLines| |]; simpl; try reflexivity.
    f_equal.
    assert (Htl : length (take place lines) = place) by (rewrite length_take; lia).
    set (sep := separator (take place lines)).
    replace (take (place + length sep) (take place lines ++ sep ++ drop place lines))
      with (take place lines ++ sep).
    2:{ rewrite app_assoc. rewrite take_app_length'; [reflexivity|].
        rewrite length_app, Htl. reflexivity. }
    replace (drop (place + length sep) (take place lines ++ sep ++ drop place lines))
      with (drop place lines).
    2:{ rewrite app_assoc. rewrite drop_app_length'; [reflexivity|].
        rewrite length_app, Htl. reflexivity. }
    now rewrite <- !app_assoc.
Qed.

End RootKey.

(** ** The engine returns *)

Section Returns.

Variable yaml_unmarshal : string -> option ymap.
Variable yaml_marshal : ymap -> string.

(** The encoder writes a list of tolerations as a well-indented block. *)
Hypothesis marshal_wellIndented :
  forall tolerations,
    wellIndentedBlock (yaml_marshal [("tolerations", YSeq (map YMap tolerations))]).

Lemma mergeTolerations_returns (rest res : list string) (ind : Z)
    (blocks : list string) (line : string) :
  0 <= ind ->
  exists answer, mergeTolerations yaml_unmarshal yaml_marshal rest res ind blocks line
                 = Ok answer.
Proof.
  intros Hind. unfold mergeTolerations.
  destruct (collectExisting rest ind) as [[copied existing] n].
  destruct (newTolerations _ _ _) as [|t ts]; [eexists; reflexivity|].
  destruct (injectBlockLines_returns
              [yaml_marshal [("tolerations", YSeq (map YMap (t :: ts)))]] (ind + 2)
              "tolerations") as [out Hout];
    [lia|constructor; [apply marshal_wellIndented|constructor]|].
  rewrite Hout. cbn [obind]. eexists. reflexivity.
Qed.

Lemma handleComplexNestedBlock_returns (rest res : list string) (ind : Z)
    (blocks : list string) (yl : YAMLLine) (replaceContent : bool) :
  0 <= ind -> Forall wellIndentedBlock blocks ->
  exists answer, handleComplexNestedBlock rest res ind blocks yl replaceContent = Ok answer.
Proof.
  intros Hind Hblocks. unfold handleComplexNestedBlock.
  destruct (passNested rest ind replaceContent) as [[kept has] n].
  destruct (injectBlockLines_returns blocks (ind + 2) (Key yl)) as [out Hout];
    [lia|exact Hblocks|].
  rewrite Hout. rewrite RepeatSpace_nonneg by lia. cbn [obind].
  destruct replaceContent; [eexists; reflexivity|].
  destruct (negb has); eexists; reflexivity.
Qed.

Lemma absorb_returns (st : scanState) (h : outcome (list string * nat * bool * bool)) :
  (exists answer, h = Ok answer) -> exists next, absorb st h = Ok next.
Proof.
  intros [[[[res n] m] inj] ->]. unfold absorb. cbn [obind]. eexists. reflexivity.
Qed.

Lemma onMatch_returns (blocks : list string) (st : scanState) (line : string)
    (rest : list string) :
  Forall wellIndentedBlock blocks ->
  exists next, onMatch yaml_unmarshal yaml_marshal blocks st line (ParseLine line) rest
               = Ok next.
Proof.
  intros Hblocks. unfold onMatch.
  change (Indent (ParseLine line)) with (GetIndentation line).
  pose proof (GetIndentation_nonneg line) as Hind.
  set (yl := ParseLine line).
  assert (Hinject : forall indentAdd, 0 <= indentAdd ->
    exists next,
      (do pad <- RepeatSpace (GetIndentation line);
       do injected <- injectBlockLines blocks (indentAdd + GetIndentation line) (Key yl);
       Ok (mkScan (stack st) ((result st ++ [pad +:+ Key yl +:+ ":"]) ++ injected)
                  true true, O)) = Ok next).
  { intros indentAdd Hadd. rewrite RepeatSpace_nonneg by lia. cbn [obind].
    destruct (injectBlockLines_returns blocks (indentAdd + GetIndentation line) (Key yl))
      as [out Hout]; [lia|exact Hblocks|].
    rewrite Hout. cbn [obind]. eexists. reflexivity. }
  destruct (isEmptyValue (Value yl)).
  - destruct ((Contains podConfigKeys (Key yl)
               || isComplexNestedBlock yaml_unmarshal (Key yl) blocks)
              && hasExistingContent rest (GetIndentation line)).
    + destruct (String_eqb (Key yl) "tolerations").
      * apply absorb_returns, mergeTolerations_returns. exact Hind.
      * destruct (String_eqb (Key yl) "affinity"
                  || isComplexNestedBlock yaml_unmarshal (Key yl) blocks).
        -- apply absorb_returns, handleComplexNestedBlock_returns; assumption.
        -- apply Hinject. lia.
    + destruct (String_eqb (Key yl) "tolerations"); apply Hinject; lia.
  - destruct (negb (isComplexNestedBlock yaml_unmarshal (Key yl) blocks)
              && negb (isListBasedBlock yaml_unmarshal (Key yl) blocks)).
    + destruct (injectBlockLines_returns blocks (GetIndentation line) (Key yl))
        as [out Hout]; [lia|exact Hblocks|].
      rewrite Hout. cbn [obind]. destruct out; eexists; reflexivity.
    + destruct (String_eqb (Key yl) "tolerations").
      * apply absorb_returns, mergeTolerations_returns. exact Hind.
      * destruct (String_eqb (Key yl) "affinity"
                  || isComplexNestedBlock yaml_unmarshal (Key yl) blocks).
        -- apply absorb_returns, handleComplexNestedBlock_returns; assumption.
        -- eexists. reflexivity.
Qed.

Lemma step_returns (refPath blocks : list string) (indentOffset : Z)
    (st : scanState) (line : string) (rest : list string) :
  Forall wellIndentedBlock blocks ->
  exists next, step yaml_unmarshal yaml_marshal refPath blocks indentOffset st line rest
               = Ok next.
Proof.
  intros Hblocks.
  destruct (atTarget refPath indentOffset (stack st) line) eqn:Hat.
  - rewrite (step_atTarget _ _ _ _ _ _ _ _ Hat). now apply onMatch_returns.
  - destruct (step_not_atTarget yaml_unmarshal yaml_marshal _ blocks _ _ _ rest Hat)
      as [ps ->]. eexists. reflexivity.
Qed.

Lemma scan_returns (refPath blocks : list string) (indentOffset : Z)
    (lines : list string) :
  Forall wellIndentedBlock blocks ->
  forall (skip : nat) (st : scanState),
    exists final, scan yaml_unmarshal yaml_marshal refPath blocks indentOffset skip st lines
                  = Ok final.
Proof.
  intros Hblocks. induction lines as [|line rest IH]; intros skip st; cbn [scan].
  - eexists. reflexivity.
  - destruct skip as [|skip]; [|apply IH].
    destruct (step_returns refPath blocks indentOffset st line rest Hblocks)
      as [[st1 passed] ->].
    cbn [obind]. apply IH.
Qed.

(** With well-indented candidates, an encoder that writes well-indented
    blocks and a wrapper offset that is not negative, the engine returns: it
    neither panics nor terminates the process. *)
Lemma patchLines_returns (lines : list string) (ref : ValueReference)
    (blocks : list string) (indentOffset : Z) :
  0 <= indentOffset ->
  Forall wellIndentedBlock blocks ->
  exists answer, patchLines yaml_unmarshal yaml_marshal lines ref blocks indentOffset
                 = Ok answer.
Proof.
  intros Hoff Hblocks. unfold patchLines.
  destruct (scan_returns (Path ref) blocks indentOffset lines Hblocks O initialScan)
    as [st ->].
  cbn [obind].
  destruct (Path ref) as [|key [|second more]]; try (eexists; reflexivity).
  destruct (negb (actuallyInjected st)); [|eexists; reflexivity].
  rewrite appendRootKey_section. unfold rootSection.
  destruct (isSingleLineScalar blocks key).
  - destruct (injectBlockLines_returns blocks indentOffset key Hoff Hblocks) as [out ->].
    cbn [obind]. eexists. reflexivity.
  - rewrite RepeatSpace_nonneg by lia. cbn [obind].
    destruct (injectBlockLines_returns blocks (2 + indentOffset) key) as [out ->];
      [lia|exact Hblocks|].
    cbn [obind]. eexists. reflexivity.
Qed.

End Returns.

(** ** Parse failures *)

Section ParseFailures.

Variable yaml_unmarshal : string -> option ymap.
Variable yaml_marshal : ymap -> string.


End ParseFailures.

(** ** The in-place pod-spec injector *)

Lemma parentIsTemplate_walk (before : list string) (lineIndent : Z) :
  parentIsTemplate before lineIndent = true
  <-> exists parent, parentOf (rev before) lineIndent parent
                     /\ HasPrefix (TrimSpace parent) "template:" = true.
Proof.
  induction before as [|line above IH]; cbn [parentIsTemplate rev].
  - split; [discriminate|]. intros (parent & (higher & skipped & Heq & _) & _).
    destruct higher; discriminate.
  - destruct (isBlankOrComment line) eqn:Eb.
    + rewrite IH. split.
      * intros (parent & (higher & skipped & Heq & Hsk & Hnb & Hlt) & Htpl).
        exists parent. split; [|exact Htpl].
        exists higher, (skipped ++ [line]). rewrite Heq, <- app_assoc. simpl.
        repeat split; auto. apply Forall_app. split; [exact Hsk|].
        constructor; [left; exact Eb|constructor].
      * intros (parent & (higher & skipped & Heq & Hsk & Hnb & Hlt) & Htpl).
        destruct skipped as [|s skipped _] using rev_ind.
        { apply (f_equal (@last string)) in Heq.
          rewrite last_snoc in Heq.
          rewrite last_snoc in Heq. injection Heq as <-. congruence. }
        rewrite app_comm_cons, app_assoc in Heq.
        apply app_inj_tail in Heq as [Heq <-].
        apply Forall_app in Hsk as [Hsk _].
        exists parent. split; [|exact Htpl]. exists higher, skipped. auto.
    + destruct (getIndentation line <? lineIndent) eqn:Elt.
      * split.
        -- intros Htpl. exists line. split; [|exact Htpl].
           exists (rev above), []. repeat split; auto. lia.
        -- intros (parent & (higher & skipped & Heq & Hsk & Hnb & Hlt) & Htpl).
           destruct skipped as [|s skipped _] using rev_ind.
           { apply (f_equal (@last string)) in Heq.
             rewrite !last_snoc in Heq. injection Heq as <-. exact Htpl. }
           rewrite app_comm_cons, app_assoc in Heq.
           apply app_inj_tail in Heq as [_ <-].
           apply Forall_app in Hsk as [_ Hs]. apply Forall_cons in Hs as [[Hs|Hs] _];
             [congruence|lia].
      * rewrite IH. split.
        -- intros (parent & (higher & skipped & Heq & Hsk & Hnb & Hlt) & Htpl).
           exists parent. split; [|exact Htpl].
           exists higher, (skipped ++ [line]). rewrite Heq, <- app_assoc. simpl.
           repeat split; auto. apply Forall_app. split; [exact Hsk|].
           constructor; [right; lia|constructor].
        -- intros (parent & (higher & skipped & Heq & Hsk & Hnb & Hlt) & Htpl).
           destruct skipped as [|s skipped _] using rev_ind.
           { apply (f_equal (@last string)) in Heq.
             rewrite !last_snoc in Heq. injection Heq as <-. lia. }
           rewrite app_comm_cons, app_assoc in Heq.
           apply app_inj_tail in Heq as [Heq <-].
           apply Forall_app in Hsk as [Hsk _].
           exists parent. split; [|exact Htpl]. exists higher, skipped. auto.
Qed.

Section PodSpecFacts.

Variable yaml_unmarshal : string -> option ymap.

Local Abbreviation podScanY := (podScan yaml_unmarshal).
Local Abbreviation onPodSpecY := (onPodSpec yaml_unmarshal).

Lemma podScan_copies_until (blocks : gmap string (list string)) (resourceKind : string)
    (criticalDs controlPlane : bool) (lines : list string) (n : nat) :
  forall a : nat,
    (forall j, (a <= j < a + n)%nat -> isPodSpec resourceKind lines j = false) ->
    podScanY blocks resourceKind criticalDs controlPlane lines a O (drop a lines)
    = take n (drop a lines)
      ++ podScanY blocks resourceKind criticalDs controlPlane lines (a + n) O
                  (drop (a + n) lines).
Proof.
  induction n as [|n IH]; intros a Hnone.
  - rewrite Nat.add_0_r. reflexivity.
  - destruct (lines !! a) as [line|] eqn:Ea.
    + rewrite (drop_S _ _ _ Ea). cbn [podScan take].
      rewrite (Hnone a) by lia. cbn [app]. f_equal.
      rewrite IH by (intros j Hj; apply Hnone; lia).
      now replace (S a + n)%nat with (a + S n)%nat by lia.
    + apply lookup_ge_None in Ea.
      rewrite !drop_ge by lia. reflexivity.
Qed.

(** How the in-place injector picks pod subtrees: a line is tested where the
    scan stands on it, and a
    [spec:] line is treated as a pod subtree under kind Pod exactly when it is
    not nested under a [template:] section and under any other kind exactly
    when it is, so that the two rules never both hold for one line; it is
    nested when, walking backward over blank lines, comments and lines
    indented at least as deep, the first line with less indentation starts
    with [template:].  The first line the rule of the kind holds for is
    always reached: the lines above it are copied unchanged and the pod
    branch runs on it; any later such line the scan reaches is treated in the
    same way. *)
Theorem pod_spec_by_kind
    (blocks : gmap string (list string)) (resourceKind : string)
    (criticalDs controlPlane : bool) (lines : list string) (i : nat) (line : string) :
  lines !! i = Some line ->
  HasPrefix (TrimSpace line) "spec:" = true ->
  (isUnderTemplateSection lines i = true
   <-> exists parent, parentOf (take i lines) (getIndentation line) parent
                      /\ HasPrefix (TrimSpace parent) "template:" = true)
  /\ isPodSpec "Pod" lines i = negb (isUnderTemplateSection lines i)
  /\ (resourceKind <> "Pod" ->
      isPodSpec resourceKind lines i = isUnderTemplateSection lines i)
  /\ ((forall j, (j < i)%nat -> isPodSpec resourceKind lines j = false) ->
      isPodSpec resourceKind lines i = true ->
      podScanY blocks resourceKind criticalDs controlPlane lines O O lines
      = take i lines
        ++ line :: (onPodSpecY blocks criticalDs controlPlane line (drop (S i) lines)).1
        ++ podScanY blocks resourceKind criticalDs controlPlane lines (S i)
             (onPodSpecY blocks criticalDs controlPlane line (drop (S i) lines)).2
             (drop (S i) lines)).
Proof.
  intros Hline Hspec. repeat split.
  - unfold isUnderTemplateSection. rewrite Hline.
    intros H. apply parentIsTemplate_walk in H. now rewrite rev_involutive in H.
  - unfold isUnderTemplateSection. rewrite Hline.
    intros H. apply parentIsTemplate_walk. now rewrite rev_involutive.
  - unfold isPodSpec. rewrite Hline, Hspec. reflexivity.
  - intros Hkind. unfold isPodSpec. rewrite Hline, Hspec.
    unfold String_eqb. now rewrite bool_decide_eq_false_2.
  - intros Hfirst Hhere.
    pose proof (podScan_copies_until blocks resourceKind criticalDs controlPlane lines i O)
      as Hcopy.
    rewrite drop_0 in Hcopy. rewrite Hcopy by (intros j Hj; apply Hfirst; lia).
    f_equal. simpl. rewrite (drop_S _ _ _ Hline). cbn [podScan]. rewrite Hhere.
    destruct (onPodSpecY blocks criticalDs controlPlane line (drop (S i) lines)).
    reflexivity.
Qed.

End PodSpecFacts.

(** ** The engine on the block dialect *)

(** C1: on the document [tolerations: []] with one candidate toleration the
    first run writes the item at the indentation of its key, and a second run
    on that output does not recognise the item and writes the candidate
    again, two spaces deeper: the second output differs from the first. *)
Theorem C1_second_run_duplicates_toleration :
  patch emptyTolerations tolerationsRef [oneToleration] 0 = Ok (afterOneRun, true, true)
  /\ patch afterOneRun tolerationsRef [oneToleration] 0 = Ok (afterTwoRuns, true, true)
  /\ afterTwoRuns <> afterOneRun.
Proof. repeat split; try (vm_compute; reflexivity). discriminate. Qed.

(** C3: the document already lists the toleration, at the indentation of its
    key; the candidate equals it on all identity fields (the fields come in
    another order), yet it is appended.  Listed deeper than its key, the same
    item is recognised and nothing is appended. *)
Theorem C3_equal_candidate_appended_at_key_indent :
  tolerationsMatch [("operator", YStr "Exists"); ("key", YStr "dedicated")]
                   [("key", YStr "dedicated"); ("operator", YStr "Exists")] = true
  /\ patched listedAtKeyIndent tolerationsRef [oneToleration] 0
     = Ok ["tolerations:"; "  - key: dedicated"; "    operator: Exists";
           "- operator: Exists"; "  key: dedicated"; "replicas: 1"]
  /\ patch listedDeeper tolerationsRef [oneToleration] 0 = Ok (listedDeeper, false, true).
Proof. repeat split; vm_compute; reflexivity. Qed.

(** C2: replacing the subtree of [affinity] also drops the blank line and the
    comment that follow the subtree and belong to the next key: a comment of
    the document, outside the replaced subtree, is not in the output. *)
Theorem C2_comment_after_replaced_subtree_dropped :
  "# replicas of the gateway" ∈ Lines commentAfterSubtree
  /\ exists out,
       patched commentAfterSubtree affinityRef [oneAffinity] 0 = Ok out
       /\ out = ["affinity:"; "  nodeAffinity:"; "    zone: east"; "replicas: 1"]
       /\ "# replicas of the gateway" ∉ out.
Proof.
  split.
  - vm_compute. do 3 apply list_elem_of_further. apply list_elem_of_here.
  - eexists. split; [vm_compute; reflexivity|]. split; [reflexivity|].
    intros Hin. repeat (apply elem_of_cons in Hin as [Hin|Hin]; [discriminate|]).
    now apply elem_of_nil in Hin.
Qed.

(** C7: with two single-line scalar candidates the appended section writes
    the key twice; and in a wrapped document the section goes to the end of
    the document, here behind a root key that follows the wrapper and with
    the indentation of the wrapper's content, not to the end of the wrapper's
    content (line 2), where [findWrapperEndPosition] puts it. *)
Theorem C7_key_twice_and_behind_wrapper :
  patched "replicas: 1" priorityRef
          ["priorityClassName: high"; "priorityClassName: low"] 0
  = Ok ["replicas: 1"; EmptyString; "priorityClassName: high"; "priorityClassName: low"]
  /\ patched wrappedThenRoot tolerationsRef [oneToleration] 2
     = Ok ["_internal_defaults_do_not_set:"; "  replicas: 1"; "other: 2"; EmptyString;
           "  tolerations:"; "    - key: dedicated"; "      operator: Exists"]
  /\ findWrapperEndPosition (Lines wrappedThenRoot) 2 = 2%nat.
Proof. repeat split; vm_compute; reflexivity. Qed.


(** The scenario of the specification: [tolerations: []] patched with one
    candidate holds the key without its marker and one item at the key's
    indentation, also below a parent key. *)
Example tolerations_empty_nested :
  patched (Unlines ["webhook:"; "  tolerations: []"; "  replicas: 1"])
          (mkValueReference ["webhook"; "tolerations"] "tolerations") [oneToleration] 0
  = Ok ["webhook:"; "  tolerations:"; "  - key: dedicated"; "    operator: Exists";
        "  replicas: 1"].
Proof. vm_compute. reflexivity. Qed.

(** The test of the package: a new root key is added once, and a second run
    leaves the document as the first run left it. *)
Example new_root_value_added_once :
  injectNewValuesIntoRoot Yaml.Unmarshal Yaml.Marshal
    (Unlines ["replicaCount: 1"; EmptyString])
    [Unlines ["hostPort:"; "  enabled: false"; EmptyString]] 0
  = Ok (Unlines ["replicaCount: 1"; EmptyString; "hostPort:"; "  enabled: false"], true)
  /\ injectNewValuesIntoRoot Yaml.Unmarshal Yaml.Marshal
       (Unlines ["replicaCount: 1"; EmptyString; "hostPort:"; "  enabled: false"])
       [Unlines ["hostPort:"; "  enabled: false"; EmptyString]] 0
     = Ok (Unlines ["replicaCount: 1"; EmptyString; "hostPort:"; "  enabled: false"], true).
Proof. split; vm_compute; reflexivity. Qed.

(** The candidates of the examples are well indented. *)
Example oneToleration_wellIndented : wellIndentedBlock oneToleration.
Proof.
  unfold wellIndentedBlock. vm_compute.
  constructor; [intros H; discriminate H|constructor].
Qed.

(** ** The theorems at concrete documents *)


Lemma only_target_regions_witness :
  edits ["affinity"] 0 NewPathStack keptDocument
        ["# gateway"; "affinity:"; "  nodeAffinity:"; "    zone: east"; "replicas: 1"].
Proof.
  refine (proj1 (only_target_regions_change Yaml.Unmarshal Yaml.Marshal
                   keptDocument affinityRef [oneAffinity] 0
                   ["# gateway"; "affinity:"; "  nodeAffinity:"; "    zone: east";
                    "replicas: 1"] true true _)).
  vm_compute. reflexivity.
Defined.

Lemma absent_root_key_witness :
  patchLines Yaml.Unmarshal Yaml.Marshal ["replicas: 1"] tolerationsRef [oneToleration] 0
  = Ok (["replicas: 1"; EmptyString; "tolerations:"; "  - key: dedicated";
         "    operator: Exists"], true, true).
Proof.
  refine (proj1 (absent_root_key_appended Yaml.Unmarshal Yaml.Marshal
                   ["replicas: 1"] "tolerations" "tolerations" [oneToleration] 0
                   oneToleration YNull _)).
  vm_compute. reflexivity.
Defined.


Lemma pod_spec_witness :
  isPodSpec "Pod" deployment 3 = negb (isUnderTemplateSection deployment 3)
  /\ isPodSpec "Deployment" deployment 3 = isUnderTemplateSection deployment 3.
Proof.
  pose proof (pod_spec_by_kind Yaml.Unmarshal podBlocks "Deployment" false false
                deployment 3 "    spec:" eq_refl eq_refl) as (_ & Hpod & Hother & _).
  split; [exact Hpod|]. apply Hother. discriminate.
Defined.

(** The scenario of the specification: the same manifest read as a Pod gets
    the block under its first [spec:], read as a Deployment under the
    [spec:] below [template:], and never under both. *)
Example same_manifest_two_kinds :
  Lines (injectInlinePodSpec Yaml.Unmarshal (Unlines deployment) podBlocks
           "Deployment" false false)
  = ["kind: Deployment"; "spec:"; "  template:"; "    spec:";
     "      tolerations:"; "      - key: dedicated"; "        operator: Exists";
     "      containers:"; "        - name: web"]
  /\ Lines (injectInlinePodSpec Yaml.Unmarshal (Unlines deployment) podBlocks
              "Pod" false false)
     = ["kind: Deployment"; "spec:"; "  template:"; "    spec:"; "      containers:";
        "        - name: web";
        "  tolerations:"; "  - key: dedicated"; "    operator: Exists"].
Proof. split; vm_compute; reflexivity. Qed.

(** C6: a Pod manifest with a second [spec:] line that is not nested under a
    [template:] section (the claim template of an ephemeral volume) gets the
    block under both [spec:] lines, not only under the first, the pod's
    own. *)
Theorem C6_pod_injected_under_two_spec_lines :
  isPodSpec "Pod" podWithClaimTemplate 1 = true
  /\ isPodSpec "Pod" podWithClaimTemplate 8 = true
  /\ Lines (injectInlinePodSpec Yaml.Unmarshal (Unlines podWithClaimTemplate) podBlocks
              "Pod" false false)
     = ["kind: Pod"; "spec:";
        "  tolerations:"; "  - key: dedicated"; "    operator: Exists";
        "  containers:"; "    - name: web"; "  volumes:";
        "    - name: scratch"; "      ephemeral:"; "        volumeClaimTemplate:";
        "          spec:"; "            storageClassName: fast";
        "            tolerations:"; "            - key: dedicated";
        "              operator: Exists"].
Proof. repeat split; vm_compute; reflexivity. Qed.

(** * Properties of the rest of the package *)

(** ** Strings *)

Lemma String_app_cons (x : ascii) (a b : string) : String x a +:+ b = String x (a +:+ b).
Proof. reflexivity. Qed.

Lemma String_app_nil_l (b : string) : EmptyString +:+ b = b.
Proof. reflexivity. Qed.

Lemma String_app_assoc (a b c : string) : (a +:+ b) +:+ c = a +:+ (b +:+ c).
Proof.
  induction a as [|x a IH]; [reflexivity|]. rewrite !String_app_cons. f_equal. exact IH.
Qed.

Lemma String_app_nil_r (a : string) : a +:+ EmptyString = a.
Proof. induction a as [|x a IH]; [reflexivity|]. rewrite String_app_cons. now rewrite IH. Qed.

Lemma String_rev_app_spec (s t : string) : String.rev_app s t = String.rev s +:+ t.
Proof.
  unfold String.rev. revert t. induction s as [|c s IH]; intros t; cbn; [reflexivity|].
  rewrite (IH (String c t)), (IH (String c EmptyString)), String_app_assoc. reflexivity.
Qed.

Lemma String_rev_cons (c : ascii) (s : string) :
  String.rev (String c s) = String.rev s +:+ String c EmptyString.
Proof. unfold String.rev at 1. cbn. apply String_rev_app_spec. Qed.

Lemma String_rev_snoc (s : string) (c : ascii) :
  String.rev (s +:+ String c EmptyString) = String c (String.rev s).
Proof.
  induction s as [|d s IH]; [reflexivity|].
  rewrite String_app_cons, !String_rev_cons, IH. reflexivity.
Qed.

Lemma String_rev_nil (s : string) : String.rev s = EmptyString -> s = EmptyString.
Proof.
  destruct s as [|c s]; [reflexivity|]. rewrite String_rev_cons.
  destruct (String.rev s); discriminate.
Qed.

Lemma TrimLeft_snoc (s : string) (c : ascii) :
  TrimLeft (s +:+ String c EmptyString)
  = match TrimLeft s with
    | EmptyString => if IsSpace c then EmptyString else String c EmptyString
    | t => t +:+ String c EmptyString
    end.
Proof.
  induction s as [|d s IH].
  - rewrite String_app_nil_l. cbn [TrimLeft]. destruct (IsSpace c); reflexivity.
  - rewrite String_app_cons. cbn [TrimLeft]. destruct (IsSpace d); [exact IH|reflexivity].
Qed.

(** [strings.TrimRight] by recursion on the text. *)
Lemma TrimRight_cons (c : ascii) (s : string) :
  TrimRight (String c s)
  = match TrimRight s with
    | EmptyString => if IsSpace c then EmptyString else String c EmptyString
    | t => String c t
    end.
Proof.
  unfold TrimRight. rewrite String_rev_cons, TrimLeft_snoc.
  destruct (TrimLeft (String.rev s)) as [|d t] eqn:E.
  - cbn. destruct (IsSpace c); reflexivity.
  - rewrite String_rev_snoc.
    destruct (String.rev (String d t)) eqn:E2; [|reflexivity].
    apply String_rev_nil in E2. discriminate.
Qed.

Lemma TrimRight_nil : TrimRight EmptyString = EmptyString.
Proof. reflexivity. Qed.

Lemma TrimLeft_spaces (n : nat) (s : string) : TrimLeft (spaces n +:+ s) = TrimLeft s.
Proof.
  induction n as [|n IH]; [reflexivity|]. cbn [spaces]. rewrite String_app_cons.
  cbn [TrimLeft]. exact IH.
Qed.

Lemma TrimSpace_spaces (n : nat) (s : string) : TrimSpace (spaces n +:+ s) = TrimSpace s.
Proof. unfold TrimSpace. now rewrite TrimLeft_spaces. Qed.

Lemma TrimLeft_first (s : string) (c : ascii) (t : string) :
  TrimLeft s = String c t -> IsSpace c = false.
Proof.
  induction s as [|d s IH]; cbn; [discriminate|].
  destruct (IsSpace d) eqn:E; [exact IH|]. intros [= <- _]. exact E.
Qed.

Lemma TrimLeft_fixed (c : ascii) (s : string) :
  IsSpace c = false -> TrimLeft (String c s) = String c s.
Proof. intros H. cbn. now rewrite H. Qed.

Lemma TrimLeft_idem (s : string) : TrimLeft (TrimLeft s) = TrimLeft s.
Proof.
  destruct (TrimLeft s) as [|c t] eqn:E; [reflexivity|].
  apply TrimLeft_fixed. exact (TrimLeft_first _ _ _ E).
Qed.

Lemma TrimRight_first (s : string) (c : ascii) (t : string) :
  TrimRight s = String c t -> exists u, s = String c u.
Proof.
  destruct s as [|d s]; [discriminate|]. rewrite TrimRight_cons.
  destruct (TrimRight s); [destruct (IsSpace d)|]; intros [= <- _]; eauto.
Qed.

(** The text [strings.TrimSpace] returns neither starts nor ends with white
    space. *)
Lemma TrimSpace_first (s : string) (c : ascii) (t : string) :
  TrimSpace s = String c t -> IsSpace c = false.
Proof.
  unfold TrimSpace. intros H. apply TrimRight_first in H as [u Hu].
  exact (TrimLeft_first _ _ _ Hu).
Qed.

Lemma TrimRight_idem (s : string) : TrimRight (TrimRight s) = TrimRight s.
Proof.
  induction s as [|c s IH]; [reflexivity|]. rewrite TrimRight_cons.
  destruct (TrimRight s) as [|d t] eqn:E.
  - destruct (IsSpace c) eqn:Ec; [reflexivity|].
    rewrite TrimRight_cons, TrimRight_nil, Ec. reflexivity.
  - rewrite TrimRight_cons, IH. reflexivity.
Qed.

Lemma TrimRight_keeps_first (c : ascii) (s : string) :
  IsSpace c = false -> exists t, TrimRight (String c s) = String c t.
Proof.
  intros Hc. rewrite TrimRight_cons. destruct (TrimRight s); [rewrite Hc|]; eauto.
Qed.

Lemma TrimSpace_idem (s : string) : TrimSpace (TrimSpace s) = TrimSpace s.
Proof.
  unfold TrimSpace. destruct (TrimLeft s) as [|c t] eqn:E; [reflexivity|].
  pose proof (TrimLeft_first _ _ _ E) as Hc.
  destruct (TrimRight_keeps_first c t Hc) as [u Hu]. rewrite Hu.
  rewrite (TrimLeft_fixed _ _ Hc), <- Hu. apply TrimRight_idem.
Qed.

Lemma ContainsChar_app (a b : string) (c : ascii) :
  ContainsChar (a +:+ b) c = ContainsChar a c || ContainsChar b c.
Proof.
  induction a as [|d a IH]; [reflexivity|]. rewrite String_app_cons.
  cbn [ContainsChar]. rewrite IH. now rewrite orb_assoc.
Qed.

Lemma ContainsChar_TrimLeft (s : string) (c : ascii) :
  ContainsChar (TrimLeft s) c = true -> ContainsChar s c = true.
Proof.
  induction s as [|d s IH]; cbn; [discriminate|].
  destruct (IsSpace d); [|exact id]. intros H. rewrite (IH H). apply orb_true_r.
Qed.

Lemma ContainsChar_TrimRight (s : string) (c : ascii) :
  ContainsChar (TrimRight s) c = true -> ContainsChar s c = true.
Proof.
  induction s as [|d s IH]; [discriminate|]. rewrite TrimRight_cons.
  destruct (TrimRight s) as [|e t].
  - destruct (IsSpace d); cbn; [discriminate|]. rewrite orb_false_r. intros ->. reflexivity.
  - cbn [ContainsChar] in *. destruct (Ascii.eqb d c); [reflexivity|]. cbn. exact IH.
Qed.

(** Trimming adds no byte. *)
Lemma ContainsChar_TrimSpace (s : string) (c : ascii) :
  ContainsChar (TrimSpace s) c = true -> ContainsChar s c = true.
Proof.
  unfold TrimSpace. intros H. now apply ContainsChar_TrimLeft, ContainsChar_TrimRight.
Qed.

(** ** The line helpers and the path stack *)

Lemma PopToIndent_split (ps : PathStack) (indent : Z) :
  exists popped,
    ps = popped ++ PopToIndent ps indent
    /\ Forall (fun level => indent <= LIndent level) popped
    /\ match PopToIndent ps indent with
       | [] => True
       | top :: _ => LIndent top < indent
       end.
Proof.
  induction ps as [|top below (popped & Heq & Hpopped & Htop)]; cbn [PopToIndent].
  - exists []. repeat split; constructor.
  - destruct (indent <=? LIndent top) eqn:E.
    + exists (top :: popped). repeat split.
      * cbn. now f_equal.
      * constructor; [lia|exact Hpopped].
      * exact Htop.
    + exists []. repeat split; [constructor|lia].
Qed.

Lemma nested_app_r (upper lower : PathStack) : nested (upper ++ lower) -> nested lower.
Proof. induction upper as [|top upper IH]; cbn; [exact id|]. intros [_ H]. now apply IH. Qed.

(** Popping to an indentation and pushing a key at that indentation, which
    is what every scan of the package does at a key line, removes exactly the
    levels indented as deep or deeper and keeps the stack strictly nested; the
    path then ends with the pushed key. *)
Theorem PathStack_pop_push_nested (ps : PathStack) (indent : Z) (key : string) :
  nested ps ->
  nested (Push (PopToIndent ps indent) indent key)
  /\ Forall (fun level => LIndent level < indent) (PopToIndent ps indent)
  /\ (exists popped, ps = popped ++ PopToIndent ps indent
                     /\ Forall (fun level => indent <= LIndent level) popped)
  /\ CurrentPath (Push (PopToIndent ps indent) indent key)
     = CurrentPath (PopToIndent ps indent) ++ [key].
Proof.
  intros Hnested.
  destruct (PopToIndent_split ps indent) as (popped & Heq & Hpopped & Htop).
  assert (Hkept : nested (PopToIndent ps indent)).
  { rewrite Heq in Hnested. exact (nested_app_r _ _ Hnested). }
  assert (Hbelow : Forall (fun level => LIndent level < indent) (PopToIndent ps indent)).
  { destruct (PopToIndent ps indent) as [|top below]; [constructor|].
    destruct Hkept as [Hall _]. constructor; [exact Htop|].
    eapply Forall_impl; [exact Hall|]. cbn. intros level Hlevel. lia. }
  split; [|split; [|split]].
  - split; assumption.
  - exact Hbelow.
  - exists popped. split; assumption.
  - unfold CurrentPath, Push. cbn. reflexivity.
Qed.

Lemma PathStack_pop_push_witness :
  CurrentPath (Push (PopToIndent [mkPathLevel 4 "key"; mkPathLevel 2 "tolerations";
                                  mkPathLevel 0 "webhook"] 2) 2 "affinity")
  = ["webhook"; "affinity"].
Proof.
  refine (eq_trans (proj2 (proj2 (proj2 (PathStack_pop_push_nested
            [mkPathLevel 4 "key"; mkPathLevel 2 "tolerations"; mkPathLevel 0 "webhook"]
            2 "affinity" _)))) _).
  - cbn. repeat constructor.
  - reflexivity.
Defined.

Lemma collectChildren_firstAtIndent (rest : list string) (i ind : Z) :
  let e := default (i + Z.of_nat (length rest)) (firstAtIndent rest i ind) in
  collectChildren rest i ind = (take (Z.to_nat (e - i)) rest, e)
  /\ i <= e <= i + Z.of_nat (length rest)
  /\ Forall (fun line => IsEmptyOrComment line = true \/ ind < GetIndentation line)
            (take (Z.to_nat (e - i)) rest)
  /\ (e < i + Z.of_nat (length rest) ->
      exists line, rest !! Z.to_nat (e - i) = Some line
                   /\ IsEmptyOrComment line = false /\ GetIndentation line <= ind).
Proof.
  revert i. induction rest as [|line rest IH]; intros i; cbn [collectChildren firstAtIndent].
  - cbn [from_option id length]. replace (i + Z.of_nat 0) with i by lia.
    replace (i - i) with 0 by lia. cbn. repeat split; try lia. constructor.
  - specialize (IH (i + 1)). cbv zeta in IH.
    destruct IH as (Hcollect & Hbound & Hall & Hstop).
    set (e := default (i + 1 + Z.of_nat (length rest)) (firstAtIndent rest (i + 1) ind)) in *.
    assert (Hlen : i + Z.of_nat (length (line :: rest)) = i + 1 + Z.of_nat (length rest))
      by (cbn [length]; lia).
    assert (Hnext : Z.to_nat (e - i) = S (Z.to_nat (e - (i + 1)))) by lia.
    assert (Hkeep :
      (IsEmptyOrComment line = true \/ ind < GetIndentation line) ->
      (let (children, e0) := collectChildren rest (i + 1) ind in (line :: children, e0))
      = (take (Z.to_nat (e - i)) (line :: rest), e)
      /\ i <= e <= i + 1 + Z.of_nat (length rest)
      /\ Forall (fun line => IsEmptyOrComment line = true \/ ind < GetIndentation line)
                (take (Z.to_nat (e - i)) (line :: rest))
      /\ (e < i + 1 + Z.of_nat (length rest) ->
          exists l, (line :: rest) !! Z.to_nat (e - i) = Some l
                    /\ IsEmptyOrComment l = false /\ GetIndentation l <= ind)).
    { intros Hline. rewrite Hcollect, Hnext. cbn [take lookup list_lookup].
      split; [reflexivity|]. split; [lia|]. split; [constructor; assumption|].
      intros Hlt. apply Hstop. lia. }
    destruct (IsEmptyOrComment line) eqn:Eblank;
      [|destruct (GetIndentation line <=? ind) eqn:Eind]; cbv zeta.
    + rewrite Hlen. fold e. apply Hkeep. now left.
    + cbn [from_option id]. replace (Z.to_nat (i - i)) with O by lia.
      cbn [take lookup list_lookup].
      split; [reflexivity|]. split; [lia|]. split; [constructor|].
      intros _. exists line. split; [reflexivity|]. split; [exact Eblank|lia].
    + rewrite Hlen. fold e. apply Hkeep. right. lia.
Qed.

(** [CollectChildLines] and [SkipChildLines] stop at the same line: from a
    line of the document, the children collected are exactly the lines up to
    the index [SkipChildLines] returns; each of them is blank, a comment or
    indented deeper than the current line, and the line they stop at, if there
    is one, is a content line indented no deeper. *)
Theorem CollectChildLines_ends_at_SkipChildLines (lines : list string)
    (currentIndex currentIndent : Z) :
  -1 <= currentIndex < Z.of_nat (length lines) ->
  exists e,
    SkipChildLines lines currentIndex currentIndent = Ok e
    /\ currentIndex < e <= Z.of_nat (length lines)
    /\ CollectChildLines lines currentIndex currentIndent
       = Ok (take (Z.to_nat (e - (currentIndex + 1)))
                  (drop (Z.to_nat (currentIndex + 1)) lines), e)
    /\ Forall (fun line => IsEmptyOrComment line = true
                           \/ currentIndent < GetIndentation line)
              (take (Z.to_nat (e - (currentIndex + 1)))
                    (drop (Z.to_nat (currentIndex + 1)) lines))
    /\ (e < Z.of_nat (length lines) ->
        exists line, lines !! Z.to_nat e = Some line
                     /\ IsEmptyOrComment line = false
                     /\ GetIndentation line <= currentIndent).
Proof.
  intros Hrange. unfold SkipChildLines, CollectChildLines.
  destruct (currentIndex + 1 <? 0) eqn:E; [lia|].
  set (start := currentIndex + 1) in *.
  set (rest := drop (Z.to_nat start) lines).
  assert (Hlen : start + Z.of_nat (length rest) = Z.of_nat (length lines)).
  { unfold rest. rewrite length_drop. lia. }
  destruct (collectChildren_firstAtIndent rest start currentIndent)
    as (Hcollect & Hbound & Hall & Hstop).
  rewrite Hlen in Hcollect, Hbound, Hall, Hstop.
  eexists. split; [reflexivity|]. split; [unfold start in *; lia|].
  split; [now rewrite Hcollect|].
  split; [exact Hall|].
  intros Hlt. destruct (Hstop Hlt) as (line & Hline & Hrest). exists line.
  split; [|exact Hrest]. unfold rest in Hline. rewrite lookup_drop in Hline.
  rewrite <- Hline. f_equal. subst rest start. lia.
Qed.

Lemma CollectChildLines_witness :
  CollectChildLines ["webhook:"; "  replicas: 1"; EmptyString; "  # port"; "other: 2"] 0 0
  = Ok (["  replicas: 1"; EmptyString; "  # port"], 4).
Proof.
  destruct (CollectChildLines_ends_at_SkipChildLines
              ["webhook:"; "  replicas: 1"; EmptyString; "  # port"; "other: 2"] 0 0)
    as (e & Hskip & _ & Hcollect & _).
  - cbn. lia.
  - rewrite Hcollect. injection Hskip as <-. vm_compute. reflexivity.
Defined.

Lemma GetIndentationNat_spaces (n : nat) (s : string) :
  GetIndentationNat (spaces n +:+ s) = (n + GetIndentationNat s)%nat.
Proof.
  induction n as [|n IH]; [reflexivity|]. cbn [spaces]. rewrite String_app_cons.
  cbn [GetIndentationNat]. cbn. now rewrite IH.
Qed.

Lemma GetIndentation_spaces (n : nat) (s : string) :
  GetIndentation (spaces n +:+ s) = Z.of_nat n + GetIndentation s.
Proof. unfold GetIndentation. rewrite GetIndentationNat_spaces. lia. Qed.

Lemma IsEmptyOrComment_spaces (n : nat) (s : string) :
  IsEmptyOrComment (spaces n +:+ s) = IsEmptyOrComment s.
Proof. unfold IsEmptyOrComment. now rewrite TrimSpace_spaces. Qed.

Lemma spaces_add (a b : nat) : spaces a +:+ spaces b = spaces (a + b).
Proof.
  induction a as [|a IH]; [reflexivity|]. cbn [spaces Nat.add].
  rewrite String_app_cons. now rewrite IH.
Qed.

(** [IndentLines] panics on a negative count and on nothing else.  Otherwise
    it keeps the number of lines and the trimmed text of every line, leaves
    blank lines and comments as they are and moves every other line to the
    right by exactly [count] columns. *)
Theorem IndentLines_moves_content_lines (lines : list string) (count : Z) :
  (count < 0 -> IndentLines lines count = Panic)
  /\ (0 <= count ->
      exists out,
        IndentLines lines count = Ok out
        /\ length out = length lines
        /\ forall i line, lines !! i = Some line ->
             exists moved,
               out !! i = Some moved
               /\ TrimSpace moved = TrimSpace line
               /\ if IsEmptyOrComment line then moved = line
                  else GetIndentation moved = count + GetIndentation line).
Proof.
  unfold IndentLines, RepeatSpace. split; intros Hcount.
  - destruct (count <? 0) eqn:E; [reflexivity|lia].
  - destruct (count <? 0) eqn:E; [lia|]. cbn [obind].
    eexists. split; [reflexivity|]. split; [apply length_map|].
    intros i line Hline. rewrite list_lookup_fmap, Hline. cbn [fmap option_fmap option_map].
    eexists. split; [reflexivity|].
    destruct (IsEmptyOrComment line); [split; reflexivity|].
    split; [apply TrimSpace_spaces|]. rewrite GetIndentation_spaces. lia.
Qed.

(** Indenting by [a] and then by [b] is indenting by [a + b]. *)
Theorem IndentLines_compose (lines : list string) (a b : Z) :
  0 <= a -> 0 <= b ->
  (do once <- IndentLines lines a; IndentLines once b) = IndentLines lines (a + b).
Proof.
  intros Ha Hb. unfold IndentLines, RepeatSpace.
  destruct (a <? 0) eqn:Ea; [lia|]. destruct (b <? 0) eqn:Eb; [lia|].
  destruct (a + b <? 0) eqn:Eab; [lia|]. cbn [obind]. f_equal.
  rewrite map_map. apply map_ext. intros line.
  destruct (IsEmptyOrComment line) eqn:E; [now rewrite E|].
  rewrite IsEmptyOrComment_spaces, E, <- String_app_assoc, spaces_add.
  f_equal. f_equal. lia.
Qed.

Lemma IndentLines_compose_witness :
  (do once <- IndentLines ["a: 1"; "# note"; "  b: 2"] 2; IndentLines once 4)
  = Ok ["      a: 1"; "# note"; "        b: 2"].
Proof.
  rewrite (IndentLines_compose ["a: 1"; "# note"; "  b: 2"] 2 4); [|lia|lia].
  vm_compute. reflexivity.
Defined.

Lemma Cut_app_sep (a b : string) (c : ascii) :
  ContainsChar a c = false -> Cut (a +:+ String c b) c = Some (a, b).
Proof.
  induction a as [|d a IH]; intros Hfree.
  - rewrite String_app_nil_l. cbn [Cut]. now rewrite Ascii.eqb_refl.
  - cbn [ContainsChar] in Hfree. apply orb_false_elim in Hfree as [Hd Ha].
    rewrite String_app_cons. cbn [Cut]. rewrite Hd, (IH Ha). reflexivity.
Qed.

Lemma Cut_Some_inv (s : string) (c : ascii) (a b : string) :
  Cut s c = Some (a, b) -> s = a +:+ String c b /\ ContainsChar a c = false.
Proof.
  revert a. induction s as [|d s IH]; intros a; cbn [Cut]; [discriminate|].
  destruct (Ascii.eqb d c) eqn:E.
  - intros [= <- <-]. apply Ascii.eqb_eq in E as ->. split; reflexivity.
  - destruct (Cut s c) as [[a' b']|]; [|discriminate]. intros [= <- <-].
    destruct (IH a' eq_refl) as [-> Hfree]. split; [reflexivity|].
    cbn [ContainsChar]. now rewrite E, Hfree.
Qed.

Lemma Cut_None (s : string) (c : ascii) :
  Cut s c = None <-> ContainsChar s c = false.
Proof.
  induction s as [|d s IH]; cbn [Cut ContainsChar]; [tauto|].
  destruct (Ascii.eqb d c); cbn [orb]; [split; discriminate|].
  destruct (Cut s c) as [[a b]|]; [|tauto].
  split; [discriminate|]. intros H. apply IH in H. discriminate.
Qed.

Lemma TrimRight_spaces : forall m, TrimRight (spaces m) = EmptyString.
Proof.
  induction m as [|m IH]; [reflexivity|]. cbn [spaces]. rewrite TrimRight_cons, IH.
  reflexivity.
Qed.

Lemma TrimRight_app_spaces (a : string) (m : nat) :
  TrimRight (a +:+ spaces m) = TrimRight a.
Proof.
  induction a as [|c a IH].
  - rewrite String_app_nil_l. apply TrimRight_spaces.
  - rewrite String_app_cons, !TrimRight_cons, IH. reflexivity.
Qed.

Lemma TrimRight_app (a b : string) :
  TrimRight b <> EmptyString -> TrimRight (a +:+ b) = a +:+ TrimRight b.
Proof.
  intros Hb. induction a as [|c a IH]; [reflexivity|].
  rewrite !String_app_cons, TrimRight_cons, IH.
  destruct (a +:+ TrimRight b) eqn:E; [|reflexivity].
  destruct a; [|discriminate]. rewrite String_app_nil_l in E. contradiction.
Qed.

(** A trimmed text is fixed by both halves of [strings.TrimSpace]. *)
Lemma TrimSpace_fixed_halves (s : string) :
  TrimSpace s = s -> TrimLeft s = s /\ TrimRight s = s.
Proof.
  intros H. assert (Hleft : TrimLeft s = s).
  { destruct s as [|c t]; [reflexivity|].
    apply TrimLeft_fixed. exact (TrimSpace_first _ _ _ H). }
  split; [exact Hleft|]. unfold TrimSpace in H. now rewrite Hleft in H.
Qed.

Lemma HasPrefix_hash_cons (c : ascii) (s : string) :
  HasPrefix (String c s) "#" = Ascii.eqb c "#".
Proof.
  unfold HasPrefix. cbn [String.prefix].
  destruct (ascii_dec "#" c) as [<-|Hne]; [destruct s; reflexivity|].
  symmetry. apply Ascii.eqb_neq. congruence.
Qed.

Lemma GetIndentationNat_nonspace (c : ascii) (s : string) :
  c <> " "%char -> GetIndentationNat (String c s) = O.
Proof. intros H. cbn. apply Ascii.eqb_neq in H. now rewrite H. Qed.

Lemma IsSpace_space : forall c, IsSpace c = false -> c <> " "%char.
Proof. intros c H ->. discriminate. Qed.

(** What [ParseLine] reads from a key line as the package writes one:
    indentation, key, colon, spacing, value. *)
Lemma ParseLine_key_line (n m : nat) (key value : string) :
  TrimSpace key = key ->
  ContainsChar key ":" = false ->
  HasPrefix key "#" = false ->
  TrimSpace value = value ->
  let yl := ParseLine (spaces n +:+ key +:+ ":" +:+ spaces m +:+ value) in
  Indent yl = Z.of_nat n /\ Key yl = key /\ Value yl = value
  /\ HasColon yl = true /\ IsEmpty yl = false /\ IsComment yl = false
  /\ ValueIndent yl = (if String_eqb value EmptyString then 0 else Z.of_nat m)
  /\ Trimmed yl = key +:+ ":" +:+ (if String_eqb value EmptyString then EmptyString
                                   else spaces m +:+ value).
Proof.
  intros Hkey Hcolon Hhash Hvalue.
  set (tailv := if String_eqb value EmptyString then EmptyString else spaces m +:+ value).
  destruct (TrimSpace_fixed_halves _ Hkey) as [HkeyL HkeyR].
  destruct (TrimSpace_fixed_halves _ Hvalue) as [HvalueL HvalueR].
  assert (Hstart : exists c rest, key +:+ ":" +:+ spaces m +:+ value = String c rest
                                  /\ IsSpace c = false).
  { destruct key as [|c k].
    - exists ":"%char. eexists. split; reflexivity.
    - exists c. eexists. split; [reflexivity|]. exact (TrimSpace_first _ _ _ Hkey). }
  assert (Htrim : TrimSpace (spaces n +:+ key +:+ ":" +:+ spaces m +:+ value)
                  = key +:+ ":" +:+ tailv).
  { rewrite TrimSpace_spaces. unfold TrimSpace.
    destruct Hstart as (c & rest & Heq & Hc). rewrite Heq, (TrimLeft_fixed _ _ Hc), <- Heq.
    unfold tailv, String_eqb. destruct value as [|v value'].
    - rewrite bool_decide_eq_true_2 by reflexivity.
      rewrite String_app_nil_r.
      change (key +:+ ":" +:+ spaces m) with (key +:+ (":" +:+ spaces m)).
      rewrite <- String_app_assoc, TrimRight_app_spaces.
      rewrite TrimRight_app by discriminate. reflexivity.
    - rewrite bool_decide_eq_false_2 by discriminate.
      rewrite <- !String_app_assoc. rewrite TrimRight_app by (rewrite HvalueR; discriminate).
      now rewrite HvalueR. }
  assert (Hcut : Cut (key +:+ ":" +:+ tailv) ":" = Some (key, tailv))
    by (apply Cut_app_sep; exact Hcolon).
  assert (Hhas : ContainsChar (key +:+ ":" +:+ tailv) ":" = true).
  { rewrite ContainsChar_app. cbn. apply orb_true_r. }
  assert (Hcomment : HasPrefix (key +:+ ":" +:+ tailv) "#" = false).
  { destruct key as [|c k]; [reflexivity|].
    rewrite String_app_cons, HasPrefix_hash_cons.
    now rewrite HasPrefix_hash_cons in Hhash. }
  assert (Hindent : GetIndentation (spaces n +:+ key +:+ ":" +:+ spaces m +:+ value)
                    = Z.of_nat n).
  { rewrite GetIndentation_spaces. destruct Hstart as (c & rest & -> & Hc).
    unfold GetIndentation. rewrite GetIndentationNat_nonspace by now apply IsSpace_space.
    lia. }
  cbv zeta. unfold ParseLine. cbv zeta.
  rewrite Htrim, Hindent, Hhas, Hcomment, Hcut. cbn [andb negb fst snd Indent Key Value
    HasColon IsEmpty IsComment ValueIndent Trimmed].
  split; [reflexivity|]. split; [exact Hkey|].
  assert (Htailv : TrimSpace tailv = value /\
            Z.of_nat (String.length tailv) - Z.of_nat (String.length (TrimLeft tailv))
            = (if String_eqb value EmptyString then 0 else Z.of_nat m)).
  { unfold tailv, String_eqb. destruct value as [|v value'].
    - rewrite bool_decide_eq_true_2 by reflexivity. split; reflexivity.
    - rewrite bool_decide_eq_false_2 by discriminate.
      rewrite TrimSpace_spaces, TrimLeft_spaces, HvalueL, String_length_app.
      split; [exact Hvalue|].
      assert (String.length (spaces m) = m) as ->; [|lia].
      clear. induction m as [|m IH]; [reflexivity|]. cbn. now rewrite IH. }
  destruct Htailv as [Hv Hvi].
  split; [exact Hv|]. split; [reflexivity|].
  split.
  { unfold String_eqb. apply bool_decide_eq_false_2.
    destruct key; discriminate. }
  split; [reflexivity|]. split; [exact Hvi|reflexivity].
Qed.

Lemma TrimRight_suffix (a b : string) :
  TrimRight (a +:+ b) = a +:+ b -> TrimRight b = b.
Proof.
  induction a as [|c a IH]; [exact id|].
  rewrite String_app_cons, TrimRight_cons.
  destruct (TrimRight (a +:+ b)) as [|d t] eqn:E.
  - destruct (IsSpace c); [discriminate|]. intros [= H].
    destruct a; [|discriminate]. rewrite String_app_nil_l in H. now subst b.
  - intros [= H]. apply IH. exact H.
Qed.

Lemma TrimLeft_nil_TrimRight (s : string) :
  TrimLeft s = EmptyString -> TrimRight s = EmptyString.
Proof.
  induction s as [|c s IH]; [reflexivity|]. cbn [TrimLeft].
  destruct (IsSpace c) eqn:E; [|discriminate]. intros H.
  rewrite TrimRight_cons, (IH H), E. reflexivity.
Qed.

Lemma TrimLeft_suffix (s : string) : exists a, s = a +:+ TrimLeft s.
Proof.
  induction s as [|c s [a IH]]; [now exists EmptyString|]. cbn [TrimLeft].
  destruct (IsSpace c); [|now exists EmptyString].
  exists (String c a). rewrite String_app_cons. now f_equal.
Qed.

Lemma TrimLeft_length (s : string) : (String.length (TrimLeft s) <= String.length s)%nat.
Proof.
  induction s as [|c s IH]; [reflexivity|]. cbn [TrimLeft].
  destruct (IsSpace c); cbn [String.length]; lia.
Qed.

(** A right-trimmed text that trims to nothing is empty. *)
Lemma TrimSpace_nil_of_right_trimmed (s : string) :
  TrimRight s = s -> TrimSpace s = EmptyString -> s = EmptyString.
Proof.
  intros Hright Hnil. unfold TrimSpace in Hnil.
  destruct (TrimLeft_suffix s) as [a Ha].
  assert (Hsuffix : TrimRight (TrimLeft s) = TrimLeft s).
  { apply (TrimRight_suffix a). now rewrite <- Ha. }
  rewrite Hsuffix in Hnil. apply TrimLeft_nil_TrimRight in Hnil. congruence.
Qed.

Lemma TrimSpace_right_trimmed (s : string) : TrimRight (TrimSpace s) = TrimSpace s.
Proof. unfold TrimSpace. apply TrimRight_idem. Qed.

(** The key and the value [ParseLine] reads from a line that is no comment:
    both are trimmed, the key holds no colon and does not start a comment,
    and an empty value has no spacing before it. *)
Lemma ParseLine_key_value_shape (line : string) :
  let yl := ParseLine line in
  IsComment yl = false ->
  TrimSpace (Key yl) = Key yl
  /\ ContainsChar (Key yl) ":" = false
  /\ HasPrefix (Key yl) "#" = false
  /\ TrimSpace (Value yl) = Value yl
  /\ 0 <= ValueIndent yl
  /\ (Value yl = EmptyString -> ValueIndent yl = 0).
Proof.
  cbv zeta. unfold ParseLine. cbv zeta.
  cbn [IsComment Key Value ValueIndent]. intros Hcomment. rewrite Hcomment.
  destruct (ContainsChar (TrimSpace line) ":") eqn:Hcolon; cbn [andb negb];
    [|cbn; repeat split; try reflexivity; lia].
  destruct (Cut (TrimSpace line) ":") as [[k v]|] eqn:Hcut;
    [|cbn; repeat split; try reflexivity; lia].
  cbn [fst snd]. apply Cut_Some_inv in Hcut as [Hline Hfree].
  split; [apply TrimSpace_idem|].
  split.
  { destruct (ContainsChar (TrimSpace k) ":") eqn:E; [|reflexivity].
    apply ContainsChar_TrimSpace in E. congruence. }
  split.
  { destruct k as [|c k]; [reflexivity|].
    rewrite Hline, String_app_cons, HasPrefix_hash_cons in Hcomment.
    assert (Hc : IsSpace c = false).
    { apply (TrimSpace_first line c (k +:+ String ":" v)). now rewrite Hline. }
    unfold TrimSpace. rewrite (TrimLeft_fixed _ _ Hc).
    destruct (TrimRight_keeps_first c k Hc) as [t ->].
    now rewrite HasPrefix_hash_cons. }
  split; [apply TrimSpace_idem|].
  split; [pose proof (TrimLeft_length v); lia|].
  intros Hnil.
  assert (Hv : TrimRight v = v).
  { apply (TrimRight_suffix (k +:+ ":")). rewrite String_app_assoc.
    change (":" +:+ v) with (String ":" v). rewrite <- Hline.
    apply TrimSpace_right_trimmed. }
  rewrite (TrimSpace_nil_of_right_trimmed v Hv Hnil). reflexivity.
Qed.

(** A key line survives its own normal form: writing the indentation, the
    key, a colon, the spacing and the value [ParseLine] has read from a key
    line gives a line that parses to the same indentation, key, value and
    spacing; and the bare key line the patch engine writes in its place,
    indentation, key and colon, parses to the same indentation and key with
    an empty value. *)
Theorem ParseLine_normal_form_stable (line : string) :
  let yl := ParseLine line in
  HasColon yl = true ->
  IsComment yl = false ->
  let again :=
    ParseLine (spaces (Z.to_nat (Indent yl)) +:+ Key yl +:+ ":"
               +:+ spaces (Z.to_nat (ValueIndent yl)) +:+ Value yl) in
  let bare := ParseLine (spaces (Z.to_nat (Indent yl)) +:+ Key yl +:+ ":") in
  (Indent again = Indent yl /\ Key again = Key yl /\ Value again = Value yl
   /\ ValueIndent again = ValueIndent yl /\ HasColon again = HasColon yl
   /\ IsComment again = IsComment yl)
  /\ (Indent bare = Indent yl /\ Key bare = Key yl /\ Value bare = EmptyString
      /\ HasColon bare = HasColon yl /\ IsComment bare = IsComment yl).
Proof.
  intros yl Hcolon Hcomment.
  destruct (ParseLine_key_value_shape line Hcomment)
    as (Hkey & Hfree & Hhash & Hvalue & Hvi & Hvnil). fold yl in Hkey, Hfree, Hhash, Hvalue, Hvi, Hvnil.
  assert (Hindent : Z.of_nat (Z.to_nat (Indent yl)) = Indent yl).
  { pose proof (GetIndentation_nonneg line).
    change (Indent yl) with (GetIndentation line). lia. }
  split.
  - destruct (ParseLine_key_line (Z.to_nat (Indent yl)) (Z.to_nat (ValueIndent yl))
                (Key yl) (Value yl) Hkey Hfree Hhash Hvalue)
      as (Hi & Hk & Hv & Hc & _ & Hcm & Hvind & _).
    cbv zeta. rewrite Hi, Hk, Hv, Hc, Hcm, Hvind, Hcolon, Hcomment.
    repeat split; try reflexivity; [exact Hindent|].
    unfold String_eqb. destruct (decide (Value yl = EmptyString)) as [E|E].
    + rewrite bool_decide_eq_true_2 by exact E. now rewrite Hvnil.
    + rewrite bool_decide_eq_false_2 by exact E. lia.
  - destruct (ParseLine_key_line (Z.to_nat (Indent yl)) O (Key yl) EmptyString
                Hkey Hfree Hhash eq_refl)
      as (Hi & Hk & Hv & Hc & _ & Hcm & _).
    cbn [spaces] in Hi, Hk, Hv, Hc, Hcm.
    rewrite !String_app_nil_l, !String_app_nil_r in *.
    cbv zeta. rewrite Hi, Hk, Hv, Hc, Hcm, Hcolon, Hcomment.
    repeat split; try reflexivity. exact Hindent.
Qed.

Lemma ParseLine_normal_form_witness :
  Value (ParseLine ("  tolerations:" +:+ spaces 3 +:+ "[]")) = "[]"
  /\ Key (ParseLine "  tolerations:") = "tolerations".
Proof.
  destruct (ParseLine_normal_form_stable "  tolerations:   []   " eq_refl eq_refl)
    as [(_ & _ & Hvalue & _) (_ & Hkey & _)].
  split; [exact Hvalue|exact Hkey].
Defined.

(** ** References to values *)

Lemma Split_not_nil (s : string) (c : ascii) : Split s c <> [].
Proof.
  destruct s as [|d s]; cbn [Split]; [discriminate|].
  destruct (Ascii.eqb d c); [discriminate|]. destruct (Split s c); discriminate.
Qed.

(** [strings.Join] undoes [strings.Split]. *)
Lemma Join_Split (s : string) (c : ascii) : Join (Split s c) (String c EmptyString) = s.
Proof.
  induction s as [|d s IH]; [reflexivity|]. cbn [Split].
  destruct (Ascii.eqb d c) eqn:E.
  - apply Ascii.eqb_eq in E as ->. pose proof (Split_not_nil s c) as Hne.
    destruct (Split s c) as [|p ps] eqn:Es; [contradiction|].
    change (Join (EmptyString :: p :: ps) (String c EmptyString))
      with (EmptyString +:+ String c EmptyString +:+ Join (p :: ps) (String c EmptyString)).
    rewrite IH. reflexivity.
  - pose proof (Split_not_nil s c) as Hne.
    destruct (Split s c) as [|p ps] eqn:Es; [contradiction|].
    destruct ps as [|q qs].
    + cbn [Join] in *. now rewrite IH.
    + change (Join (String d p :: q :: qs) (String c EmptyString))
        with (String d p +:+ String c EmptyString +:+ Join (q :: qs) (String c EmptyString)).
      change (Join (p :: q :: qs) (String c EmptyString))
        with (p +:+ String c EmptyString +:+ Join (q :: qs) (String c EmptyString)) in IH.
      rewrite String_app_cons. now rewrite IH.
Qed.

Lemma Split_Forall_free (s : string) (c : ascii) :
  Forall (fun piece => ContainsChar piece c = false) (Split s c).
Proof.
  induction s as [|d s IH]; cbn [Split]; [repeat constructor|].
  destruct (Ascii.eqb d c) eqn:E; [constructor; [reflexivity|exact IH]|].
  destruct (Split s c) as [|p ps]; [repeat constructor; cbn; now rewrite E|].
  inversion IH as [|? ? Hp Hps]; subst. constructor; [|exact Hps].
  cbn [ContainsChar]. now rewrite E, Hp.
Qed.

Lemma pathPrefix_free (s : string) (ch : ascii) :
  isPathDelimiter ch = true -> ContainsChar (pathPrefix s) ch = false.
Proof.
  intros Hch. induction s as [|d s IH]; [reflexivity|]. cbn [pathPrefix].
  destruct (isPathDelimiter d) eqn:E; [reflexivity|].
  cbn [ContainsChar]. rewrite IH, orb_false_r.
  apply Ascii.eqb_neq. intros ->. congruence.
Qed.

Lemma parseValuePath_parts (pathStr : string) :
  let ref := parseValuePath pathStr in
  Join (Path ref) "." = pathStr
  /\ last (Path ref) = Some (RefKey ref)
  /\ Forall (fun part => ContainsChar part "." = false) (Path ref).
Proof.
  cbv zeta. unfold parseValuePath.
  pose proof (Split_not_nil pathStr ".") as Hne.
  destruct (last (Split pathStr ".")) as [key|] eqn:Hlast.
  - cbn [Path RefKey]. split; [apply Join_Split|]. split; [exact Hlast|].
    apply Split_Forall_free.
  - apply last_None in Hlast. contradiction.
Qed.

(** [parseValuePath] splits at the dots and nothing else: the path joined by
    dots is the text again, the path is never empty, the key is its last
    element and no element holds a dot. *)
Theorem parseValuePath_round_trip (pathStr : string) :
  let ref := parseValuePath pathStr in
  Join (Path ref) "." = pathStr
  /\ last (Path ref) = Some (RefKey ref)
  /\ Forall (fun part => ContainsChar part "." = false) (Path ref).
Proof. exact (parseValuePath_parts pathStr). Qed.

Lemma extractValuePath_shape (s : string) :
  (forall ch, isPathDelimiter ch = true -> ContainsChar (extractValuePath s) ch = false)
  /\ TrimSpace (extractValuePath s) = extractValuePath s.
Proof.
  unfold extractValuePath. split; [|apply TrimSpace_idem].
  intros ch Hch. destruct (ContainsChar (TrimSpace (pathPrefix s)) ch) eqn:E; [|reflexivity].
  apply ContainsChar_TrimSpace in E. now rewrite pathPrefix_free in E.
Qed.

(** [extractValuePath] returns a text free of the five delimiters (space,
    closing brace, closing parenthesis, bar and comma) and of white space at
    its ends. *)
Theorem extractValuePath_free_of_delimiters (s : string) :
  (forall ch, isPathDelimiter ch = true -> ContainsChar (extractValuePath s) ch = false)
  /\ TrimSpace (extractValuePath s) = extractValuePath s.
Proof. exact (extractValuePath_shape s). Qed.

Lemma Split_ContainsChar (s : string) (c ch : ascii) (piece : string) :
  piece ∈ Split s c -> ContainsChar piece ch = true -> ContainsChar s ch = true.
Proof.
  revert piece. induction s as [|d s IH]; intros piece; cbn [Split].
  - intros Hin%list_elem_of_singleton. subst piece. discriminate.
  - destruct (Ascii.eqb d c) eqn:E.
    + intros [->|Hin]%elem_of_cons; [discriminate|]. intros H.
      cbn [ContainsChar]. rewrite (IH _ Hin H). apply orb_true_r.
    + destruct (Split s c) as [|p ps] eqn:Es.
      * intros Hin%list_elem_of_singleton. subst piece. cbn. rewrite orb_false_r.
        intros ->. reflexivity.
      * intros [->|Hin]%elem_of_cons; cbn [ContainsChar].
        -- destruct (Ascii.eqb d ch); [reflexivity|]. cbn [orb]. intros H.
           apply (IH p); [apply list_elem_of_here|exact H].
        -- intros H. rewrite (IH piece); [apply orb_true_r| |exact H].
           now apply list_elem_of_further.
Qed.

Lemma parseValuePath_wellFormed (keyPath : string) :
  (forall ch, isPathDelimiter ch = true -> ContainsChar keyPath ch = false) ->
  RefKey (parseValuePath keyPath) <> EmptyString ->
  wellFormedReference (parseValuePath keyPath).
Proof.
  intros Hfree Hkey.
  destruct (parseValuePath_parts keyPath) as (Hjoin & Hlast & Hdots).
  split; [exact Hkey|]. split; [exact Hlast|].
  apply Forall_forall. intros part Hpart ch [Hch| ->].
  - destruct (ContainsChar part ch) eqn:E; [|reflexivity].
    assert (Hsplit : Path (parseValuePath keyPath) = Split keyPath ".").
    { unfold parseValuePath. pose proof (Split_not_nil keyPath ".") as Hne.
      destruct (last (Split keyPath ".")) eqn:El; [reflexivity|].
      apply last_None in El. contradiction. }
    rewrite Hsplit in Hpart.
    rewrite <- (Hfree ch Hch). symmetry. exact (Split_ContainsChar _ _ _ _ Hpart E).
  - rewrite Forall_forall in Hdots. now apply Hdots.
Qed.

(** The invariant of the two loops of [DetectValueReferences]. *)
Lemma detectParts_invariant (parts : list string) (seen : gset string)
    (references : list ValueReference) :
  NoDup (map Path references) ->
  Forall (fun ref => Join (Path ref) "." ∈ seen /\ wellFormedReference ref) references ->
  let (seen', references') := detectParts parts seen references in
  NoDup (map Path references')
  /\ Forall (fun ref => Join (Path ref) "." ∈ seen' /\ wellFormedReference ref) references'.
Proof.
  revert seen references. induction parts as [|part more IH]; intros seen references Hnodup Hall;
    cbn [detectParts]; [split; assumption|].
  destruct (negb (String_eqb (extractValuePath part) EmptyString)
            && negb (bool_decide (extractValuePath part ∈ seen))) eqn:Enew;
    [|now apply IH].
  apply andb_prop in Enew as [_ Hfresh].
  apply negb_true_iff, bool_decide_eq_false in Hfresh.
  assert (Hwider : Forall (fun ref => Join (Path ref) "." ∈ {[extractValuePath part]} ∪ seen
                                      /\ wellFormedReference ref) references).
  { eapply Forall_impl; [exact Hall|]. cbn. intros ref [Hin Hwf].
    split; [set_solver|exact Hwf]. }
  destruct (negb (String_eqb (RefKey (parseValuePath (extractValuePath part))) EmptyString))
    eqn:Ekey; [|now apply IH].
  apply IH.
  - rewrite map_app. cbn [map]. apply NoDup_app. split; [exact Hnodup|].
    split; [|apply NoDup_singleton].
    intros path Hpath Hnew%list_elem_of_singleton. subst path.
    apply list_elem_of_fmap in Hpath as (ref & Heq & Href).
    rewrite Forall_forall in Hall. destruct (Hall ref Href) as [Hseen _].
    apply Hfresh. rewrite <- Heq in Hseen.
    now rewrite (proj1 (parseValuePath_parts (extractValuePath part))) in Hseen.
  - apply Forall_app. split; [exact Hwider|]. constructor; [|constructor].
    split.
    + rewrite (proj1 (parseValuePath_parts (extractValuePath part))). set_solver.
    + apply parseValuePath_wellFormed.
      * apply extractValuePath_shape.
      * apply negb_true_iff in Ekey. unfold String_eqb in Ekey.
        now apply bool_decide_eq_false in Ekey.
Qed.

Lemma detectLines_invariant (lines : list string) (seen : gset string)
    (references : list ValueReference) :
  NoDup (map Path references) ->
  Forall (fun ref => Join (Path ref) "." ∈ seen /\ wellFormedReference ref) references ->
  NoDup (map Path (detectLines lines seen references))
  /\ Forall wellFormedReference (detectLines lines seen references).
Proof.
  revert seen references. induction lines as [|line more IH]; intros seen references Hnodup Hall;
    cbn [detectLines].
  - split; [exact Hnodup|]. eapply Forall_impl; [exact Hall|]. cbn. tauto.
  - destruct (ContainsStr (TrimSpace line) ".Values."); [|now apply IH].
    pose proof (detectParts_invariant (tail (SplitStr (TrimSpace line) ".Values."))
                  seen references Hnodup Hall) as Hparts.
    destruct (detectParts _ seen references) as [seen' references'].
    destruct Hparts as [Hnodup' Hall']. now apply IH.
Qed.

(** [DetectValueReferences] reports no path twice, and every reference it
    reports has a key that is not empty and is the last element of its path;
    no element of a path holds a dot or one of the delimiters. *)
Theorem DetectValueReferences_distinct (templateContent : string) :
  NoDup (map Path (DetectValueReferences templateContent))
  /\ Forall wellFormedReference (DetectValueReferences templateContent).
Proof.
  unfold DetectValueReferences. apply detectLines_invariant; constructor.
Qed.

(** The references of a template line that names a nested value twice and a
    root value once. *)
Example DetectValueReferences_template :
  map Path (DetectValueReferences
              "{{- with .Values.webhook.tolerations }}{{ toYaml .Values.webhook.tolerations | nindent 8 }}{{ .Values.affinity}}")
  = [["webhook"; "tolerations"]; ["affinity"]].
Proof. vm_compute. reflexivity. Qed.

(** ** Custom modifications of template files *)

Lemma matchAnchors_nil (rest : list string) (j f l : Z) :
  matchAnchors rest j [] f l = ([], f, l).
Proof. destruct rest; reflexivity. Qed.

(** The anchors left without a match do not depend on the indices. *)
Lemma matchAnchors_unmatched (rest : list string) (anchors : list string)
    (j f l j' f' l' : Z) :
  (matchAnchors rest j anchors f l).1.1 = (matchAnchors rest j' anchors f' l').1.1.
Proof.
  revert anchors j f l j' f' l'.
  induction rest as [|line rest IH]; intros [|anchor more] j f l j' f' l';
    cbn [matchAnchors]; try reflexivity.
  destruct (String_eqb (TrimSpace line) (TrimSpace anchor)); apply IH.
Qed.

(** Dropping the first anchor leaves no more anchors without a match. *)
Lemma matchAnchors_drop_anchor (rest : list string) (anchor : string) (more : list string)
    (j f l j' f' l' : Z) :
  (length (matchAnchors rest j more f l).1.1
   <= length (matchAnchors rest j' (anchor :: more) f' l').1.1)%nat.
Proof.
  revert anchor more j f l j' f' l'.
  induction rest as [|line rest IH]; intros anchor more j f l j' f' l'.
  - destruct more; cbn; lia.
  - destruct more as [|next more']; [rewrite matchAnchors_nil; cbn; lia|].
    cbn [matchAnchors].
    destruct (String_eqb (TrimSpace line) (TrimSpace anchor)),
             (String_eqb (TrimSpace line) (TrimSpace next)).
    + apply IH.
    + rewrite (matchAnchors_unmatched rest (next :: more') _ _ _ (j' + 1)
                 (if f' =? -1 then j' else f') j'). lia.
    + etransitivity; [apply (IH next more' _ _ _ (j + 1) f l)|].
      apply IH.
    + apply IH.
Qed.

(** Starting the match one line later leaves no fewer anchors without a
    match. *)
Lemma matchAnchors_later (line : string) (rest : list string) (anchors : list string)
    (j f l j' f' l' : Z) :
  (length (matchAnchors (line :: rest) j anchors f l).1.1
   <= length (matchAnchors rest j' anchors f' l').1.1)%nat.
Proof.
  destruct anchors as [|anchor more]; [rewrite matchAnchors_nil; cbn; lia|].
  cbn [matchAnchors]. destruct (String_eqb (TrimSpace line) (TrimSpace anchor)).
  - apply matchAnchors_drop_anchor.
  - rewrite (matchAnchors_unmatched rest (anchor :: more) _ _ _ j' f' l'). lia.
Qed.

Lemma searchAnchors_first_attempt (rest : list string) (i : Z) (anchors : list string) :
  anchors <> [] ->
  searchAnchors rest i anchors
  = match matchAnchors rest i anchors (-1) (-1) with
    | ([], firstMatchIdx, lastMatchIdx) => (firstMatchIdx, lastMatchIdx)
    | _ => (-1, -1)
    end.
Proof.
  intros Hne. revert i. induction rest as [|line rest IH]; intros i.
  - destruct anchors; [contradiction|reflexivity].
  - cbn [searchAnchors].
    destruct (matchAnchors (line :: rest) i anchors (-1) (-1)) as [[left f] l] eqn:E.
    destruct left as [|a left]; [reflexivity|].
    rewrite IH.
    pose proof (matchAnchors_later line rest anchors i (-1) (-1) (i + 1) (-1) (-1)) as Hle.
    rewrite E in Hle. cbn [fst length] in Hle.
    destruct (matchAnchors rest (i + 1) anchors (-1) (-1)) as [[left' f'] l'].
    cbn [fst] in Hle. destruct left'; [cbn in Hle; lia|reflexivity].
Qed.

Lemma findAnchorLinesWithRange_greedy (lines anchorLines : list string) :
  findAnchorLinesWithRange lines anchorLines
  = match anchorLines, matchAnchors lines 0 anchorLines (-1) (-1) with
    | _ :: _, ([], firstMatchIdx, lastMatchIdx) => (firstMatchIdx, lastMatchIdx)
    | _, _ => (-1, -1)
    end.
Proof.
  unfold findAnchorLinesWithRange. destruct anchorLines as [|anchor more]; [reflexivity|].
  now rewrite searchAnchors_first_attempt.
Qed.

(** The outer loop of [findAnchorLinesWithRange] never helps: the answer is
    that of the attempt from the first line, which takes for every anchor the
    next line with the same trimmed text; when that attempt leaves an anchor
    without a match, so does every later one. *)
Theorem findAnchorLinesWithRange_first_attempt (lines anchorLines : list string) :
  findAnchorLinesWithRange lines anchorLines
  = match anchorLines, matchAnchors lines 0 anchorLines (-1) (-1) with
    | _ :: _, ([], firstMatchIdx, lastMatchIdx) => (firstMatchIdx, lastMatchIdx)
    | _, _ => (-1, -1)
    end.
Proof. exact (findAnchorLinesWithRange_greedy lines anchorLines). Qed.

Lemma matchAnchors_found (rest : list string) (anchors : list string) :
  forall (j f l f' l' : Z),
    0 <= j -> anchors <> [] ->
    matchAnchors rest j anchors f l = ([], f', l') ->
    (j <= l' < j + Z.of_nat (length rest)
     /\ exists line lastAnchor,
          rest !! Z.to_nat (l' - j) = Some line /\ last anchors = Some lastAnchor
          /\ TrimSpace line = TrimSpace lastAnchor)
    /\ (f <> -1 -> f' = f)
    /\ (f = -1 ->
        j <= f' <= l'
        /\ exists line firstAnchor,
             rest !! Z.to_nat (f' - j) = Some line /\ head anchors = Some firstAnchor
             /\ TrimSpace line = TrimSpace firstAnchor
             /\ Forall (fun earlier => TrimSpace earlier <> TrimSpace firstAnchor)
                       (take (Z.to_nat (f' - j)) rest)).
Proof.
  revert anchors. induction rest as [|line rest IH]; intros anchors j f l f' l' Hj Hne.
  - destruct anchors; [contradiction|]. cbn. discriminate.
  - destruct anchors as [|anchor more]; [contradiction|]. cbn [matchAnchors].
    destruct (String_eqb (TrimSpace line) (TrimSpace anchor)) eqn:Ematch.
    + unfold String_eqb in Ematch. apply bool_decide_eq_true in Ematch.
      destruct more as [|next more'].
      * rewrite matchAnchors_nil. intros [= <- <-].
        replace (Z.to_nat (j - j)) with O by lia. cbn [lookup list_lookup length last].
        split; [split; [lia|]; exists line, anchor; auto|].
        split; [intros Hf; destruct (f =? -1) eqn:E; lia|].
        intros ->. rewrite Z.eqb_refl. replace (Z.to_nat (j - j)) with O by lia.
        split; [lia|]. exists line, anchor. cbn. repeat split; auto.
      * intros Hrun.
        destruct (IH (next :: more') (j + 1) (if f =? -1 then j else f) j f' l'
                    ltac:(lia) ltac:(discriminate) Hrun)
          as ((Hl & lineL & lastA & HlineL & Hlast & HmatchL) & Hkept & _).
        assert (Hf' : f' = if f =? -1 then j else f).
        { apply Hkept. destruct (f =? -1) eqn:E; lia. }
        split.
        { split; [cbn [length]; lia|]. exists lineL, lastA.
          replace (Z.to_nat (l' - j)) with (S (Z.to_nat (l' - (j + 1)))) by lia.
          repeat split; assumption. }
        split; [intros Hf; rewrite Hf'; destruct (f =? -1) eqn:E; lia|].
        intros ->. rewrite Z.eqb_refl in Hf'. subst f'.
        replace (Z.to_nat (j - j)) with O by lia.
        split; [lia|]. exists line, anchor. cbn. repeat split; auto.
    + unfold String_eqb in Ematch. apply bool_decide_eq_false in Ematch.
      intros Hrun.
      destruct (IH (anchor :: more) (j + 1) f l f' l' ltac:(lia) ltac:(discriminate) Hrun)
        as ((Hl & lineL & lastA & HlineL & Hlast & HmatchL) & Hkept & Hfirst).
      split.
      { split; [cbn [length]; lia|]. exists lineL, lastA.
        replace (Z.to_nat (l' - j)) with (S (Z.to_nat (l' - (j + 1)))) by lia.
        repeat split; assumption. }
      split; [exact Hkept|].
      intros Hf. destruct (Hfirst Hf) as (Hrange & lineF & firstA & HlineF & Hhead & HmatchF & Hnone).
      split; [lia|]. exists lineF, firstA.
      replace (Z.to_nat (f' - j)) with (S (Z.to_nat (f' - (j + 1)))) by lia.
      cbn [take]. repeat split; try assumption.
      constructor; [|exact Hnone]. cbn [head] in Hhead. injection Hhead as <-. exact Ematch.
Qed.

Lemma findAnchorLinesWithRange_found (lines anchorLines : list string) :
  let (anchorStartIndex, anchorEndIndex) := findAnchorLinesWithRange lines anchorLines in
  (anchorStartIndex = -1 /\ anchorEndIndex = -1)
  \/ (0 <= anchorStartIndex <= anchorEndIndex
      /\ anchorEndIndex < Z.of_nat (length lines)
      /\ exists firstLine firstAnchor lastLine lastAnchor,
           lines !! Z.to_nat anchorStartIndex = Some firstLine
           /\ head anchorLines = Some firstAnchor
           /\ TrimSpace firstLine = TrimSpace firstAnchor
           /\ Forall (fun earlier => TrimSpace earlier <> TrimSpace firstAnchor)
                     (take (Z.to_nat anchorStartIndex) lines)
           /\ lines !! Z.to_nat anchorEndIndex = Some lastLine
           /\ last anchorLines = Some lastAnchor
           /\ TrimSpace lastLine = TrimSpace lastAnchor).
Proof.
  rewrite findAnchorLinesWithRange_greedy.
  destruct anchorLines as [|anchor more]; [left; split; reflexivity|].
  destruct (matchAnchors lines 0 (anchor :: more) (-1) (-1)) as [[left0 f] l] eqn:E.
  destruct left0 as [|a left0]; [|left; split; reflexivity].
  right.
  destruct (matchAnchors_found lines (anchor :: more) 0 (-1) (-1) f l
              ltac:(lia) ltac:(discriminate) E)
    as ((Hl & lineL & lastA & HlineL & Hlast & HmatchL) & _ & Hfirst).
  destruct (Hfirst eq_refl) as (Hrange & lineF & firstA & HlineF & Hhead & HmatchF & Hnone).
  rewrite Z.sub_0_r in *.
  split; [lia|]. split; [lia|].
  exists lineF, firstA, lineL, lastA. repeat split; assumption.
Qed.

(** What [findAnchorLinesWithRange] returns: either the pair [(-1, -1)], or
    two indices of the document, the first no greater than the last, such
    that the line at the first is the first line of the document with the
    trimmed text of the first anchor and the line at the last has the trimmed
    text of the last anchor. *)
Theorem findAnchorLinesWithRange_range (lines anchorLines : list string) :
  let (anchorStartIndex, anchorEndIndex) := findAnchorLinesWithRange lines anchorLines in
  (anchorStartIndex = -1 /\ anchorEndIndex = -1)
  \/ (0 <= anchorStartIndex <= anchorEndIndex
      /\ anchorEndIndex < Z.of_nat (length lines)
      /\ exists firstLine firstAnchor lastLine lastAnchor,
           lines !! Z.to_nat anchorStartIndex = Some firstLine
           /\ head anchorLines = Some firstAnchor
           /\ TrimSpace firstLine = TrimSpace firstAnchor
           /\ Forall (fun earlier => TrimSpace earlier <> TrimSpace firstAnchor)
                     (take (Z.to_nat anchorStartIndex) lines)
           /\ lines !! Z.to_nat anchorEndIndex = Some lastLine
           /\ last anchorLines = Some lastAnchor
           /\ TrimSpace lastLine = TrimSpace lastAnchor).
Proof. exact (findAnchorLinesWithRange_found lines anchorLines). Qed.

Lemma Split_app_sep (a b : string) (c : ascii) :
  ContainsChar a c = false -> Split (a +:+ String c b) c = a :: Split b c.
Proof.
  induction a as [|d a IH]; intros Hfree.
  - rewrite String_app_nil_l. cbn [Split]. now rewrite Ascii.eqb_refl.
  - cbn [ContainsChar] in Hfree. apply orb_false_elim in Hfree as [Hd Ha].
    rewrite String_app_cons. cbn [Split]. rewrite Hd, (IH Ha). reflexivity.
Qed.

Lemma Split_free (a : string) (c : ascii) :
  ContainsChar a c = false -> Split a c = [a].
Proof.
  induction a as [|d a IH]; intros Hfree; [reflexivity|].
  cbn [ContainsChar] in Hfree. apply orb_false_elim in Hfree as [Hd Ha].
  cbn [Split]. rewrite Hd, (IH Ha). reflexivity.
Qed.

(** [strings.Split] undoes [strings.Join] on pieces free of the separator. *)
Lemma Split_Join (pieces : list string) (c : ascii) :
  pieces <> [] ->
  Forall (fun piece => ContainsChar piece c = false) pieces ->
  Split (Join pieces (String c EmptyString)) c = pieces.
Proof.
  intros Hne Hfree. induction Hfree as [|p ps Hp Hps IH]; [contradiction|].
  destruct ps as [|q qs]; [cbn [Join]; now apply Split_free|].
  change (Join (p :: q :: qs) (String c EmptyString))
    with (p +:+ String c EmptyString +:+ Join (q :: qs) (String c EmptyString)).
  change (String c EmptyString +:+ Join (q :: qs) (String c EmptyString))
    with (String c (Join (q :: qs) (String c EmptyString))).
  rewrite (Split_app_sep _ _ _ Hp), IH by discriminate. reflexivity.
Qed.

Lemma Lines_Unlines (lines : list string) :
  lines <> [] ->
  Forall (fun line => ContainsChar line nl = false) lines ->
  Lines (Unlines lines) = lines.
Proof. apply Split_Join. Qed.

Lemma Lines_free (content : string) :
  Forall (fun line => ContainsChar line nl = false) (Lines content).
Proof. apply Split_Forall_free. Qed.

Lemma Unlines_Lines (content : string) : Unlines (Lines content) = content.
Proof. apply Join_Split. Qed.

Lemma ContainsChar_spaces (n : nat) (c : ascii) :
  c <> " "%char -> ContainsChar (spaces n) c = false.
Proof.
  intros Hc. induction n as [|n IH]; [reflexivity|]. cbn [spaces ContainsChar].
  rewrite IH, orb_false_r. apply Ascii.eqb_neq. congruence.
Qed.

Lemma TrimSpace_free (s : string) (c : ascii) :
  ContainsChar s c = false -> ContainsChar (TrimSpace s) c = false.
Proof.
  intros H. destruct (ContainsChar (TrimSpace s) c) eqn:E; [|reflexivity].
  apply ContainsChar_TrimSpace in E. congruence.
Qed.

(** The first line of a trimmed text starts in the first column. *)
Lemma Lines_TrimSpace_first (block : string) :
  TrimSpace block = EmptyString
  \/ exists c first more,
       Lines (TrimSpace block) = String c first :: more /\ IsSpace c = false.
Proof.
  destruct (TrimSpace block) as [|c t] eqn:E; [now left|]. right.
  pose proof (TrimSpace_first _ _ _ E) as Hc.
  unfold Lines. cbn [Split].
  destruct (Ascii.eqb c nl) eqn:Enl.
  - apply Ascii.eqb_eq in Enl. subst c. discriminate.
  - pose proof (Split_not_nil t nl). destruct (Split t nl) as [|l ls]; [contradiction|].
    now exists c, l, ls.
Qed.

Lemma TrimSpace_cons_nonspace (c : ascii) (s : string) :
  IsSpace c = false -> TrimSpace (String c s) <> EmptyString.
Proof.
  intros Hc. unfold TrimSpace. rewrite (TrimLeft_fixed _ _ Hc).
  destruct (TrimRight_keeps_first c s Hc) as [t ->]. discriminate.
Qed.

Lemma minIndentOf_zero (blockLines : list string) : minIndentOf blockLines 0 = 0.
Proof.
  induction blockLines as [|line more IH]; [reflexivity|]. cbn [minIndentOf].
  destruct (String_eqb (TrimSpace line) EmptyString); [exact IH|].
  cbv zeta. pose proof (GetIndentation_nonneg line). unfold getIndentation.
  destruct (GetIndentation line <? 0) eqn:E; [lia|]. exact IH.
Qed.

Lemma indentBlock_from_zero (blockLines : list string) (baseIndent : Z) :
  0 <= baseIndent ->
  indentBlock blockLines baseIndent 0
  = Ok (map (fun line =>
               if String_eqb (TrimSpace line) EmptyString then EmptyString
               else spaces (Z.to_nat (baseIndent + getIndentation line)) +:+ TrimSpace line)
            blockLines).
Proof.
  intros Hbase. induction blockLines as [|line more IH]; [reflexivity|].
  cbn [indentBlock map]. cbv zeta. rewrite IH. cbn [obind].
  destruct (String_eqb (TrimSpace line) EmptyString); [reflexivity|].
  pose proof (GetIndentation_nonneg line). unfold getIndentation.
  rewrite Z.sub_0_r, RepeatSpace_nonneg by lia. reflexivity.
Qed.

Lemma prepareBlockForInsertion_spec (block : string) (baseIndent : Z) :
  (0 <= baseIndent ->
   prepareBlockForInsertion block baseIndent
   = Ok (map (fun line =>
                if String_eqb (TrimSpace line) EmptyString then EmptyString
                else spaces (Z.to_nat (baseIndent + getIndentation line))
                     +:+ TrimSpace line)
             (Lines (TrimSpace block))))
  /\ (baseIndent < 0 -> TrimSpace block <> EmptyString ->
      prepareBlockForInsertion block baseIndent = Panic).
Proof.
  assert (Hmin : (if minIndentOf (Lines (TrimSpace block)) (-1) =? -1 then 0
                  else minIndentOf (Lines (TrimSpace block)) (-1)) = 0).
  { destruct (Lines_TrimSpace_first block) as [->|(c & first & more & -> & Hc)];
      [reflexivity|].
    cbn [minIndentOf]. unfold String_eqb.
    rewrite bool_decide_eq_false_2 by now apply TrimSpace_cons_nonspace.
    cbv zeta. cbn [Z.eqb orb]. unfold getIndentation, GetIndentation.
    rewrite GetIndentationNat_nonspace by now apply IsSpace_space.
    cbn [Z.of_nat]. now rewrite minIndentOf_zero. }
  unfold prepareBlockForInsertion. cbv zeta. rewrite Hmin. split.
  - apply indentBlock_from_zero.
  - intros Hneg Hblock.
    destruct (Lines_TrimSpace_first block) as [E|(c & first & more & -> & Hc)];
      [contradiction|].
    cbn [indentBlock]. unfold String_eqb.
    rewrite bool_decide_eq_false_2 by now apply TrimSpace_cons_nonspace.
    cbv zeta. unfold getIndentation, GetIndentation.
    rewrite GetIndentationNat_nonspace by now apply IsSpace_space.
    unfold RepeatSpace. change (Z.of_nat 0) with 0.
    destruct (baseIndent + (0 - 0) <? 0) eqn:E; [reflexivity|lia].
Qed.

(** [prepareBlockForInsertion] measures the indentation of the block from
    the first column: the trimmed block starts in the first column, so the
    minimum the function looks for is always zero.  With a base indentation
    that is not negative it returns, for every line of the trimmed block, the
    empty line if the line is blank and else the trimmed line behind
    [baseIndent] plus its own indentation; with a negative one it panics
    unless the block is blank. *)
Theorem prepareBlockForInsertion_from_first_column (block : string) (baseIndent : Z) :
  (0 <= baseIndent ->
   prepareBlockForInsertion block baseIndent
   = Ok (map (fun line =>
                if String_eqb (TrimSpace line) EmptyString then EmptyString
                else spaces (Z.to_nat (baseIndent + getIndentation line))
                     +:+ TrimSpace line)
             (Lines (TrimSpace block))))
  /\ (baseIndent < 0 -> TrimSpace block <> EmptyString ->
      prepareBlockForInsertion block baseIndent = Panic).
Proof. exact (prepareBlockForInsertion_spec block baseIndent). Qed.

Lemma prepareBlockForInsertion_witness :
  prepareBlockForInsertion (Unlines ["    env:"; "      - name: A"; EmptyString]) 2
  = Ok ["  env:"; "        - name: A"].
Proof.
  rewrite (proj1 (prepareBlockForInsertion_from_first_column
                    (Unlines ["    env:"; "      - name: A"; EmptyString]) 2))
    by lia.
  vm_compute. reflexivity.
Defined.

Lemma lineAt_lookup (lines : list string) (i : Z) (line : string) :
  0 <= i -> lines !! Z.to_nat i = Some line -> lineAt lines i = Ok line.
Proof.
  intros Hi Hline. unfold lineAt. destruct (i <? 0) eqn:E; [lia|]. now rewrite Hline.
Qed.

Lemma compareBlock_returns (fileLines : list string) (insertIndex : Z)
    (normalized : list string) (i : Z) :
  0 <= insertIndex + i ->
  insertIndex + i + Z.of_nat (length normalized) <= Z.of_nat (length fileLines) ->
  exists answer, compareBlock fileLines insertIndex i normalized = Ok answer.
Proof.
  revert i. induction normalized as [|blockLine more IH]; intros i Hlow Hhigh;
    cbn [compareBlock]; [eauto|].
  cbn [length] in Hhigh.
  destruct (lookup_lt_is_Some_2 fileLines (Z.to_nat (insertIndex + i)) ltac:(lia))
    as [fileLine Hline].
  rewrite (lineAt_lookup _ _ _ Hlow Hline). cbn [obind].
  destruct (String_eqb (TrimSpace fileLine) blockLine); [|eauto].
  apply IH; lia.
Qed.

Lemma blockAlreadyExistsAtPosition_returns (fileLines blockLines : list string)
    (insertIndex : Z) :
  0 <= insertIndex ->
  exists answer, blockAlreadyExistsAtPosition fileLines blockLines insertIndex = Ok answer.
Proof.
  intros Hlow. unfold blockAlreadyExistsAtPosition.
  destruct blockLines as [|b bs]; [eauto|].
  destruct (normalizedBlock (b :: bs)) as [|n ns]; [eauto|].
  destruct (Z.of_nat (length fileLines) <? insertIndex + Z.of_nat (length (n :: ns))) eqn:E;
    [eauto|].
  apply compareBlock_returns; lia.
Qed.

Lemma prepared_lines_free (blockLines : list string) (baseIndent : Z) :
  Forall (fun line => ContainsChar line nl = false) blockLines ->
  Forall (fun line => ContainsChar line nl = false)
    (map (fun line =>
            if String_eqb (TrimSpace line) EmptyString then EmptyString
            else spaces (Z.to_nat (baseIndent + getIndentation line)) +:+ TrimSpace line)
         blockLines).
Proof.
  intros Hfree. apply Forall_fmap. eapply Forall_impl; [exact Hfree|].
  cbn. intros line Hline. destruct (String_eqb (TrimSpace line) EmptyString); [reflexivity|].
  rewrite ContainsChar_app, ContainsChar_spaces by discriminate.
  now apply TrimSpace_free.
Qed.

Lemma applyFileModification_cases (content : string)
    (fileMod : FileModification) :
  exists out changed,
    applyFileModification content fileMod = Ok (out, changed)
    /\ (changed = false -> out = content)
    /\ (changed = true ->
        exists anchorLine inserted,
          let (anchorStartIndex, anchorEndIndex) :=
            findAnchorLinesWithRange (Lines content) (AnchorLines fileMod) in
          let k := Z.to_nat (if String_eqb (Position fileMod) "before"
                             then anchorStartIndex else anchorEndIndex + 1) in
          0 <= anchorStartIndex
          /\ Lines content !! Z.to_nat anchorStartIndex = Some anchorLine
          /\ prepareBlockForInsertion (Block fileMod)
               (Z.max 0 (getIndentation anchorLine + ModIndent fileMod))
             = Ok inserted
          /\ (k <= length (Lines content))%nat
          /\ Lines out = take k (Lines content) ++ inserted ++ drop k (Lines content)).
Proof.
  unfold applyFileModification. cbv zeta.
  pose proof (findAnchorLinesWithRange_found (Lines content) (AnchorLines fileMod)) as Hrange.
  destruct (findAnchorLinesWithRange (Lines content) (AnchorLines fileMod)) as [f l].
  destruct Hrange as [[-> ->]|(Hfl & Hl & firstLine & _ & _ & _ & Hfirst & _)].
  { cbn [Z.eqb]. exists content, false. repeat split; [discriminate]. }
  destruct (f =? -1) eqn:Ef; [lia|].
  set (insertIndex := if String_eqb (Position fileMod) "before" then f else l + 1).
  assert (Hinsert : 0 <= insertIndex <= Z.of_nat (length (Lines content))).
  { unfold insertIndex. destruct (String_eqb (Position fileMod) "before"); lia. }
  destruct (blockAlreadyExistsAtPosition_returns (Lines content)
              (Lines (TrimSpace (Block fileMod))) insertIndex ltac:(lia)) as [already ->].
  cbn [obind]. destruct already.
  { exists content, false. repeat split; [discriminate]. }
  rewrite (lineAt_lookup (Lines content) f firstLine ltac:(lia) Hfirst). cbn [obind].
  set (finalIndent := if getIndentation firstLine + ModIndent fileMod <? 0 then 0
                      else getIndentation firstLine + ModIndent fileMod).
  assert (Hfinal : finalIndent = Z.max 0 (getIndentation firstLine + ModIndent fileMod)).
  { unfold finalIndent.
    destruct (getIndentation firstLine + ModIndent fileMod <? 0) eqn:E; lia. }
  pose proof (proj1 (prepareBlockForInsertion_spec (Block fileMod) finalIndent)
                ltac:(lia)) as Hprepare.
  rewrite Hprepare. cbn [obind]. unfold sliceTo, sliceFrom.
  destruct ((insertIndex <? 0) || (Z.of_nat (length (Lines content)) <? insertIndex)) eqn:E;
    [lia|].
  cbn [obind]. eexists _, true. split; [reflexivity|]. split; [discriminate|].
  intros _. exists firstLine. eexists. split; [lia|]. split; [exact Hfirst|].
  split; [rewrite <- Hfinal; exact Hprepare|]. split; [lia|].
  apply Lines_Unlines.
  - pose proof (Split_not_nil content nl) as Hne. fold (Lines content) in Hne.
    intros Happ. apply (f_equal length) in Happ.
    rewrite !length_app, length_take, length_drop in Happ.
    destruct (Lines content); [contradiction|]. cbn [length] in Happ. lia.
  - apply Forall_app. split; [apply Forall_take, Lines_free|].
    apply Forall_app. split; [|apply Forall_drop, Lines_free].
    apply prepared_lines_free, Lines_free.
Qed.

(** [applyFileModification] never panics and never removes or rewrites a
    line.  When it reports no change, the content is returned as it was
    given.  When it reports a change, the lines of the new content are the
    lines of the old one with the prepared block put between two of them: in
    front of the first anchor line for the position [before], behind the last
    anchor line for any other position; the base indentation of the block is
    that of the first anchor line plus the relative indent, or zero when the
    sum is negative. *)
Theorem applyFileModification_only_inserts (content : string)
    (fileMod : FileModification) :
  exists out changed,
    applyFileModification content fileMod = Ok (out, changed)
    /\ (changed = false -> out = content)
    /\ (changed = true ->
        exists anchorLine inserted,
          let (anchorStartIndex, anchorEndIndex) :=
            findAnchorLinesWithRange (Lines content) (AnchorLines fileMod) in
          let k := Z.to_nat (if String_eqb (Position fileMod) "before"
                             then anchorStartIndex else anchorEndIndex + 1) in
          0 <= anchorStartIndex
          /\ Lines content !! Z.to_nat anchorStartIndex = Some anchorLine
          /\ prepareBlockForInsertion (Block fileMod)
               (Z.max 0 (getIndentation anchorLine + ModIndent fileMod))
             = Ok inserted
          /\ (k <= length (Lines content))%nat
          /\ Lines out = take k (Lines content) ++ inserted ++ drop k (Lines content)).
Proof. exact (applyFileModification_cases content fileMod). Qed.

(** A match that is complete at line [l'] is the same whatever follows that
    line. *)
Lemma matchAnchors_prefix (rest : list string) (anchors : list string) :
  forall (j f l f' l' : Z) (other : list string),
    0 <= j -> anchors <> [] ->
    matchAnchors rest j anchors f l = ([], f', l') ->
    matchAnchors (take (Z.to_nat (l' - j + 1)) rest ++ other) j anchors f l = ([], f', l').
Proof.
  revert anchors. induction rest as [|line rest IH]; intros anchors j f l f' l' other Hj Hne.
  - destruct anchors; [contradiction|]. cbn. discriminate.
  - destruct anchors as [|anchor more]; [contradiction|]. intros Hrun.
    pose proof (matchAnchors_found _ _ _ _ _ _ _ Hj Hne Hrun) as ((Hl & _) & _).
    replace (Z.to_nat (l' - j + 1)) with (S (Z.to_nat (l' - j))) by lia.
    cbn [take app matchAnchors] in *.
    destruct (String_eqb (TrimSpace line) (TrimSpace anchor)).
    + destruct more as [|next more'].
      * rewrite matchAnchors_nil in *. exact Hrun.
      * pose proof (matchAnchors_found rest (next :: more') (j + 1) _ _ f' l'
                      ltac:(lia) ltac:(discriminate) Hrun) as ((Hl' & _) & _).
        replace (Z.to_nat (l' - j)) with (Z.to_nat (l' - (j + 1) + 1)) by lia.
        apply IH; [lia|discriminate|exact Hrun].
    + pose proof (matchAnchors_found rest (anchor :: more) (j + 1) _ _ f' l'
                    ltac:(lia) ltac:(discriminate) Hrun) as ((Hl' & _) & _).
      replace (Z.to_nat (l' - j)) with (Z.to_nat (l' - (j + 1) + 1)) by lia.
      apply IH; [lia|discriminate|exact Hrun].
Qed.

Lemma compareBlock_inserted (before after : list string) (blockLines : list string)
    (prepared : string -> string) (done : list string) :
  (forall line, TrimSpace line <> EmptyString -> TrimSpace (prepared line) = TrimSpace line) ->
  Forall (fun line => TrimSpace line <> EmptyString) blockLines ->
  compareBlock (before ++ (done ++ map prepared blockLines) ++ after)
    (Z.of_nat (length before)) (Z.of_nat (length done)) (map TrimSpace blockLines)
  = Ok true.
Proof.
  intros Hprepared. revert done.
  induction blockLines as [|line more IH]; intros done Hall; [reflexivity|].
  inversion Hall as [|? ? Hline Hmore]; subst. cbn [map compareBlock].
  assert (Hat : lineAt (before ++ (done ++ prepared line :: map prepared more) ++ after)
                  (Z.of_nat (length before) + Z.of_nat (length done))
                = Ok (prepared line)).
  { apply lineAt_lookup; [lia|].
    replace (Z.to_nat (Z.of_nat (length before) + Z.of_nat (length done)))
      with (length before + length done)%nat by lia.
    rewrite lookup_app_r by lia. rewrite <- app_assoc.
    replace (length before + length done - length before)%nat with (length done + 0)%nat
      by lia.
    rewrite lookup_app_r by lia.
    replace (length done + 0 - length done)%nat with O by lia. reflexivity. }
  rewrite Hat. cbn [obind]. rewrite (Hprepared line Hline).
  unfold String_eqb at 1. rewrite bool_decide_eq_true_2 by reflexivity.
  specialize (IH (done ++ [prepared line]) Hmore).
  rewrite length_app in IH. cbn [length] in IH.
  replace (Z.of_nat (length done) + 1) with (Z.of_nat (length done + 1)) by lia.
  rewrite <- (app_assoc done) in IH. exact IH.
Qed.

Lemma blockAlreadyExistsAtPosition_inserted (before after : list string)
    (blockLines : list string) (prepared : string -> string) :
  blockLines <> [] ->
  (forall line, TrimSpace line <> EmptyString -> TrimSpace (prepared line) = TrimSpace line) ->
  Forall (fun line => TrimSpace line <> EmptyString) blockLines ->
  blockAlreadyExistsAtPosition (before ++ map prepared blockLines ++ after) blockLines
    (Z.of_nat (length before))
  = Ok true.
Proof.
  intros Hne Hprepared Hall. unfold blockAlreadyExistsAtPosition.
  pose proof (compareBlock_inserted before after blockLines prepared [] Hprepared Hall)
    as Hcompare.
  assert (Hnormal : normalizedBlock blockLines = map TrimSpace blockLines).
  { unfold normalizedBlock. clear Hcompare Hne.
    induction Hall as [|line more Hline _ IH]; [reflexivity|].
    cbn [map]. rewrite filter_cons_True by exact Hline. now rewrite IH. }
  rewrite Hnormal. destruct blockLines as [|b bs]; [contradiction|].
  cbn [map] in *. cbn [app length] in Hcompare.
  match goal with
  | |- context [if ?c then Ok false else _] => destruct c eqn:Ecap
  end.
  { apply Z.ltb_lt in Ecap. rewrite !length_app in Ecap. cbn [length] in Ecap.
    rewrite !length_map in Ecap. lia. }
  exact Hcompare.
Qed.

(** For a position other than [before] and a block without blank lines,
    applying a modification is idempotent: applied to its own output it
    finds the block behind the last anchor line and returns the content
    unchanged. *)
Theorem applyFileModification_after_idempotent (content : string)
    (fileMod : FileModification) (out : string) (changed : bool) :
  Position fileMod <> "before" ->
  Forall (fun line => TrimSpace line <> EmptyString) (Lines (TrimSpace (Block fileMod))) ->
  applyFileModification content fileMod = Ok (out, changed) ->
  applyFileModification out fileMod = Ok (out, false).
Proof.
  intros Hposition Hblock Happlied.
  destruct (applyFileModification_cases content fileMod)
    as (out' & changed' & Heq & Hsame & Hinserted).
  rewrite Heq in Happlied. injection Happlied as -> ->.
  destruct changed.
  2:{ rewrite (Hsame eq_refl) in *. exact Heq. }
  destruct (Hinserted eq_refl) as (anchorLine & inserted & Hrun). clear Hsame Hinserted.
  pose proof (findAnchorLinesWithRange_greedy (Lines content) (AnchorLines fileMod))
    as Hfirst.
  destruct (findAnchorLinesWithRange (Lines content) (AnchorLines fileMod)) as [f l] eqn:Efind.
  unfold String_eqb in Hrun. rewrite bool_decide_eq_false_2 in Hrun by exact Hposition.
  cbv zeta in Hrun. destruct Hrun as (Hf & Hanchor & Hprepare & Hk & Hlines).
  destruct (AnchorLines fileMod) as [|anchor more] eqn:Eanchors; [injection Hfirst; lia|].
  destruct (matchAnchors (Lines content) 0 (anchor :: more) (-1) (-1)) as [[left0 f0] l0] eqn:Ematch.
  destruct left0; [|injection Hfirst; lia]. injection Hfirst as -> ->.
  pose proof (matchAnchors_found (Lines content) (anchor :: more) 0 _ _ f0 l0
                ltac:(lia) ltac:(discriminate) Ematch) as ((Hl0 & _) & _).
  rewrite (proj1 (prepareBlockForInsertion_spec (Block fileMod) _)) in Hprepare
    by lia.
  injection Hprepare as <-.
  set (written := map _ (Lines (TrimSpace (Block fileMod)))) in *.
  (* the second run *)
  unfold applyFileModification. cbv zeta. rewrite Hlines.
  assert (Hfind : findAnchorLinesWithRange
                    (take (Z.to_nat (l0 + 1)) (Lines content) ++ written
                     ++ drop (Z.to_nat (l0 + 1)) (Lines content)) (AnchorLines fileMod)
                  = (f0, l0)).
  { rewrite findAnchorLinesWithRange_greedy, Eanchors.
    replace (Z.to_nat (l0 + 1)) with (Z.to_nat (l0 - 0 + 1)) by lia.
    rewrite (matchAnchors_prefix (Lines content) (anchor :: more) 0 _ _ f0 l0 _
               ltac:(lia) ltac:(discriminate) Ematch).
    reflexivity. }
  rewrite Hfind. destruct (f0 =? -1) eqn:Ef0; [lia|].
  unfold String_eqb. rewrite bool_decide_eq_false_2 by exact Hposition.
  assert (Hlen : length (take (Z.to_nat (l0 + 1)) (Lines content)) = Z.to_nat (l0 + 1)).
  { rewrite length_take. lia. }
  pose proof (blockAlreadyExistsAtPosition_inserted
                (take (Z.to_nat (l0 + 1)) (Lines content))
                (drop (Z.to_nat (l0 + 1)) (Lines content))
                (Lines (TrimSpace (Block fileMod)))
                (fun line =>
                   if String_eqb (TrimSpace line) EmptyString then EmptyString
                   else spaces (Z.to_nat (Z.max 0 (getIndentation anchorLine
                                                   + ModIndent fileMod)
                                          + getIndentation line)) +:+ TrimSpace line)
                (Split_not_nil _ _)) as Hexists.
  rewrite Hlen in Hexists.
  replace (Z.of_nat (Z.to_nat (l0 + 1))) with (l0 + 1) in Hexists by lia.
  fold written in Hexists. rewrite Hexists; [|intros line Hline|exact Hblock].
  2:{ unfold String_eqb. rewrite bool_decide_eq_false_2 by exact Hline.
      rewrite TrimSpace_spaces. apply TrimSpace_idem. }
  reflexivity.
Qed.

Lemma applyFileModification_after_idempotent_witness :
  applyFileModification (Unlines ["spec:"; "  containers:"])
    (mkFileModification "node selector" ["spec:"] "after" "nodeSelector: {}" 2)
  = Ok (Unlines ["spec:"; "  nodeSelector: {}"; "  containers:"], true)
  /\ applyFileModification (Unlines ["spec:"; "  nodeSelector: {}"; "  containers:"])
       (mkFileModification "node selector" ["spec:"] "after" "nodeSelector: {}" 2)
     = Ok (Unlines ["spec:"; "  nodeSelector: {}"; "  containers:"], false).
Proof.
  assert (Hfirst : applyFileModification (Unlines ["spec:"; "  containers:"])
            (mkFileModification "node selector" ["spec:"] "after" "nodeSelector: {}" 2)
          = Ok (Unlines ["spec:"; "  nodeSelector: {}"; "  containers:"], true))
    by (vm_compute; reflexivity).
  split; [exact Hfirst|].
  refine (applyFileModification_after_idempotent _ _ _ _ _ _ Hfirst).
  - cbn. discriminate.
  - vm_compute. repeat constructor; discriminate.
Defined.

Lemma matchAnchors_skip (skipped rest : list string) (anchor : string) (more : list string)
    (j f l : Z) :
  Forall (fun line => TrimSpace line <> TrimSpace anchor) skipped ->
  matchAnchors (skipped ++ rest) j (anchor :: more) f l
  = matchAnchors rest (j + Z.of_nat (length skipped)) (anchor :: more) f l.
Proof.
  intros Hskipped. revert j. induction Hskipped as [|line skipped Hline _ IH]; intros j.
  - cbn [app length]. f_equal. lia.
  - cbn [app matchAnchors length]. unfold String_eqb at 1.
    rewrite bool_decide_eq_false_2 by exact Hline. rewrite IH. f_equal. lia.
Qed.

(** Starting the count [d] lines later moves the indices found by [d]. *)
Lemma matchAnchors_shift (rest : list string) (anchors : list string) (d : Z) :
  forall (j f l : Z),
    0 <= j -> 0 <= j + d -> (f = -1 \/ 0 <= f /\ 0 <= f + d) ->
    let shift x := if x =? -1 then -1 else x + d in
    matchAnchors rest (j + d) anchors (shift f) (shift l)
    = let '(unmatched, f', l') := matchAnchors rest j anchors f l in
      (unmatched, shift f', shift l').
Proof.
  revert anchors. induction rest as [|line rest IH]; intros anchors j f l Hj Hjd Hf shift.
  - destruct anchors; reflexivity.
  - destruct anchors as [|anchor more]; [reflexivity|]. cbn [matchAnchors].
    destruct (String_eqb (TrimSpace line) (TrimSpace anchor)).
    + replace (j + d + 1) with (j + 1 + d) by lia.
      replace (if shift f =? -1 then j + d else shift f)
        with (shift (if f =? -1 then j else f)).
      2:{ unfold shift. destruct Hf as [->|[Hf Hfd]].
          - rewrite ?Z.eqb_refl. cbv iota. rewrite ?Z.eqb_refl. cbv iota.
            destruct (j =? -1) eqn:E; [lia|reflexivity].
          - destruct (f =? -1) eqn:E; [lia|]. rewrite E.
            destruct (f + d =? -1) eqn:E2; [lia|reflexivity]. }
      assert (Hsj : shift j = j + d)
        by (unfold shift; destruct (j =? -1) eqn:E; [lia|reflexivity]).
      rewrite <- Hsj.
      apply (IH more (j + 1) (if f =? -1 then j else f) j); [lia|lia|].
      right. destruct (f =? -1) eqn:E; lia.
    + replace (j + d + 1) with (j + 1 + d) by lia. apply IH; [lia|lia|exact Hf].
Qed.

Lemma normalizedBlock_head (blockLines : list string) (first : string)
    (others : list string) :
  normalizedBlock blockLines = first :: others ->
  exists line, line ∈ blockLines /\ first = TrimSpace line.
Proof.
  unfold normalizedBlock. intros Hnormal.
  assert (Hin : first ∈ filter (fun trimmed => trimmed <> EmptyString)
                               (map TrimSpace blockLines))
    by (rewrite Hnormal; apply list_elem_of_here).
  apply list_elem_of_filter in Hin as [_ Hin].
  apply list_elem_of_fmap in Hin as (line & -> & Hline). eauto.
Qed.

Lemma blockAlreadyExistsAtPosition_other (fileLines blockLines : list string)
    (insertIndex : Z) (fileLine : string) :
  0 <= insertIndex ->
  fileLines !! Z.to_nat insertIndex = Some fileLine ->
  (forall line, line ∈ blockLines -> TrimSpace line <> TrimSpace fileLine) ->
  blockAlreadyExistsAtPosition fileLines blockLines insertIndex = Ok false.
Proof.
  intros Hlow Hline Hother. unfold blockAlreadyExistsAtPosition.
  destruct blockLines as [|b bs]; [reflexivity|].
  destruct (normalizedBlock (b :: bs)) as [|first others] eqn:Hnormal; [reflexivity|].
  match goal with
  | |- context [if ?c then Ok false else _] => destruct c; [reflexivity|]
  end.
  cbn [compareBlock]. rewrite Z.add_0_r, (lineAt_lookup _ _ _ Hlow Hline). cbn [obind].
  destruct (normalizedBlock_head _ _ _ Hnormal) as (line & Hin & ->).
  unfold String_eqb. rewrite bool_decide_eq_false_2; [reflexivity|].
  intros Heq. exact (Hother line Hin (eq_sym Heq)).
Qed.

(** For the position [before] the check for an existing block looks at the
    anchor, not at the lines in front of it: when no line of the block has
    the trimmed text of the first anchor, a modification that was applied is
    applied again on its own output, and the block then stands twice in front
    of the anchor. *)
Theorem applyFileModification_before_inserts_again (content : string)
    (fileMod : FileModification) (out : string) (anchor : string) :
  Position fileMod = "before" ->
  head (AnchorLines fileMod) = Some anchor ->
  (forall line, line ∈ Lines (TrimSpace (Block fileMod)) ->
                TrimSpace line <> TrimSpace anchor) ->
  applyFileModification content fileMod = Ok (out, true) ->
  exists (k : nat) (inserted : list string) (again : string),
    Lines out = take k (Lines content) ++ inserted ++ drop k (Lines content)
    /\ inserted <> []
    /\ applyFileModification out fileMod = Ok (again, true)
    /\ Lines again
       = take k (Lines content) ++ inserted ++ inserted ++ drop k (Lines content).
Proof.
  intros Hposition Hanchor Hother Happlied.
  destruct (applyFileModification_cases content fileMod)
    as (out' & changed' & Heq & _ & Hinserted).
  rewrite Heq in Happlied. injection Happlied as -> ->.
  destruct (Hinserted eq_refl) as (anchorLine & inserted & Hrun). clear Hinserted.
  pose proof (findAnchorLinesWithRange_greedy (Lines content) (AnchorLines fileMod))
    as Hfirst.
  destruct (findAnchorLinesWithRange (Lines content) (AnchorLines fileMod)) as [f l] eqn:Efind.
  rewrite Hposition in Hrun. unfold String_eqb in Hrun.
  rewrite bool_decide_eq_true_2 in Hrun by reflexivity.
  cbv zeta in Hrun. destruct Hrun as (Hf & Hline & Hprepare & Hk & Hlines).
  destruct (AnchorLines fileMod) as [|anchor0 more] eqn:Eanchors; [discriminate|].
  injection Hanchor as ->.
  destruct (matchAnchors (Lines content) 0 (anchor :: more) (-1) (-1))
    as [[left0 f0] l0] eqn:Ematch.
  destruct left0; [|injection Hfirst; lia]. injection Hfirst as -> ->.
  destruct (matchAnchors_found (Lines content) (anchor :: more) 0 (-1) (-1) f0 l0
              ltac:(lia) ltac:(discriminate) Ematch)
    as ((Hl0 & _) & _ & Hstart).
  destruct (Hstart eq_refl) as (Hrange & firstLine & firstAnchor & HfirstLine & Hhead
                                & Hmatch & Hnone).
  rewrite Z.sub_0_r in *. cbn [head] in Hhead. injection Hhead as <-.
  rewrite Hline in HfirstLine. injection HfirstLine as <-.
  pose proof Hprepare as Hwritten.
  rewrite (proj1 (prepareBlockForInsertion_spec (Block fileMod) _)) in Hwritten
    by lia.
  injection Hwritten as Hwritten.
  assert (Hins : Forall (fun line => TrimSpace line <> TrimSpace anchor) inserted).
  { rewrite <- Hwritten. apply Forall_fmap, Forall_forall. intros line Hin. cbn.
    specialize (Hother line Hin). unfold String_eqb.
    destruct (decide (TrimSpace line = EmptyString)) as [E|E].
    - rewrite bool_decide_eq_true_2 by exact E.
      change (TrimSpace EmptyString) with EmptyString. rewrite <- E. exact Hother.
    - rewrite bool_decide_eq_false_2 by exact E.
      rewrite TrimSpace_spaces, TrimSpace_idem. exact Hother. }
  assert (Hnonempty : inserted <> []).
  { rewrite <- Hwritten. pose proof (Split_not_nil (TrimSpace (Block fileMod)) nl) as Hne.
    fold (Lines (TrimSpace (Block fileMod))) in Hne.
    destruct (Lines (TrimSpace (Block fileMod))); [contradiction|discriminate]. }
  set (k := Z.to_nat f0) in *.
  set (n := Z.of_nat (length inserted)).
  assert (Hktake : length (take k (Lines content)) = k) by (rewrite length_take; lia).
  (* the anchors in the output *)
  assert (Hfind : findAnchorLinesWithRange
                    (take k (Lines content) ++ inserted ++ drop k (Lines content))
                    (AnchorLines fileMod) = (f0 + n, l0 + n)).
  { rewrite findAnchorLinesWithRange_greedy, Eanchors.
    rewrite app_assoc, matchAnchors_skip.
    2:{ apply Forall_app. split; [exact Hnone|exact Hins]. }
    rewrite length_app, Hktake.
    rewrite <- (take_drop k (Lines content)) in Ematch at 1.
    rewrite matchAnchors_skip in Ematch by exact Hnone. rewrite Hktake in Ematch.
    pose proof (matchAnchors_shift (drop k (Lines content)) (anchor :: more) n
                  (0 + Z.of_nat k) (-1) (-1) ltac:(lia) ltac:(unfold n; lia)
                  ltac:(now left)) as Hshift.
    cbv zeta in Hshift. rewrite Ematch in Hshift. rewrite !Z.eqb_refl in Hshift.
    replace (0 + Z.of_nat (k + length inserted)) with (0 + Z.of_nat k + n)
      by (unfold n; lia).
    rewrite Hshift.
    destruct (f0 =? -1) eqn:E1; [lia|]. destruct (l0 =? -1) eqn:E2; [lia|]. reflexivity. }
  assert (Hat : (take k (Lines content) ++ inserted ++ drop k (Lines content))
                !! Z.to_nat (f0 + n) = Some anchorLine).
  { replace (Z.to_nat (f0 + n)) with (length (take k (Lines content) ++ inserted) + 0)%nat
      by (rewrite length_app, Hktake; unfold n, k; lia).
    rewrite app_assoc, lookup_app_r by lia.
    replace (length (take k (Lines content) ++ inserted) + 0
             - length (take k (Lines content) ++ inserted))%nat with O by lia.
    rewrite lookup_drop, Nat.add_0_r. exact Hline. }
  exists k, inserted.
  unfold applyFileModification. cbv zeta. rewrite Hlines, Hfind.
  destruct (f0 + n =? -1) eqn:E; [unfold n in E; lia|].
  rewrite Hposition. replace (String_eqb "before" "before") with true by reflexivity.
  rewrite (blockAlreadyExistsAtPosition_other _ _ (f0 + n) anchorLine
             ltac:(unfold n; lia) Hat).
  2:{ intros line Hin. rewrite Hmatch. now apply Hother. }
  cbn [obind]. rewrite (lineAt_lookup _ (f0 + n) _ ltac:(unfold n; lia) Hat).
  cbn [obind].
  replace (if getIndentation anchorLine + ModIndent fileMod <? 0 then 0
           else getIndentation anchorLine + ModIndent fileMod)
    with (Z.max 0 (getIndentation anchorLine + ModIndent fileMod)).
  2:{ destruct (getIndentation anchorLine + ModIndent fileMod <? 0) eqn:E0; lia. }
  rewrite Hprepare. cbn [obind]. unfold sliceTo, sliceFrom.
  match goal with
  | |- context [if ?c then Panic else _] => destruct c eqn:Ecap
  end.
  { replace (String_eqb "before" "before") with true in Ecap by reflexivity.
    rewrite !length_app, length_drop, Hktake in Ecap. unfold n, k in *.
    apply orb_true_iff in Ecap as [Ecap|Ecap]; apply Z.ltb_lt in Ecap; lia. }
  replace (String_eqb "before" "before") with true by reflexivity.
  cbn [obind]. eexists. split; [reflexivity|]. split; [exact Hnonempty|].
  split; [reflexivity|].
  assert (Htake : take (Z.to_nat (f0 + n))
                    (take k (Lines content) ++ inserted ++ drop k (Lines content))
                  = take k (Lines content) ++ inserted).
  { rewrite app_assoc. apply take_app_length'.
    rewrite length_app, Hktake. unfold n, k. lia. }
  assert (Hdrop : drop (Z.to_nat (f0 + n))
                    (take k (Lines content) ++ inserted ++ drop k (Lines content))
                  = drop k (Lines content)).
  { rewrite app_assoc. apply drop_app_length'.
    rewrite length_app, Hktake. unfold n, k. lia. }
  rewrite Htake, Hdrop, <- app_assoc.
  apply Lines_Unlines.
  - destruct (take k (Lines content)); [|discriminate].
    destruct inserted; [contradiction|discriminate].
  - apply Forall_app. split; [apply Forall_take, Lines_free|].
    assert (Hfree : Forall (fun line => ContainsChar line nl = false) inserted).
    { rewrite <- Hwritten. apply prepared_lines_free, Lines_free. }
    apply Forall_app. split; [exact Hfree|].
    apply Forall_app. split; [exact Hfree|apply Forall_drop, Lines_free].
Qed.

Lemma applyFileModification_before_inserts_again_witness :
  exists (k : nat) (inserted : list string) (again : string),
    Lines (Unlines ["# managed"; "spec:"])
    = take k (Lines "spec:") ++ inserted ++ drop k (Lines "spec:")
    /\ inserted <> []
    /\ applyFileModification (Unlines ["# managed"; "spec:"])
         (mkFileModification "banner" ["spec:"] "before" "# managed" 0)
       = Ok (again, true)
    /\ Lines again
       = take k (Lines "spec:") ++ inserted ++ inserted ++ drop k (Lines "spec:").
Proof.
  apply (applyFileModification_before_inserts_again "spec:"
           (mkFileModification "banner" ["spec:"] "before" "# managed" 0)
           (Unlines ["# managed"; "spec:"]) "spec:" eq_refl eq_refl).
  - intros line Hin. vm_compute in Hin.
    apply list_elem_of_singleton in Hin as ->. vm_compute. discriminate.
  - vm_compute. reflexivity.
Defined.

(** ** Backup and restore *)

Lemma perform_readOnly (chartPath : string) (fs : fileSystem) (a : action) :
  readOnly (perform chartPath fs a) = readOnly fs.
Proof.
  destruct a as [|content|]; cbn [perform].
  - unfold backupValuesFile.
    destruct (files fs !! valuesPath chartPath); [|reflexivity].
    destruct (files fs !! backupPath chartPath); [reflexivity|].
    unfold WriteFile. destruct (readOnly fs (backupPath chartPath)); reflexivity.
  - unfold WriteFile. destruct (readOnly fs (valuesPath chartPath)); reflexivity.
  - unfold restoreValuesFile.
    destruct (files fs !! backupPath chartPath); [|reflexivity].
    unfold WriteFile. destruct (readOnly fs (valuesPath chartPath)); reflexivity.
Qed.

Lemma performAll_keeps_backup (chartPath : string) (run : list action) (fs : fileSystem) :
  is_Some (files fs !! backupPath chartPath) ->
  files (performAll chartPath fs run) !! backupPath chartPath
  = files fs !! backupPath chartPath
  /\ readOnly (performAll chartPath fs run) = readOnly fs.
Proof.
  unfold performAll. revert fs. induction run as [|a run IH]; intros fs Hb; [now split|].
  cbn [foldl]. destruct (IH (perform chartPath fs a)) as [Hfiles Hro].
  - now rewrite backup_kept_by_action.
  - rewrite Hfiles, Hro, perform_readOnly. split; [|reflexivity].
    now apply backup_kept_by_action.
Qed.

(** A first backup, then any run of rewrites of [values.yaml], further
    backups and restores, then a restore: [values.yaml] holds again what it
    held when the first backup was taken, and so does the backup.  This needs
    both files to be writable and no backup to exist beforehand. *)
Theorem backup_then_restore_round_trip (fs : fileSystem) (chartPath original : string)
    (run : list action) :
  files fs !! valuesPath chartPath = Some original ->
  files fs !! backupPath chartPath = None ->
  readOnly fs (valuesPath chartPath) = false ->
  readOnly fs (backupPath chartPath) = false ->
  let final := performAll chartPath fs (CallBackup :: run ++ [CallRestore]) in
  files final !! valuesPath chartPath = Some original
  /\ files final !! backupPath chartPath = Some original.
Proof.
  intros Hvalues Hnone Hwv Hwb. cbv zeta. unfold performAll.
  cbn [foldl]. rewrite foldl_app. cbn [foldl].
  set (backed := perform chartPath fs CallBackup).
  assert (Hbacked : files backed !! backupPath chartPath = Some original
                    /\ readOnly backed = readOnly fs).
  { unfold backed. cbn [perform]. unfold backupValuesFile, WriteFile.
    rewrite Hvalues, Hnone, Hwb. cbn [snd files readOnly].
    split; [apply lookup_insert_eq|reflexivity]. }
  destruct Hbacked as [Hbackup Hro].
  destruct (performAll_keeps_backup chartPath run backed
              ltac:(exists original; exact Hbackup)) as [Hkept Hro'].
  unfold performAll in Hkept, Hro'. set (middle := foldl (perform chartPath) backed run) in *.
  rewrite Hbackup in Hkept. cbn [perform]. unfold restoreValuesFile, WriteFile.
  rewrite Hkept, Hro', Hro, Hwv. cbn [snd files].
  split; [apply lookup_insert_eq|].
  rewrite lookup_insert_ne by apply backupPath_fresh. exact Hkept.
Qed.

Lemma backup_then_restore_witness :
  files (performAll "chart"
           (mkFS {[ valuesPath "chart" := "replicaCount: 1" ]} (fun _ => false))
           (CallBackup :: [WriteValues "replicaCount: 3"; CallBackup] ++ [CallRestore]))
    !! valuesPath "chart"
  = Some "replicaCount: 1".
Proof.
  refine (proj1 (backup_then_restore_round_trip
                   (mkFS {[ valuesPath "chart" := "replicaCount: 1" ]} (fun _ => false))
                   "chart" "replicaCount: 1" [WriteValues "replicaCount: 3"; CallBackup]
                   _ _ _ _)).
  - vm_compute. reflexivity.
  - vm_compute. reflexivity.
  - reflexivity.
  - reflexivity.
Defined.

(** ** Registry paths in [values.yaml] *)

Section RegistryFacts.

Variable ParseNormalizedNamed : string -> option (string * string).
Variable pathJoin : list string -> string.



End RegistryFacts.

(** ** Documents and images of a rendered manifest *)

Lemma splitLoop_documents (lines : list string) (sb : string) (docs : list string) :
  Forall (fun doc => doc <> EmptyString /\ TrimSpace doc = doc) docs ->
  Forall (fun doc => doc <> EmptyString /\ TrimSpace doc = doc) (splitLoop lines sb docs).
Proof.
  assert (Hadd : forall text docs,
            Forall (fun doc => doc <> EmptyString /\ TrimSpace doc = doc) docs ->
            Forall (fun doc => doc <> EmptyString /\ TrimSpace doc = doc)
                   (if negb (String_eqb (TrimSpace text) EmptyString)
                    then docs ++ [TrimSpace text] else docs)).
  { intros text ds Hds. unfold String_eqb.
    destruct (decide (TrimSpace text = EmptyString)) as [E|E].
    - now rewrite bool_decide_eq_true_2 by exact E.
    - rewrite bool_decide_eq_false_2 by exact E. cbn [negb].
      apply Forall_app. split; [exact Hds|]. constructor; [|constructor].
      split; [exact E|apply TrimSpace_idem]. }
  revert sb docs. induction lines as [|line more IH]; intros sb docs Hdocs; cbn [splitLoop].
  - now apply Hadd.
  - destruct (String_eqb (TrimSpace line) "---" || String_eqb (TrimSpace line) "...").
    + apply IH. now apply Hadd.
    + now apply IH.
Qed.

(** [splitDocuments] returns documents that are not empty and have no white
    space at their ends, unless a line is too long for the scanner: it then
    returns the whole manifest as one document, as it is. *)
Theorem splitDocuments_trimmed (manifest : string) :
  match scanLines manifest with
  | Some _ =>
      Forall (fun doc => doc <> EmptyString /\ TrimSpace doc = doc)
             (splitDocuments manifest)
  | None => splitDocuments manifest = [manifest]
  end.
Proof.
  unfold splitDocuments. destruct (scanLines manifest) as [lines|]; [|reflexivity].
  apply splitLoop_documents. constructor.
Qed.

(** The documents of a manifest with a directive line, an end marker and
    Windows line ends. *)
Example splitDocuments_manifest :
  splitDocuments
    (Unlines ["---"; "kind: Pod"; String "013" EmptyString; "  ---  " ; "kind: Job";
              "..." +:+ String "013" EmptyString; EmptyString])
  = ["kind: Pod"; "kind: Job"].
Proof. vm_compute. reflexivity. Qed.

Lemma uniqueImages_spec (images : list string) (seen : gset string) :
  NoDup (uniqueImages images seen)
  /\ forall img, img ∈ uniqueImages images seen
                 <-> img <> EmptyString /\ img ∈ images /\ img ∉ seen.
Proof.
  revert seen. induction images as [|first more IH]; intros seen; cbn [uniqueImages].
  - split; [constructor|]. intros img. split; [intros H; inversion H|].
    intros (_ & H & _). inversion H.
  - unfold String_eqb. destruct (decide (first = EmptyString)) as [E|E].
    + rewrite bool_decide_eq_true_2 by exact E. destruct (IH seen) as [Hnodup Hin].
      split; [exact Hnodup|]. intros img. rewrite Hin, elem_of_cons. subst first.
      split; [intros (H1 & H2 & H3); auto|].
      intros (H1 & [H2|H2] & H3); [congruence|auto].
    + rewrite bool_decide_eq_false_2 by exact E.
      destruct (decide (first ∈ seen)) as [Hseen|Hseen].
      * rewrite bool_decide_eq_true_2 by exact Hseen. destruct (IH seen) as [Hnodup Hin].
        split; [exact Hnodup|]. intros img. rewrite Hin, elem_of_cons.
        split; [intros (H1 & H2 & H3); auto|].
        intros (H1 & [H2|H2] & H3); [congruence|auto].
      * rewrite bool_decide_eq_false_2 by exact Hseen.
        destruct (IH ({[first]} ∪ seen)) as [Hnodup Hin]. split.
        -- constructor; [|exact Hnodup]. rewrite Hin. intros (_ & _ & Hfresh).
           apply Hfresh, elem_of_union. left. now apply elem_of_singleton.
        -- intros img. rewrite elem_of_cons, Hin, elem_of_cons.
           split.
           ++ intros [->|(H1 & H2 & H3)]; [auto|]. split; [exact H1|].
              split; [now right|]. intros Hs. apply H3, elem_of_union. now right.
           ++ intros (H1 & [H2|H2] & H3); [now left|].
              destruct (decide (img = first)) as [->|Hne]; [now left|].
              right. split; [exact H1|]. split; [exact H2|].
              intros [Hs|Hs]%elem_of_union; [|contradiction].
              apply elem_of_singleton in Hs. contradiction.
Qed.

Section ImageFacts.

Variable yaml_unmarshal_any : string -> option ynode.

(** [ExtractImagesFromManifest] lists every image once and never the empty
    text: an image is listed exactly when it is not empty and some document
    of the manifest that is not blank and parses holds it. *)
Theorem ExtractImagesFromManifest_unique (manifest : string) :
  NoDup (ExtractImagesFromManifest yaml_unmarshal_any manifest)
  /\ forall img,
       img ∈ ExtractImagesFromManifest yaml_unmarshal_any manifest
       <-> img <> EmptyString
           /\ exists p doc,
                p ∈ splitDocuments manifest
                /\ TrimSpace p <> EmptyString
                /\ yaml_unmarshal_any (TrimSpace p) = Some doc
                /\ img ∈ collectImagesRecursive doc.
Proof.
  unfold ExtractImagesFromManifest.
  destruct (uniqueImages_spec
              (flat_map (documentImages yaml_unmarshal_any) (splitDocuments manifest)) ∅)
    as [Hnodup Hin].
  split; [exact Hnodup|]. intros img. rewrite Hin. split.
  - intros (Hne & Himg & _). split; [exact Hne|].
    apply list_elem_of_In, in_flat_map in Himg as (p & Hp & Himg).
    unfold documentImages in Himg.
    destruct (String_eqb (TrimSpace p) EmptyString) eqn:Eblank; [destruct Himg|].
    destruct (yaml_unmarshal_any (TrimSpace p)) as [doc|] eqn:Edoc; [|destruct Himg].
    exists p, doc. split; [now apply list_elem_of_In|].
    split; [unfold String_eqb in Eblank; now apply bool_decide_eq_false in Eblank|].
    split; [exact Edoc|]. now apply list_elem_of_In.
  - intros (Hne & p & doc & Hp & Hblank & Hdoc & Himg). split; [exact Hne|].
    split; [|apply not_elem_of_empty].
    apply list_elem_of_In, in_flat_map. exists p. split; [now apply list_elem_of_In|].
    unfold documentImages, String_eqb.
    rewrite bool_decide_eq_false_2 by exact Hblank. rewrite Hdoc.
    now apply list_elem_of_In.
Qed.

End ImageFacts.

(** ** The values patch engine: panics and matches *)

Lemma reindent_cases (body : list string) (indent base : Z) :
  match reindent body indent base with
  | Ok _ => Forall (fun line => ~ indent + (GetIndentation line - base) < 0) body
  | Panic => Exists (fun line => indent + (GetIndentation line - base) < 0) body
  | Fatal => False
  end.
Proof.
  induction body as [|line more IH]; cbn [reindent]; [constructor|]. cbv zeta.
  unfold RepeatSpace at 1.
  destruct (indent + (GetIndentation line - base) <? 0) eqn:E; cbn [obind].
  - apply Exists_cons_hd. lia.
  - destruct (reindent more indent base); cbn [obind].
    + constructor; [lia|exact IH].
    + now apply Exists_cons_tl.
    + exact IH.
Qed.

(** [injectBlockLines] never terminates the process, and it panics exactly
    when one of the blocks underflows: a one-line block written at a negative
    indentation, or a block with a body line so far to the left of the first
    content line that its new indentation would be negative. *)
Theorem injectBlockLines_panics_exactly (blocks : list string) (indent : Z) (key : string) :
  match injectBlockLines blocks indent key with
  | Ok _ => Forall (fun block => ~ underflows indent block) blocks
  | Panic => Exists (underflows indent) blocks
  | Fatal => False
  end.
Proof.
  induction blocks as [|block more IH]; cbn [injectBlockLines]; [constructor|]. cbv zeta.
  assert (Hhere :
    match (match Lines (TrimSpace block) with
           | [] => Ok []
           | [only] => do pad <- RepeatSpace indent; Ok [pad +:+ TrimSpace only]
           | _ :: (firstContentLine :: _) as body =>
               reindent body indent (GetIndentation firstContentLine)
           end) with
    | Ok _ => ~ underflows indent block
    | Panic => underflows indent block
    | Fatal => False
    end).
  { unfold underflows. destruct (Lines (TrimSpace block)) as [|keyLine [|first rest]].
    - exact id.
    - unfold RepeatSpace. destruct (indent <? 0) eqn:E; cbn [obind]; lia.
    - pose proof (reindent_cases (first :: rest) indent (GetIndentation first)) as Hcases.
      destruct (reindent (first :: rest) indent (GetIndentation first)); [|exact Hcases..].
      intros Hex. apply Exists_exists in Hex as (line & Hin & Hlt).
      rewrite Forall_forall in Hcases. exact (Hcases line Hin Hlt). }
  match goal with
  | |- match obind ?here _ with _ => _ end => destruct here; cbn [obind]
  end.
  - destruct (injectBlockLines more indent key); cbn [obind].
    + constructor; assumption.
    + now apply Exists_cons_tl.
    + exact IH.
  - now apply Exists_cons_hd.
  - exact Hhere.
Qed.

(** A block whose second body line is indented less than its first one is
    written at indentation 4 and panics at indentation 0. *)
Example injectBlockLines_underflow :
  injectBlockLines [Unlines ["resources:"; "    limits:"; "  cpu: 1"]] 4 "resources"
  = Ok ["    limits:"; "  cpu: 1"]
  /\ injectBlockLines [Unlines ["resources:"; "    limits:"; "  cpu: 1"]] 0 "resources"
     = Panic.
Proof. split; vm_compute; reflexivity. Qed.

Lemma fieldMatches_refl (a : ymap) (field : string) : fieldMatches a a field = true.
Proof.
  unfold fieldMatches. destruct (mapIndex a field); [|reflexivity].
  unfold String_eqb. now apply bool_decide_eq_true.
Qed.

Lemma fieldMatches_sym (a b : ymap) (field : string) :
  fieldMatches a b field = fieldMatches b a field.
Proof.
  unfold fieldMatches. destruct (mapIndex a field), (mapIndex b field); try reflexivity.
  unfold String_eqb. apply bool_decide_ext. split; congruence.
Qed.

Lemma fieldMatches_trans (a b c : ymap) (field : string) :
  fieldMatches a b field = true -> fieldMatches b c field = true ->
  fieldMatches a c field = true.
Proof.
  unfold fieldMatches, String_eqb.
  destruct (mapIndex a field), (mapIndex b field), (mapIndex c field);
    try discriminate; try reflexivity.
  intros H1%bool_decide_eq_true H2%bool_decide_eq_true.
  apply bool_decide_eq_true. congruence.
Qed.

Lemma forallb_agree {A : Type} (g h : A -> bool) (l : list A) :
  (forall x, x ∈ l -> g x = h x) -> forallb g l = forallb h l.
Proof.
  induction l as [|x l IH]; intros Hagree; [reflexivity|]. cbn [forallb].
  rewrite (Hagree x) by apply list_elem_of_here.
  rewrite IH; [reflexivity|]. intros y Hy. apply Hagree. now apply list_elem_of_further.
Qed.

(** [tolerationsMatch] is an equivalence on decoded items that looks at the
    five identity fields only: it is reflexive, symmetric and transitive, and
    two items with the same five fields match the same items, whatever other
    fields they carry and in whatever order their fields are listed. *)
Theorem tolerationsMatch_equivalence (a b c : ymap) :
  tolerationsMatch a a = true
  /\ tolerationsMatch a b = tolerationsMatch b a
  /\ (tolerationsMatch a b = true -> tolerationsMatch b c = true ->
      tolerationsMatch a c = true)
  /\ ((forall field, field ∈ tolerationFields -> mapIndex a field = mapIndex b field) ->
      tolerationsMatch a c = tolerationsMatch b c).
Proof.
  unfold tolerationsMatch. split; [|split; [|split]].
  - apply forallb_forall. intros field _. apply fieldMatches_refl.
  - apply forallb_agree. intros field _. apply fieldMatches_sym.
  - rewrite !forallb_forall. intros Hab Hbc field Hin.
    exact (fieldMatches_trans a b c field (Hab field Hin) (Hbc field Hin)).
  - intros Hsame. apply forallb_agree. intros field Hin.
    unfold fieldMatches. now rewrite (Hsame field Hin).
Qed.

(** Two items that differ in the order of their fields and in a field that
    plays no part match; two items with different effects do not. *)
Example tolerationsMatch_items :
  tolerationsMatch [("key", YStr "dedicated"); ("operator", YStr "Exists")]
                   [("comment", YStr "gpu"); ("operator", YStr "Exists");
                    ("key", YStr "dedicated")] = true
  /\ tolerationsMatch [("key", YStr "dedicated"); ("effect", YStr "NoSchedule")]
                      [("key", YStr "dedicated"); ("effect", YStr "NoExecute")] = false.
Proof. split; vm_compute; reflexivity. Qed.

(** ** The values patch engine returns *)

Lemma emitNode_seq_cons (item : ynode) (items : list ynode) (ind : nat) :
  Yaml.emitNode (YSeq (item :: items)) ind
  = match item with
    | YSeq (_ :: _) | YMap (_ :: _) => Yaml.dashFirst ind (Yaml.emitNode item (ind + 2))
    | _ => [spaces ind +:+ "- " +:+ Yaml.scalarText item]
    end ++ Yaml.emitNode (YSeq items) ind.
Proof. reflexivity. Qed.

Lemma dashFirst_starts (lines : list string) :
  exists x rest, Yaml.dashFirst 0 lines = String "-" x :: rest.
Proof. destruct lines; eexists _, _; reflexivity. Qed.

(** The encoder of the block dialect writes a list of tolerations as a
    well-indented block: the items start in the first column. *)
Lemma Marshal_tolerations_wellIndented (tolerations : list (list (ynode * ynode))) :
  wellIndentedBlock (Yaml.Marshal [("tolerations", YSeq (map YMap tolerations))]).
Proof.
  destruct tolerations as [|t ts]; [unfold wellIndentedBlock; vm_compute; exact I|].
  assert (Hemit : exists x rest,
            Yaml.emitNode (YSeq (YMap t :: map YMap ts)) 0 = String "-" x :: rest).
  { rewrite emitNode_seq_cons. destruct t as [|e t'].
    - eexists _, _. reflexivity.
    - destruct (dashFirst_starts (Yaml.emitNode (YMap (e :: t')) (0 + 2)))
        as (x & rest & ->).
      eexists _, _. reflexivity. }
  destruct Hemit as (x & rest & Hemit).
  assert (Htext : exists z,
            Yaml.Marshal [("tolerations", YSeq (map YMap (t :: ts)))]
            = "tolerations:" +:+ String nl (String "-" z)).
  { unfold Yaml.Marshal.
    change (Yaml.emitNode
              (YMap (map (fun kv : string * ynode => (YStr kv.1, kv.2))
                         [("tolerations", YSeq (map YMap (t :: ts)))])) 0)
      with (Yaml.sortEntries
              [("tolerations",
                "tolerations:" :: Yaml.emitNode (YSeq (YMap t :: map YMap ts)) 0)]).
    rewrite Hemit. unfold Yaml.sortEntries.
    cbn [map foldr Yaml.insertSorted concat snd fst]. rewrite app_nil_r.
    destruct rest as [|second rest]; eexists; reflexivity. }
  destruct Htext as [z ->].
  destruct (TrimRight_keeps_first "-" z eq_refl) as [u Hu].
  assert (Htrim : TrimSpace ("tolerations:" +:+ String nl (String "-" z))
                  = "tolerations:" +:+ String nl (String "-" u)).
  { unfold TrimSpace.
    change (TrimLeft ("tolerations:" +:+ String nl (String "-" z)))
      with (("tolerations:" +:+ newline) +:+ String "-" z).
    rewrite TrimRight_app by (rewrite Hu; discriminate). now rewrite Hu. }
  unfold wellIndentedBlock. rewrite Htrim. unfold Lines.
  rewrite Split_app_sep by reflexivity.
  cbn [Split]. change (Ascii.eqb "-" nl) with false. cbv iota.
  pose proof (Split_not_nil u nl) as Hne.
  destruct (Split u nl) as [|p ps]; [contradiction|].
  apply Forall_forall. intros line _.
  unfold GetIndentation at 1. cbn [GetIndentationNat]. change (Ascii.eqb "-" " ") with false.
  cbv iota. apply GetIndentation_nonneg.
Qed.

Section EngineReturns.

Variable yaml_unmarshal : string -> option ymap.
Variable yaml_marshal : ymap -> string.

(** With candidates that are well indented, an encoder that writes a list
    of tolerations as a well-indented block and a wrapper offset that is not
    negative, [injectBlockIntoValuesPath] returns for every document and
    every reference: it neither panics nor terminates the process. *)
Theorem injectBlockIntoValuesPath_returns (content : string) (ref : ValueReference)
    (blocks : list string) (indentOffset : Z) :
  (forall tolerations,
     wellIndentedBlock (yaml_marshal [("tolerations", YSeq (map YMap tolerations))])) ->
  0 <= indentOffset ->
  Forall wellIndentedBlock blocks ->
  exists out fileModified injected,
    injectBlockIntoValuesPath yaml_unmarshal yaml_marshal content ref blocks indentOffset
    = Ok (out, fileModified, injected).
Proof.
  intros Hmarshal Hoffset Hblocks. unfold injectBlockIntoValuesPath.
  destruct (patchLines_returns yaml_unmarshal yaml_marshal Hmarshal (Lines content) ref
              blocks indentOffset Hoffset Hblocks) as [[[res m] inj] ->].
  cbn [obind]. eauto.
Qed.

End EngineReturns.

Lemma injectBlockIntoValuesPath_returns_witness :
  exists out fileModified injected,
    injectBlockIntoValuesPath Yaml.Unmarshal Yaml.Marshal listedDeeper tolerationsRef
      [oneToleration] 0
    = Ok (out, fileModified, injected).
Proof.
  apply (injectBlockIntoValuesPath_returns Yaml.Unmarshal Yaml.Marshal listedDeeper
           tolerationsRef [oneToleration] 0 Marshal_tolerations_wellIndented).
  - lia.
  - constructor; [|constructor]. unfold wellIndentedBlock. vm_compute.
    constructor; [discriminate|constructor].
Defined.

(** ** The deep merge *)

Lemma keyEqb_eq (a b : ynode) : keyEqb a b = true -> a = b.
Proof.
  destruct a, b; cbn [keyEqb]; try discriminate; try reflexivity.
  - intros H. apply Bool.eqb_prop in H. now subst.
  - intros H. apply Z.eqb_eq in H. now subst.
  - unfold String_eqb. intros H. apply bool_decide_eq_true in H. now subst.
Qed.

Lemma keyEqb_sym (a b : ynode) : keyEqb a b = keyEqb b a.
Proof.
  destruct a, b; cbn [keyEqb]; try reflexivity.
  - destruct b0, b; reflexivity.
  - apply Z.eqb_sym.
  - unfold String_eqb. apply bool_decide_ext. split; congruence.
Qed.

Lemma entryIndex_absent (m : list (ynode * ynode)) (k : ynode) :
  k ∉ map fst m -> entryIndex m k = None.
Proof.
  induction m as [|[k0 v0] m IH]; [reflexivity|]. cbn [map fst entryIndex].
  intros Hnot. destruct (keyEqb k0 k) eqn:E.
  - apply keyEqb_eq in E. subst k0. exfalso. apply Hnot, list_elem_of_here.
  - apply IH. intros Hin. apply Hnot. now apply list_elem_of_further.
Qed.

(** Looking up after a store. *)
Lemma entryIndex_entryStore (m : list (ynode * ynode)) (k v k' : ynode) :
  keyEqb k k = true ->
  entryIndex (entryStore m k v) k' = if keyEqb k k' then Some v else entryIndex m k'.
Proof.
  intros Hk. induction m as [|[k0 v0] m IH]; cbn [entryStore entryIndex]; [reflexivity|].
  destruct (keyEqb k0 k) eqn:E0.
  - apply keyEqb_eq in E0. subst k0. cbn [entryIndex].
    destruct (keyEqb k k'); reflexivity.
  - cbn [entryIndex]. rewrite IH. destruct (keyEqb k0 k') eqn:E1; [|reflexivity].
    apply keyEqb_eq in E1. subst k'. rewrite keyEqb_sym, E0. reflexivity.
Qed.

Lemma deepMergeYAML_fold (existingMap newMap acc : list (ynode * ynode)) (k : ynode) :
  distinctKeys newMap ->
  entryIndex
    (foldl (fun acc kv => entryStore acc kv.1 (mergeValue kv.2 (entryIndex existingMap kv.1)))
           acc newMap) k
  = match entryIndex newMap k with
    | Some srcValue => Some (mergeValue srcValue (entryIndex existingMap k))
    | None => entryIndex acc k
    end.
Proof.
  intros [Hnodup Hkeys]. revert acc.
  induction newMap as [|[k0 s] more IH]; intros acc; [reflexivity|].
  cbn [map fst] in Hnodup. apply NoDup_cons in Hnodup as [Hfresh Hnodup].
  inversion Hkeys as [|? ? Hk0 Hmore]; subst. cbn [fst] in Hk0.
  cbn [foldl fst snd entryIndex]. rewrite (IH Hnodup Hmore).
  destruct (keyEqb k0 k) eqn:E.
  - apply keyEqb_eq in E. subst k0. rewrite (entryIndex_absent more k Hfresh).
    rewrite entryIndex_entryStore by exact Hk0. now rewrite Hk0.
  - destruct (entryIndex more k); [reflexivity|].
    rewrite entryIndex_entryStore by exact Hk0. now rewrite E.
Qed.

(** What a key holds after the deep merge: a key the new map does not carry
    keeps what the existing map holds for it; a key of the new map holds the
    new value, except when both maps hold a mapping for it: it then holds the
    deep merge of the two. *)
Theorem deepMergeYAML_lookup (existingMap newMap : list (ynode * ynode)) (k : ynode) :
  distinctKeys newMap ->
  entryIndex (deepMergeYAML existingMap newMap) k
  = match entryIndex newMap k with
    | None => entryIndex existingMap k
    | Some srcValue =>
        Some match srcValue, entryIndex existingMap k with
             | YMap srcMap, Some (YMap destMap) => YMap (deepMergeYAML destMap srcMap)
             | _, _ => srcValue
             end
    end.
Proof.
  intros Hkeys. unfold deepMergeYAML at 1. rewrite deepMergeYAML_fold by exact Hkeys.
  destruct (entryIndex newMap k) as [srcValue|]; [|reflexivity].
  destruct srcValue, (entryIndex existingMap k) as [[]|]; reflexivity.
Qed.

Lemma deepMergeYAML_lookup_witness :
  entryIndex (deepMergeYAML
                [(YStr "app", YMap [(YStr "mode", YStr "api"); (YStr "port", YInt 80)]);
                 (YStr "replicas", YInt 1)]
                [(YStr "app", YMap [(YStr "mode", YStr "dashboard")])])
             (YStr "app")
  = Some (YMap [(YStr "mode", YStr "dashboard"); (YStr "port", YInt 80)]).
Proof.
  rewrite (deepMergeYAML_lookup
             [(YStr "app", YMap [(YStr "mode", YStr "api"); (YStr "port", YInt 80)]);
              (YStr "replicas", YInt 1)]
             [(YStr "app", YMap [(YStr "mode", YStr "dashboard")])] (YStr "app")).
  - vm_compute. reflexivity.
  - split; [repeat constructor; inversion 1|repeat constructor].
Defined.

Lemma entryStore_same (m : list (ynode * ynode)) (k v : ynode) :
  entryIndex m k = Some v -> entryStore m k v = m.
Proof.
  induction m as [|[k0 v0] m IH]; cbn [entryIndex entryStore]; [discriminate|].
  destruct (keyEqb k0 k); [intros [= ->]; reflexivity|].
  intros H. now rewrite IH.
Qed.

Lemma entryIndex_present (m : list (ynode * ynode)) (k v : ynode) :
  distinctKeys m -> (k, v) ∈ m -> entryIndex m k = Some v.
Proof.
  intros [Hnodup Hkeys]. induction m as [|[k0 v0] m IH]; [intros H; inversion H|].
  cbn [map fst] in Hnodup. apply NoDup_cons in Hnodup as [Hfresh Hnodup].
  inversion Hkeys as [|? ? Hk0 Hmore]; subst. cbn [fst] in Hk0.
  intros [Hhead|Hin]%elem_of_cons; cbn [entryIndex].
  - injection Hhead as -> ->. now rewrite Hk0.
  - destruct (keyEqb k0 k) eqn:E; [|now apply IH].
    apply keyEqb_eq in E. subst k0. exfalso. apply Hfresh.
    apply list_elem_of_fmap. exists (k, v). split; [reflexivity|exact Hin].
Qed.

Lemma wellKeyed_entry (entries : list (ynode * ynode)) (k v : ynode) :
  foldr (fun kv rest => wellKeyed kv.2 /\ rest) True entries ->
  (k, v) ∈ entries -> wellKeyed v.
Proof.
  induction entries as [|[k0 v0] entries IH]; [intros _ H; inversion H|].
  cbn [foldr snd]. intros [Hhead Hrest] [Heq|Hin]%elem_of_cons.
  - injection Heq as -> ->. exact Hhead.
  - now apply IH.
Qed.

(** A fold of stores that each write what the map already holds leaves the
    map as it is. *)
Lemma foldl_entryStore_same (value : ynode * ynode -> ynode)
    (m part : list (ynode * ynode)) :
  (forall kv, kv ∈ part -> entryIndex m kv.1 = Some (value kv)) ->
  foldl (fun acc kv => entryStore acc kv.1 (value kv)) m part = m.
Proof.
  induction part as [|kv part IH]; intros Hsame; [reflexivity|]. cbn [foldl].
  rewrite entryStore_same by (apply Hsame, list_elem_of_here).
  apply IH. intros kv' Hin. apply Hsame. now apply list_elem_of_further.
Qed.

Lemma deepMergeYAML_self (m : list (ynode * ynode)) :
  distinctKeys m ->
  (forall k v, (k, v) ∈ m -> mergeValue v (Some v) = v) ->
  deepMergeYAML m m = m.
Proof.
  intros Hkeys Hself. unfold deepMergeYAML.
  apply (foldl_entryStore_same
           (fun kv => mergeValue kv.2 (entryIndex m kv.1)) m m).
  intros [k v] Hin. cbn [fst snd].
  rewrite (entryIndex_present m k v Hkeys Hin). f_equal. symmetry. exact (Hself k v Hin).
Qed.

Lemma deepMergeYAML_again (existingMap newMap : list (ynode * ynode)) :
  distinctKeys newMap ->
  (forall k v, (k, v) ∈ newMap ->
     forall d, mergeValue v (Some (mergeValue v d)) = mergeValue v d) ->
  deepMergeYAML (deepMergeYAML existingMap newMap) newMap
  = deepMergeYAML existingMap newMap.
Proof.
  intros Hkeys Hagain. unfold deepMergeYAML at 1.
  apply (foldl_entryStore_same
           (fun kv => mergeValue kv.2
                        (entryIndex (deepMergeYAML existingMap newMap) kv.1))
           (deepMergeYAML existingMap newMap) newMap).
  intros [k v] Hin. cbn [fst snd].
  assert (Hheld : entryIndex (deepMergeYAML existingMap newMap) k
                  = Some (mergeValue v (entryIndex existingMap k))).
  { unfold deepMergeYAML. rewrite deepMergeYAML_fold by exact Hkeys.
    now rewrite (entryIndex_present newMap k v Hkeys Hin). }
  rewrite Hheld. f_equal. symmetry. apply (Hagain k v Hin).
Qed.

(** Induction on a value through its nested mappings. *)
Lemma ynode_mapping_ind (P : ynode -> Prop) :
  (forall v, (forall entries, v = YMap entries ->
                forall k w, (k, w) ∈ entries -> P w) -> P v) ->
  forall v, P v.
Proof.
  intros Hstep.
  fix IH 1. intros v. apply Hstep.
  destruct v as [| | | | items|entries]; intros held Heq; try discriminate Heq.
  injection Heq as <-. clear Hstep.
  induction entries as [|[k0 w0] entries IHentries]; intros k w Hin.
  - inversion Hin.
  - apply elem_of_cons in Hin as [Heq|Hin].
    + injection Heq as -> ->. apply IH.
    + exact (IHentries k w Hin).
Qed.

Lemma mergeValue_self (v : ynode) : wellKeyed v -> mergeValue v (Some v) = v.
Proof.
  induction v as [v IH] using ynode_mapping_ind. intros Hwell.
  destruct v as [| | | | items|entries]; try reflexivity.
  cbn [wellKeyed] in Hwell. destruct Hwell as [Hkeys Hnested].
  change (mergeValue (YMap entries) (Some (YMap entries)))
    with (YMap (deepMergeYAML entries entries)).
  f_equal. apply deepMergeYAML_self; [exact Hkeys|].
  intros k w Hin. apply (IH entries eq_refl k w Hin).
  exact (wellKeyed_entry entries k w Hnested Hin).
Qed.

Lemma mergeValue_again (v : ynode) :
  wellKeyed v -> forall d, mergeValue v (Some (mergeValue v d)) = mergeValue v d.
Proof.
  induction v as [v IH] using ynode_mapping_ind. intros Hwell d.
  destruct v as [| | | | items|entries]; try reflexivity.
  pose proof Hwell as [Hkeys Hnested].
  destruct d as [[| | | | ditems|dentries]|];
    try (change (mergeValue (YMap entries) _) with (YMap entries) at 2;
         change (mergeValue (YMap entries) _) with (YMap entries) at 2;
         exact (mergeValue_self (YMap entries) Hwell)).
  change (mergeValue (YMap entries) (Some (YMap dentries)))
    with (YMap (deepMergeYAML dentries entries)).
  change (mergeValue (YMap entries) (Some (YMap (deepMergeYAML dentries entries))))
    with (YMap (deepMergeYAML (deepMergeYAML dentries entries) entries)).
  f_equal. apply deepMergeYAML_again; [exact Hkeys|].
  intros k w Hin. apply (IH entries eq_refl k w Hin).
  exact (wellKeyed_entry entries k w Hnested Hin).
Qed.

(** The deep merge is idempotent: merging a fragment into the result of
    merging it changes nothing, and merging a map into itself returns it, when
    the mappings of the fragment have the keys of Go maps at every depth. *)
Theorem deepMergeYAML_idempotent (existingMap newMap : list (ynode * ynode)) :
  wellKeyed (YMap newMap) ->
  deepMergeYAML (deepMergeYAML existingMap newMap) newMap
  = deepMergeYAML existingMap newMap
  /\ deepMergeYAML newMap newMap = newMap.
Proof.
  intros Hwell. pose proof Hwell as [Hkeys Hnested]. split.
  - apply deepMergeYAML_again; [exact Hkeys|]. intros k v Hin.
    apply mergeValue_again. exact (wellKeyed_entry newMap k v Hnested Hin).
  - apply deepMergeYAML_self; [exact Hkeys|]. intros k v Hin.
    apply mergeValue_self. exact (wellKeyed_entry newMap k v Hnested Hin).
Qed.

Lemma deepMergeYAML_idempotent_witness :
  deepMergeYAML
    (deepMergeYAML [(YStr "app", YMap [(YStr "port", YInt 80)])]
                   [(YStr "app", YMap [(YStr "mode", YStr "api")]); (YStr "debug", YBool true)])
    [(YStr "app", YMap [(YStr "mode", YStr "api")]); (YStr "debug", YBool true)]
  = deepMergeYAML [(YStr "app", YMap [(YStr "port", YInt 80)])]
                  [(YStr "app", YMap [(YStr "mode", YStr "api")]); (YStr "debug", YBool true)].
Proof.
  refine (proj1 (deepMergeYAML_idempotent
                   [(YStr "app", YMap [(YStr "port", YInt 80)])]
                   [(YStr "app", YMap [(YStr "mode", YStr "api")]); (YStr "debug", YBool true)]
                   _)).
  cbn [wellKeyed foldr snd]. unfold distinctKeys. cbn [map fst].
  repeat split; repeat constructor.
  - intros [H|H]%elem_of_cons; [discriminate|inversion H].
  - inversion 1.
  - inversion 1.
Defined.

(** ** The in-place pod-spec injector only adds lines *)

Lemma copySubtree_prefix (rest : list string) (indent : Z) :
  take (length (copySubtree rest indent)) rest = copySubtree rest indent.
Proof.
  induction rest as [|line more IH]; [reflexivity|]. cbn [copySubtree].
  destruct ((getIndentation line <=? indent) && negb (isBlankOrComment line));
    [reflexivity|].
  cbn [length take]. now rewrite IH.
Qed.

Section PodInjectorFrame.

Variable yaml_unmarshal : string -> option ymap.

Lemma onPodSpec_keeps (blocks : gmap string (list string)) (criticalDs controlPlane : bool)
    (line : string) (rest : list string) :
  let (added, dealt) :=
    onPodSpec yaml_unmarshal blocks criticalDs controlPlane line rest in
  sublist (take dealt rest) added.
Proof.
  unfold onPodSpec. cbv zeta.
  destruct (findMissingPodBlocks yaml_unmarshal rest (getIndentation line) _)
    as [|missing more] eqn:Emissing.
  - rewrite copySubtree_prefix. reflexivity.
  - destruct (getPodBlocksByKey yaml_unmarshal (missing :: more) "tolerations")
      as [|tol tols];
      [apply sublist_inserts_r; reflexivity|].
    destruct (findExistingPodKey rest (getIndentation line) "tolerations") as [existing|];
      [|apply sublist_inserts_r; reflexivity].
    destruct (removePodBlocksByKey yaml_unmarshal (missing :: more) "tolerations");
      [apply sublist_inserts_r; reflexivity|].
    rewrite <- take_take_drop, <- !app_assoc.
    apply sublist_app; [reflexivity|]. apply sublist_inserts_l.
    apply sublist_inserts_r. reflexivity.
Qed.

Lemma podScan_keeps (blocks : gmap string (list string)) (resourceKind : string)
    (criticalDs controlPlane : bool) (lines : list string) (rest : list string) :
  forall (i skip : nat),
    sublist (drop skip rest)
            (podScan yaml_unmarshal blocks resourceKind criticalDs controlPlane lines
                     i skip rest).
Proof.
  induction rest as [|line more IH]; intros i skip; [now rewrite drop_nil|].
  cbn [podScan]. destruct skip as [|k]; [|apply IH].
  cbn [drop]. destruct (isPodSpec resourceKind lines i).
  - pose proof (onPodSpec_keeps blocks criticalDs controlPlane line more) as Hkeeps.
    destruct (onPodSpec yaml_unmarshal blocks criticalDs controlPlane line more)
      as [added dealt].
    apply sublist_skip. rewrite <- (take_drop dealt more) at 1.
    apply sublist_app; [exact Hkeeps|apply IH].
  - apply sublist_skip. apply (IH (S i) O).
Qed.

Lemma behind_spaces_free (n : nat) (block : string) (drop1 : bool) :
  Forall (fun line => ContainsChar line nl = false)
    (map (fun line => spaces n +:+ line)
         (if drop1 then tail (Lines (TrimSpace block)) else Lines (TrimSpace block))).
Proof.
  apply Forall_fmap.
  assert (Hlines : Forall (fun line => ContainsChar line nl = false)
                          (if drop1 then tail (Lines (TrimSpace block))
                           else Lines (TrimSpace block))).
  { pose proof (Lines_free (TrimSpace block)) as Hfree. destruct drop1; [|exact Hfree].
    destruct (Lines (TrimSpace block)); [constructor|]. now inversion Hfree. }
  eapply Forall_impl; [exact Hlines|]. cbn. intros line Hline.
  rewrite ContainsChar_app, ContainsChar_spaces by discriminate. exact Hline.
Qed.

Lemma flat_map_free (f : string -> list string) (items : list string) :
  (forall item, Forall (fun line => ContainsChar line nl = false) (f item)) ->
  Forall (fun line => ContainsChar line nl = false) (flat_map f items).
Proof.
  intros Hf. induction items as [|item items IH]; [constructor|].
  cbn [flat_map]. apply Forall_app. split; [apply Hf|exact IH].
Qed.

Lemma injectMissingPodBlocks_free (missingBlocks : list string) (indent : Z) :
  Forall (fun line => ContainsChar line nl = false)
         (injectMissingPodBlocks yaml_unmarshal missingBlocks indent).
Proof.
  unfold injectMissingPodBlocks. cbv zeta. apply Forall_app. split.
  - destruct (List.filter _ missingBlocks) as [|tol tols]; [constructor|].
    constructor.
    + rewrite ContainsChar_app, ContainsChar_spaces by discriminate. reflexivity.
    + apply flat_map_free. intros block.
      exact (behind_spaces_free (Z.to_nat indent) block true).
  - apply flat_map_free. intros block.
    exact (behind_spaces_free (Z.to_nat indent) block false).
Qed.

Lemma appendedItems_free (tolerationBlocks : list string) (indent : Z) :
  Forall (fun line => ContainsChar line nl = false)
         (appendedItems tolerationBlocks indent).
Proof.
  unfold appendedItems. cbv zeta. apply flat_map_free. intros block.
  apply Forall_fmap.
  assert (Hlines : Forall (fun line => ContainsChar line nl = false)
                          (tail (Lines (TrimSpace block)))).
  { pose proof (Lines_free (TrimSpace block)) as Hfree.
    destruct (Lines (TrimSpace block)); [constructor|]. now inversion Hfree. }
  eapply Forall_impl; [exact Hlines|]. cbn. intros line Hline.
  destruct (HasPrefix (TrimSpace line) "- ");
    rewrite !ContainsChar_app, ContainsChar_spaces by discriminate;
    rewrite (TrimSpace_free _ _ Hline); reflexivity.
Qed.

Lemma onPodSpec_free (blocks : gmap string (list string)) (criticalDs controlPlane : bool)
    (line : string) (rest : list string) :
  Forall (fun l => ContainsChar l nl = false) rest ->
  Forall (fun l => ContainsChar l nl = false)
         (onPodSpec yaml_unmarshal blocks criticalDs controlPlane line rest).1.
Proof.
  intros Hrest. unfold onPodSpec. cbv zeta.
  destruct (findMissingPodBlocks yaml_unmarshal rest (getIndentation line) _)
    as [|missing more] eqn:Emissing; cbn [fst].
  - rewrite <- copySubtree_prefix. now apply Forall_take.
  - assert (Hplain : Forall (fun l => ContainsChar l nl = false)
              (take (findPodBlockInjectionPoint rest (getIndentation line)) rest
               ++ injectMissingPodBlocks yaml_unmarshal (missing :: more)
                    (getIndentation line + 2))).
    { apply Forall_app. split; [now apply Forall_take|apply injectMissingPodBlocks_free]. }
    destruct (getPodBlocksByKey yaml_unmarshal (missing :: more) "tolerations")
      as [|tol tols]; [exact Hplain|].
    destruct (findExistingPodKey rest (getIndentation line) "tolerations") as [existing|];
      [|exact Hplain].
    destruct (removePodBlocksByKey yaml_unmarshal (missing :: more) "tolerations");
      cbn [fst].
    + apply Forall_app. split; [now apply Forall_take|apply appendedItems_free].
    + apply Forall_app. split.
      * apply Forall_app. split; [now apply Forall_take|apply appendedItems_free].
      * apply Forall_app. split; [|apply injectMissingPodBlocks_free].
        apply Forall_take. now apply Forall_drop.
Qed.

Lemma podScan_free (blocks : gmap string (list string)) (resourceKind : string)
    (criticalDs controlPlane : bool) (lines : list string) (rest : list string) :
  Forall (fun l => ContainsChar l nl = false) rest ->
  forall (i skip : nat),
    Forall (fun l => ContainsChar l nl = false)
           (podScan yaml_unmarshal blocks resourceKind criticalDs controlPlane lines
                    i skip rest).
Proof.
  induction 1 as [|line more Hline Hmore IH]; intros i skip; [constructor|].
  cbn [podScan]. destruct skip as [|k]; [|apply IH].
  destruct (isPodSpec resourceKind lines i).
  - pose proof (onPodSpec_free blocks criticalDs controlPlane line more Hmore) as Hadded.
    destruct (onPodSpec yaml_unmarshal blocks criticalDs controlPlane line more)
      as [added dealt].
    constructor; [exact Hline|]. apply Forall_app. split; [exact Hadded|apply IH].
  - constructor; [exact Hline|apply IH].
Qed.

(** [injectInlinePodSpec] only adds lines: the lines of the template are,
    in their order and unchanged, among the lines of its result. *)
Theorem injectInlinePodSpec_only_adds (content : string)
    (blocks : gmap string (list string)) (resourceKind : string)
    (criticalDs controlPlane : bool) :
  sublist (Lines content)
          (Lines (injectInlinePodSpec yaml_unmarshal content blocks resourceKind
                    criticalDs controlPlane)).
Proof.
  unfold injectInlinePodSpec. cbv zeta.
  pose proof (podScan_keeps blocks resourceKind criticalDs controlPlane (Lines content)
                (Lines content) O O) as Hkeeps.
  pose proof (podScan_free blocks resourceKind criticalDs controlPlane (Lines content)
                (Lines content) (Lines_free content) O O) as Hfree.
  cbn [drop] in Hkeeps. rewrite Lines_Unlines; [exact Hkeeps|
    |exact Hfree].
  intros Hnil. rewrite Hnil in Hkeeps. apply sublist_nil_r in Hkeeps.
  exact (Split_not_nil content nl Hkeeps).
Qed.

End PodInjectorFrame.

(** ** A run of modifications of one file *)

(** The modifications of a file never panic and only insert: the lines of
    the file are, in their order and unchanged, among the lines written back,
    and when no modification reports a change the content is the one
    read. *)
Theorem applyModifications_only_insert (modifications : list FileModification)
    (fileContent : string) (modified : bool) :
  exists out changed,
    applyModifications fileContent modified modifications = Ok (out, changed)
    /\ sublist (Lines fileContent) (Lines out)
    /\ (changed = false -> out = fileContent /\ modified = false).
Proof.
  revert fileContent modified.
  induction modifications as [|modification more IH]; intros fileContent modified.
  - exists fileContent, modified. repeat split; [reflexivity|assumption].
  - cbn [applyModifications].
    destruct (applyFileModification_cases fileContent modification)
      as (newContent & changed & -> & Hsame & Hinserted). cbn [obind].
    destruct changed.
    + destruct (IH newContent true) as (out & changed & -> & Hsub & Hunchanged).
      exists out, changed. split; [reflexivity|]. split.
      * etransitivity; [|exact Hsub].
        destruct (Hinserted eq_refl) as (anchorLine & inserted & Hrun).
        destruct (findAnchorLinesWithRange (Lines fileContent) (AnchorLines modification))
          as [f l].
        destruct Hrun as (_ & _ & _ & _ & ->).
        rewrite <- (take_drop (Z.to_nat (if String_eqb (Position modification) "before"
                                          then f else l + 1)) (Lines fileContent)) at 1.
        apply sublist_app; [reflexivity|]. apply sublist_inserts_l. reflexivity.
      * intros Hfalse. destruct (Hunchanged Hfalse) as [_ Hcontra]. discriminate.
    + apply IH.
Qed.

(** ** The root-level merge without a fragment that parses *)

Section RootMergeFacts.

Variable yaml_unmarshal : string -> option ymap.
Variable yaml_marshal : ymap -> string.

(** With no fragment, or with fragments that all fail to parse or hold no
    key, [injectNewValuesIntoRoot] returns the content as it was given and
    reports no change. *)
Theorem injectNewValuesIntoRoot_without_keys (content : string)
    (newValuesBlocks : list string) (indentOffset : Z) :
  Forall (fun block => yaml_unmarshal block = None \/ yaml_unmarshal block = Some [])
         newValuesBlocks ->
  injectNewValuesIntoRoot yaml_unmarshal yaml_marshal content newValuesBlocks indentOffset
  = Ok (content, false).
Proof.
  intros Hblocks. unfold injectNewValuesIntoRoot.
  assert (Hloop : forall lines changed,
            injectRootBlocks yaml_unmarshal yaml_marshal lines newValuesBlocks
              indentOffset changed = Ok (lines, changed)).
  { induction Hblocks as [|block more [Hnone|Hempty] _ IH]; intros lines changed;
      cbn [injectRootBlocks]; [reflexivity|rewrite Hnone; apply IH|].
    rewrite Hempty. cbn [injectRootKeys obind]. apply IH. }
  rewrite Hloop. cbn [obind]. now rewrite Unlines_Lines.
Qed.

End RootMergeFacts.

Lemma injectNewValuesIntoRoot_without_keys_witness :
  injectNewValuesIntoRoot Yaml.Unmarshal Yaml.Marshal "replicas: 1"
    ["app: mode: dashboard"] 2
  = Ok ("replicas: 1", false).
Proof.
  apply (injectNewValuesIntoRoot_without_keys Yaml.Unmarshal Yaml.Marshal).
  constructor; [|constructor]. left. vm_compute. reflexivity.
Defined.

(** ** The existence prober: what is stored and what is sent *)

Lemma probe_requests (reg : registry) (s : slot) (img : string) (r : request) :
  r ∈ (probe reg s img).2 ->
  (r = Head img \/ r = Get img) /\ s = Acquired /\ parses reg img = true
  /\ (r = Get img -> headSucceeds reg img = false).
Proof.
  unfold probe. destruct s; [|intros Hin; now apply elem_of_nil in Hin].
  destruct (parses reg img); cbn [negb];
    [|intros Hin; now apply elem_of_nil in Hin].
  destruct (headSucceeds reg img).
  - intros Hin. apply list_elem_of_singleton in Hin as ->.
    repeat split; [now left|discriminate].
  - assert (Hboth : r ∈ [Head img; Get img] ->
                    (r = Head img \/ r = Get img) /\ Acquired = Acquired
                    /\ true = true /\ (r = Get img -> false = false)).
    { intros Hin. apply elem_of_cons in Hin as [->|Hin];
        [|apply list_elem_of_singleton in Hin as ->]; repeat split; auto. }
    destruct (getSucceeds reg img); [exact Hboth|].
    destruct (String_eqb img "auto"); exact Hboth.
Qed.

(** Every goroutine that finished left an entry for its image and no other
    entry exists; a request reaches the store only from a goroutine that got
    a pool slot and whose reference parsed; and a GET is sent for an image
    only when the HEAD for it failed. *)
Theorem CheckImagesExist_entries_and_requests
    (reg : registry) (finished : list (string * slot)) :
  (forall img, is_Some ((CheckImagesExist reg finished).1 !! img)
               <-> img ∈ finished.*1)
  /\ (forall r, r ∈ (CheckImagesExist reg finished).2 ->
        exists img, (r = Head img \/ r = Get img)
                    /\ (img, Acquired) ∈ finished
                    /\ parses reg img = true)
  /\ (forall img, Get img ∈ (CheckImagesExist reg finished).2 ->
        headSucceeds reg img = false).
Proof.
  induction finished as [|[name s] finished (Hentries & Hsent & Hget)] using rev_ind.
  - split; [|split].
    + intros img. cbn. rewrite lookup_empty. split.
      * intros [? [=]].
      * intros Hin. now apply elem_of_nil in Hin.
    + intros r Hin. now apply elem_of_nil in Hin.
    + intros img Hin. now apply elem_of_nil in Hin.
  - rewrite CheckImagesExist_snoc. cbn [fst snd]. split; [|split].
    + intros img. rewrite fmap_app, elem_of_app. cbn [fmap list_fmap fst].
      rewrite list_elem_of_singleton.
      destruct (decide (name = img)) as [->|Hne].
      * rewrite lookup_insert_eq. split; [now right|eauto].
      * rewrite lookup_insert_ne by exact Hne. rewrite Hentries.
        split; [now left|]. intros [Hin|Heq]; [exact Hin|congruence].
    + intros r Hin. apply elem_of_app in Hin as [Hin|Hin].
      * destruct (Hsent r Hin) as (img & Hr & Hslot & Hparses).
        exists img. split; [exact Hr|]. split; [|exact Hparses].
        apply elem_of_app. now left.
      * destruct (probe_requests reg s name r Hin) as (Hr & -> & Hparses & _).
        exists name. split; [exact Hr|]. split; [|exact Hparses].
        apply elem_of_app. right. now apply list_elem_of_singleton.
    + intros img Hin. apply elem_of_app in Hin as [Hin|Hin]; [now apply Hget|].
      destruct (probe_requests reg s name _ Hin) as ([Hr|Hr] & _ & _ & Hhead);
        [discriminate Hr|].
      injection Hr as ->. now apply Hhead.
Qed.

(** ** The toleration merge and the two block writers on concrete input *)

Lemma mergeTolerations_marks_handled_witness :
  mergeTolerations Yaml.Unmarshal Yaml.Marshal
    ["  - key: a"; "    operator: Exists"; "other: 1"] ["name: x"] 0
    [Unlines ["tolerations:"; "- key: a"; "  operator: Exists"]] "tolerations:"
  = Ok (["name: x"; "tolerations:"; "  - key: a"; "    operator: Exists"],
        2%nat, false, true)
  /\ (false = false ->
      ["name: x"; "tolerations:"; "  - key: a"; "    operator: Exists"]
      = (["name: x"] ++ ["tolerations:"])
        ++ take 2 ["  - key: a"; "    operator: Exists"; "other: 1"]).
Proof.
  assert (Hrun : mergeTolerations Yaml.Unmarshal Yaml.Marshal
            ["  - key: a"; "    operator: Exists"; "other: 1"] ["name: x"] 0
            [Unlines ["tolerations:"; "- key: a"; "  operator: Exists"]] "tolerations:"
          = Ok (["name: x"; "tolerations:"; "  - key: a"; "    operator: Exists"],
                2%nat, false, true))
    by (vm_compute; reflexivity).
  split; [exact Hrun|].
  exact (proj2 (mergeTolerations_marks_handled Yaml.Unmarshal Yaml.Marshal
                  _ _ _ _ _ _ _ _ _ Hrun)).
Defined.

Lemma injectBlockLines_helpers_agrees_witness :
  injectBlockLines_helpers
    [Unlines ["tolerations:"; "- key: b"; "  operator: Exists"]] 2 "tolerations"
  = injectBlockLines
      [Unlines ["tolerations:"; "- key: b"; "  operator: Exists"]] 2 "tolerations".
Proof.
  apply (injectBlockLines_helpers_agrees
           [Unlines ["tolerations:"; "- key: b"; "  operator: Exists"]] 2 "tolerations").
  constructor; [|constructor]. vm_compute. lia.
Defined.

(** ** The kind of a rendered resource *)

Lemma splitAt_not_nil (sep : string) (s : string) (skip : nat) : splitAt sep skip s <> [].
Proof.
  revert skip. induction s as [|c rest IH]; intros skip; cbn [splitAt]; [discriminate|].
  destruct skip as [|k]; [|apply IH].
  destruct (String.prefix sep (String c rest)); [discriminate|].
  destruct (splitAt sep 0 rest); discriminate.
Qed.

Lemma SplitStr_second (s sep : string) :
  sep <> EmptyString -> ContainsStr s sep = true ->
  exists part, SplitStr s sep !! 1%nat = Some part.
Proof.
  intros Hsep. unfold SplitStr. induction s as [|c rest IH]; cbn [ContainsStr splitAt].
  - destruct sep; [congruence|]. cbn. discriminate.
  - intros Hin. destruct (String.prefix sep (String c rest)) eqn:Ep.
    + pose proof (splitAt_not_nil sep rest (Nat.pred (String.length sep))) as Hne.
      destruct (splitAt sep (Nat.pred (String.length sep)) rest) as [|part more];
        [congruence|].
      exists part. reflexivity.
    + cbn [orb] in Hin. destruct (IH Hin) as [part Hpart].
      destruct (splitAt sep 0 rest) as [|first more]; [discriminate Hpart|].
      exists part. exact Hpart.
Qed.

Lemma kindValueOf_returns (line : string) :
  exists kindValue, kindValueOf line = Ok kindValue
    /\ forall k, kindValue = Some k ->
         HasPrefix (TrimSpace line) "kind:" = true
         /\ (ContainsChar (TrimSpace (TrimPrefix (TrimSpace line) "kind:")) "{" = false ->
             k = TrimSpace (TrimPrefix (TrimSpace line) "kind:")).
Proof.
  unfold kindValueOf. cbv zeta.
  destruct (HasPrefix (TrimSpace line) "kind:"); [|eexists; split; [reflexivity|discriminate]].
  destruct (ContainsChar _ "{") eqn:Ebrace.
  - destruct (ContainsStr _ "default") eqn:Edefault;
      [|eexists; split; [reflexivity|discriminate]].
    destruct (SplitStr_second _ "default" ltac:(discriminate) Edefault) as [part Hpart].
    unfold partAt. rewrite Hpart. cbn [obind]. eexists. split; [reflexivity|].
    intros k _. split; [reflexivity|discriminate].
  - eexists. split; [reflexivity|]. intros k [= <-]. split; reflexivity.
Qed.

(** [getK8sResourceKind] never panics: the template branch reads the second
    piece of a split that has one.  It returns the empty text or one of the
    seven kinds; a kind it returns is the value of a [kind:] line of the
    document, and when that line holds no template expression the value is
    the whole trimmed text behind [kind:], so that [PodDisruptionBudget] is
    not taken for [Pod]. *)
Theorem getK8sResourceKind_exact_kind (s : string) :
  exists kind,
    getK8sResourceKind s = Ok kind
    /\ (kind = EmptyString
        \/ (kind ∈ resourceKinds
            /\ exists line,
                 line ∈ Lines s
                 /\ HasPrefix (TrimSpace line) "kind:" = true
                 /\ (ContainsChar (TrimSpace (TrimPrefix (TrimSpace line) "kind:")) "{"
                     = false ->
                     TrimSpace (TrimPrefix (TrimSpace line) "kind:") = kind))).
Proof.
  unfold getK8sResourceKind. induction (Lines s) as [|line more IH]; cbn [kindOfLines].
  - exists EmptyString. split; [reflexivity|now left].
  - destruct (kindValueOf_returns line) as (kindValue & -> & Hvalue). cbn [obind].
    assert (Hlater : exists kind, kindOfLines more = Ok kind
              /\ (kind = EmptyString
                  \/ (kind ∈ resourceKinds
                      /\ exists l, l ∈ line :: more
                           /\ HasPrefix (TrimSpace l) "kind:" = true
                           /\ (ContainsChar (TrimSpace (TrimPrefix (TrimSpace l) "kind:")) "{"
                               = false ->
                               TrimSpace (TrimPrefix (TrimSpace l) "kind:") = kind)))).
    { destruct IH as (kind & Hrun & [Hnil|(Hin & l & Hl & Hrest)]).
      - exists kind. split; [exact Hrun|now left].
      - exists kind. split; [exact Hrun|]. right. split; [exact Hin|].
        exists l. split; [now apply list_elem_of_further|exact Hrest]. }
    destruct kindValue as [kindValue|]; [|exact Hlater].
    destruct (Contains resourceKinds kindValue) eqn:Ekind; [|exact Hlater].
    exists kindValue. split; [reflexivity|]. right.
    destruct (Hvalue kindValue eq_refl) as [Hprefix Hplain]. split.
    + unfold Contains in Ekind. apply existsb_exists in Ekind as (kind & Hin & Heq).
      unfold String_eqb in Heq. apply bool_decide_eq_true in Heq. subst kind.
      now apply list_elem_of_In.
    + exists line. split; [apply list_elem_of_here|]. split; [exact Hprefix|].
      intros Hbrace. symmetry. now apply Hplain.
Qed.

Example getK8sResourceKind_kinds :
  getK8sResourceKind (Unlines ["apiVersion: policy/v1"; "kind: PodDisruptionBudget"])
  = Ok EmptyString
  /\ getK8sResourceKind (Unlines ["apiVersion: apps/v1"; "  kind:   DaemonSet  "])
     = Ok "DaemonSet"
  /\ getK8sResourceKind
       (Unlines ["kind: {{ .Values.kind | default " +:+ String Yaml.dquote "Deployment"
                 +:+ String Yaml.dquote " }}"])
     = Ok "Deployment".
Proof. repeat split; vm_compute; reflexivity. Qed.
